(** * pofmt: a shallow embedding of [src/pofmt/core.py]

    The development follows the layout of the Python module: the string
    helpers and the regular-expression matcher the module borrows from
    the Python runtime, the width model ([len_with_cjk_width_factor]),
    the [textwrap.TextWrapper] instance that [Entry._format_text]
    configures, [Entry], the [Source] parser and reflow driver, and the
    bytes that [Source.write] leaves in a file.

    Conventions.
    - A Python [str] is a list of Unicode code points ([N]); a Python
      [int] is a [Z]; a Python [float] is an IEEE 754 binary64 number
      ([spec_float] of the standard library at precision 53), added
      with rounding to nearest as the interpreter adds.
    - A raised exception is a value of [exn] carried by [result]; the
      patched [len] can raise, and so can every caller of it.
    - Python's Unicode tables ([unicodedata.east_asian_width],
      [str.isspace], the regex classes [\w] and [\d]) are a parameter
      [unicode_db] of everything that consults them; [ucd] is the part
      of those tables the examples need.
    - [re], [textwrap] and the built-in [sum] are those of CPython
      3.11. *)

From Stdlib Require Import String Ascii.
From Stdlib Require Import List ZArith NArith Bool Lia DecimalString.
From Stdlib Require SpecFloat.
Import ListNotations.
Open Scope Z_scope.

Set Implicit Arguments.

(** ** Python strings *)

Definition codepoint := N.
Definition str := list codepoint.

Definition ord (a : ascii) : codepoint := N_of_ascii a.

(** [lit s] is the Python literal with the characters of [s] (ASCII only). *)
Fixpoint lit (s : string) : str :=
  match s with
  | EmptyString => []
  | String a s' => ord a :: lit s'
  end.

Fixpoint str_eqb (a b : str) : bool :=
  match a, b with
  | [], [] => true
  | x :: a', y :: b' => N.eqb x y && str_eqb a' b'
  | _, _ => false
  end.

Fixpoint lines_eqb (a b : list str) : bool :=
  match a, b with
  | [], [] => true
  | x :: a', y :: b' => str_eqb x y && lines_eqb a' b'
  | _, _ => false
  end.

(** [len] of the Python runtime before it is patched. *)
Definition builtin_len {A} (s : list A) : Z := Z.of_nat (length s).

(** The truth value of a string or a list. *)
Definition nonempty {A} (c : list A) : bool :=
  match c with [] => false | _ :: _ => true end.

(** [s.startswith(p)] *)
Fixpoint startswith (s p : str) : bool :=
  match p, s with
  | [], _ => true
  | y :: p', x :: s' => N.eqb x y && startswith s' p'
  | _ :: _, [] => false
  end.

(** Python's normalisation of a slice bound against a length: a negative
    bound counts from the end, and the result is clamped to [0, n]. *)
Definition slice_bound (n : nat) (i : Z) : nat :=
  let j := if i <? 0 then i + Z.of_nat n else i in
  Z.to_nat (Z.min (Z.max j 0) (Z.of_nat n)).

(** [s[:i]] and [s[i:]] *)
Definition slice_to {A} (s : list A) (i : Z) : list A := firstn (slice_bound (length s) i) s.
Definition slice_from {A} (s : list A) (i : Z) : list A := skipn (slice_bound (length s) i) s.

(** [l[i]], with Python's negative indices; [None] is [IndexError]. *)
Definition getitem {A} (l : list A) (i : Z) : option A :=
  if i <? 0
  then (if i + Z.of_nat (length l) <? 0 then None
        else nth_error l (Z.to_nat (i + Z.of_nat (length l))))
  else nth_error l (Z.to_nat i).

(** [l[i:j] = r] on a list. *)
Definition slice_assign {A} (l : list A) (i j : Z) (r : list A) : list A :=
  let a := slice_bound (length l) i in
  let b := Nat.max a (slice_bound (length l) j) in
  firstn a l ++ r ++ skipn b l.

(** [str.join] on the empty separator. *)
Definition join (parts : list str) : str := concat parts.

Fixpoint dropwhile {A} (p : A -> bool) (l : list A) : list A :=
  match l with
  | [] => []
  | x :: l' => if p x then dropwhile p l' else l
  end.

(** [s.split(sep)] for a non-empty separator: the occurrences of [sep]
    are taken leftmost first and do not overlap. *)
Fixpoint split_acc (sep : str) (cur_rev : str) (skip : nat) (s : str) : list str :=
  match s with
  | [] => [rev cur_rev]
  | x :: s' =>
      match skip with
      | S k => split_acc sep cur_rev k s'
      | O =>
          if startswith s sep
          then rev cur_rev :: split_acc sep [] (length sep - 1) s'
          else split_acc sep (x :: cur_rev) O s'
      end
  end.

Definition split (s sep : str) : list str := split_acc sep [] O s.


(** [s.rfind(c, 0, stop)] for a one-character needle: the highest index
    below the (normalised) [stop] that holds [c], or [-1]. *)
Fixpoint rfind_from (c : codepoint) (s : str) (i : Z) (best : Z) : Z :=
  match s with
  | [] => best
  | x :: s' => rfind_from c s' (i + 1) (if N.eqb x c then i else best)
  end.

Definition rfind (s : str) (c : codepoint) (stop : Z) : Z :=
  rfind_from c (slice_to s stop) 0 (-1).

(** [s.expandtabs(tabsize)]: the column restarts after a newline or a
    carriage return; any other character advances it by one. *)
Fixpoint expandtabs_from (tabsize : nat) (col : nat) (s : str) : str :=
  match s with
  | [] => []
  | x :: s' =>
      if N.eqb x 9 then
        match tabsize with
        | O => expandtabs_from tabsize col s'
        | S _ =>
            let n := (tabsize - Nat.modulo col tabsize)%nat in
            repeat 32%N n ++ expandtabs_from tabsize (col + n) s'
        end
      else if N.eqb x 10 || N.eqb x 13 then x :: expandtabs_from tabsize 0 s'
      else x :: expandtabs_from tabsize (S col) s'
  end.

Definition expandtabs (s : str) (tabsize : nat) : str := expandtabs_from tabsize 0 s.

(** ** Exceptions *)

Inductive exn :=
| ParseError (message : str)   (* the class defined by the module *)
| ValueError
| IndexError
| RuntimeError
| OverflowError
| UnicodeEncodeError
| UnicodeDecodeError
| Diverged.   (* not a Python exception: a loop of the model used up its
                 bound; the totality lemmas show that no function returns it *)

Inductive result (A : Type) :=
| Ok (a : A)
| Raise (e : exn).
Arguments Ok {A} a.
Arguments Raise {A} e.

Definition bind {A B} (r : result A) (f : A -> result B) : result B :=
  match r with
  | Ok a => f a
  | Raise e => Raise e
  end.

Notation "x <- c ;; k" := (bind c (fun x => k))
  (at level 61, c at next level, right associativity).

(** ** The Unicode tables of the Python runtime *)

Inductive eaw := EA_N | EA_Na | EA_H | EA_A | EA_W | EA_F.

Record unicode_db := {
  east_asian_width : codepoint -> eaw;   (* unicodedata.east_asian_width *)
  isspace : codepoint -> bool;           (* str.isspace, used by str.strip *)
  isalnum : codepoint -> bool;           (* str.isalnum, behind the class \w *)
  isdecimal : codepoint -> bool          (* str.isdecimal, the class \d *)
}.

Definition in_range (lo hi c : codepoint) : bool := N.leb lo c && N.leb c hi.

(** The part of the tables used by the examples: ASCII, the CJK Unified
    Ideographs block, U+3000 and the punctuation the module lists.
    Outside it the entries are the defaults (neutral, no class). *)
Definition ucd_wide : list codepoint :=
  [12296; 12298; 12300; 12302; 65091; 12308; 12304; 12297; 12299; 12301;
   12303; 65092; 12309; 65103; 12289; 12290]%N.
Definition ucd_full : list codepoint :=
  [65288; 65509; 65289; 65374; 65292; 65311; 65281; 65306; 65307; 12288]%N.
Definition ucd_ambiguous : list codepoint :=
  [8220; 8216; 8230; 8212; 8221; 8217]%N.

Definition ucd : unicode_db := {|
  east_asian_width := fun c =>
    if in_range 32 126 c then EA_Na
    else if in_range 19968 40959 c then EA_W
    else if existsb (N.eqb c) ucd_wide then EA_W
    else if existsb (N.eqb c) ucd_full then EA_F
    else if existsb (N.eqb c) ucd_ambiguous then EA_A
    else EA_N;
  isspace := fun c => in_range 9 13 c || in_range 28 32 c || N.eqb c 12288;
  isalnum := fun c =>
    in_range 48 57 c || in_range 65 90 c || in_range 97 122 c || in_range 19968 40959 c;
  isdecimal := fun c => in_range 48 57 c
|}%N.

(** ** Regular expressions ([re])

    A backtracking matcher with the priorities of Python's [re]: the
    alternatives of [|] are tried left to right, a greedy repetition
    tries the longest run first, a lazy one the shortest.  Repetition is
    over single-character classes, which is all the module's patterns
    need.  The matcher is written in continuation-passing style: the
    continuation is "the rest of the pattern", and [None] makes the
    matcher backtrack. *)

Definition class := codepoint -> bool.

Inductive regex :=
| Eps                                 (* the empty pattern *)
| Chr (p : class)                     (* one character of a class *)
| Seq (r1 r2 : regex)
| Alt (r1 r2 : regex)                 (* r1|r2 *)
| Star (p : class)                    (* p*, greedy *)
| StarLazy (p : class)                (* p*?, lazy *)
| Group (r : regex)                   (* the capturing group 1 *)
| Ahead (r : regex)                   (* (?=r) *)
| Behind (ps : list class)            (* (?<=p1...pn) *)
| NotBehind (ps : list class)         (* (?<!p1...pn) *)
| EndZ                                (* \Z *)
| EndDollar.                          (* $ without re.MULTILINE *)

Definition Plus (p : class) : regex := Seq (Chr p) (Star p).
Definition PlusLazy (p : class) : regex := Seq (Chr p) (StarLazy p).
Definition Opt (r : regex) : regex := Alt r Eps.

(** The position of a match in progress: the text before the position
    (nearest character first), the text after it, and group 1. *)
Record cursor := {
  before : str;
  after : str;
  group1 : option str
}.

Definition cursor_at_start (s : str) : cursor :=
  {| before := []; after := s; group1 := None |}.

Definition pos (c : cursor) : nat := length (before c).

Definition advance (x : codepoint) (rest : str) (c : cursor) : cursor :=
  {| before := x :: before c; after := rest; group1 := group1 c |}.

(** The text between two positions of the same subject. *)
Definition text_between (c c' : cursor) : str :=
  rev (firstn (pos c' - pos c) (before c')).

Fixpoint ends_with_classes (rev_ps : list class) (bef : str) : bool :=
  match rev_ps, bef with
  | [], _ => true
  | p :: ps, x :: bef' => p x && ends_with_classes ps bef'
  | _ :: _, [] => false
  end.

Section Matcher.
Variable R : Type.

Fixpoint star_greedy (p : class) (bef aft : str) (g : option str)
         (k : cursor -> option R) : option R :=
  let here := k {| before := bef; after := aft; group1 := g |} in
  match aft with
  | x :: rest =>
      if p x then
        match star_greedy p (x :: bef) rest g k with
        | Some r => Some r
        | None => here
        end
      else here
  | [] => here
  end.

Fixpoint star_lazy (p : class) (bef aft : str) (g : option str)
         (k : cursor -> option R) : option R :=
  match k {| before := bef; after := aft; group1 := g |} with
  | Some r => Some r
  | None =>
      match aft with
      | x :: rest => if p x then star_lazy p (x :: bef) rest g k else None
      | [] => None
      end
  end.

Fixpoint rmatch (r : regex) (c : cursor) (k : cursor -> option R) : option R :=
  match r with
  | Eps => k c
  | Chr p =>
      match after c with
      | x :: rest => if p x then k (advance x rest c) else None
      | [] => None
      end
  | Seq r1 r2 => rmatch r1 c (fun c' => rmatch r2 c' k)
  | Alt r1 r2 =>
      match rmatch r1 c k with
      | Some res => Some res
      | None => rmatch r2 c k
      end
  | Star p => star_greedy p (before c) (after c) (group1 c) k
  | StarLazy p => star_lazy p (before c) (after c) (group1 c) k
  | Group r1 =>
      rmatch r1 c (fun c' =>
        k {| before := before c'; after := after c';
             group1 := Some (text_between c c') |})
  | Ahead r1 =>
      match rmatch r1 c (fun _ => k c) with
      | Some res => Some res
      | None => None
      end
  | Behind ps => if ends_with_classes (rev ps) (before c) then k c else None
  | NotBehind ps => if ends_with_classes (rev ps) (before c) then None else k c
  | EndZ => match after c with [] => k c | _ :: _ => None end
  | EndDollar =>
      match after c with
      | [] => k c
      | [x] => if N.eqb x 10 then k c else None
      | _ => None
      end
  end.
End Matcher.

(** [re.search]: the leftmost position at which the pattern matches,
    with the capture reset at every attempt.  [must_advance] is the flag
    the [re] module sets after an empty match: the attempt at the first
    position must then not end where it starts. *)
Fixpoint search (r : regex) (must_advance : bool) (bef aft : str)
  : option (cursor * cursor) :=
  let c := {| before := bef; after := aft; group1 := None |} in
  match rmatch r c (fun c' =>
          if must_advance && Nat.eqb (pos c') (pos c) then None else Some c') with
  | Some c' => Some (c, c')
  | None =>
      match aft with
      | x :: rest => search r false (x :: bef) rest
      | [] => None
      end
  end.

(** [re.match(r, s)]: the pattern anchored at the start; the result is
    [group(1)] of the match object. *)
Definition re_match (r : regex) (s : str) : option str :=
  match rmatch r (cursor_at_start s) (fun c' => Some c') with
  | Some c' => Some (match group1 c' with Some g => g | None => [] end)
  | None => None
  end.

(** [re.sub(r, repl, s)] for a literal replacement. *)
Fixpoint sub_loop (fuel : nat) (r : regex) (repl : str) (must_advance : bool)
         (c : cursor) : str :=
  match fuel with
  | O => after c
  | S fuel' =>
      match search r must_advance (before c) (after c) with
      | None => after c
      | Some (s, e) =>
          text_between c s ++ repl
            ++ sub_loop fuel' r repl (Nat.eqb (pos e) (pos s)) e
      end
  end.

Definition re_sub (r : regex) (repl s : str) : str :=
  sub_loop (2 * length s + 2) r repl false (cursor_at_start s).

(** [r.split(s)] for a pattern with one capturing group: the text before
    each match, then group 1 of the match, and at last the text after
    the last match.  A group that did not take part is [None] in
    Python; it is the empty string here, the only caller drops both. *)
Fixpoint split_loop (fuel : nat) (r : regex) (must_advance : bool) (c : cursor)
  : list str :=
  match fuel with
  | O => []
  | S fuel' =>
      match search r must_advance (before c) (after c) with
      | None => [after c]
      | Some (s, e) =>
          text_between c s
            :: match group1 e with Some g => g | None => [] end
            :: split_loop fuel' r (Nat.eqb (pos e) (pos s)) e
      end
  end.

Definition re_split (r : regex) (s : str) : list str :=
  split_loop (2 * length s + 2) r false (cursor_at_start s).

(** ** Module constants *)

Definition is_char (a : ascii) : class := fun c => N.eqb c (ord a).
Definition one_of (l : list codepoint) : class := fun c => existsb (N.eqb c) l.
Definition neg (p : class) : class := fun c => negb (p c).

(** [.] without re.DOTALL: anything but a newline. *)
Definition dot : class := fun c => negb (N.eqb c 10).

Definition quote : codepoint := 34%N.
Definition backslash : codepoint := 92%N.

(** [MESSAGE_RE]: a quote, group 1 around a greedy run of [.], a quote,
    a run of spaces and [$]. *)
Definition MESSAGE_RE : regex :=
  Seq (Chr (N.eqb quote))
   (Seq (Group (Star dot))
     (Seq (Chr (N.eqb quote))
       (Seq (Star (is_char " ")) EndDollar))).

Definition _cjk_opening_punct : class :=
  one_of [65288; 12296; 12298; 12300; 12302; 65091; 12308; 65509; 12304;
          8220; 8216]%N.

Definition _cjk_closing_punct : class :=
  one_of [65289; 12297; 12299; 12301; 12303; 65092; 12309; 8230; 8212;
          65374; 65103; 12289; 12290; 65292; 65311; 65281; 65306; 65307;
          8221; 8217]%N.

(** [escape_quotes]: [re.sub] of the pattern [(?<!\\)] followed by a
    quote, replaced by a backslash and a quote. *)
Definition unescaped_quote_re : regex :=
  Seq (NotBehind [N.eqb backslash]) (Chr (N.eqb quote)).

Definition escape_quotes (text : str) : str :=
  re_sub unescaped_quote_re [backslash; quote] text.

(** ** Numbers

    The width factor is a Python [float], and the widths are added by
    the built-in [sum], which starts from the int [0]: the sum is an
    int as long as every item is one, and a float from the first float
    item on, each addition rounded to the nearest binary64 number. *)

Definition float := SpecFloat.spec_float.

Definition float_add : float -> float -> float := SpecFloat.SFadd 53 1024.

Definition float_mul : float -> float -> float := SpecFloat.SFmul 53 1024.

(** [x == y] on floats. *)
Definition float_eqb : float -> float -> bool := SpecFloat.SFeqb.

(** [float(n)] for an int: the nearest float. *)
Definition float_of_int (n : Z) : float := SpecFloat.binary_normalize 53 1024 n 0 false.

(** The literal [1.8], the default of [cjk_width_factor] and of
    [--cjk-width]: [0x1.ccccccccccccdp+0]. *)
Definition float_1_8 : float := SpecFloat.S754_finite false 8106479329266893 (-52).

(** [1e308], that is [0x1.1ccf385ebc8a0p+1023], and [float("nan")]. *)
Definition float_1e308 : float := SpecFloat.S754_finite false 5010420900022432 971.
Definition float_nan : float := SpecFloat.S754_nan.

Inductive number :=
| PyInt (n : Z)
| PyFloat (x : float).

(** [a + b] on numbers: an int is converted when the other operand is
    a float. *)
Definition number_add (a b : number) : number :=
  match a, b with
  | PyInt m, PyInt n => PyInt (m + n)
  | PyInt m, PyFloat y => PyFloat (float_add (float_of_int m) y)
  | PyFloat x, PyInt n => PyFloat (float_add x (float_of_int n))
  | PyFloat x, PyFloat y => PyFloat (float_add x y)
  end.

(** [sum(items)] *)
Definition builtin_sum (items : list number) : number :=
  fold_left number_add items (PyInt 0).

(** [int(x)]: a float is truncated towards zero; an infinity raises
    OverflowError and a NaN raises ValueError. *)
Definition int (x : number) : result Z :=
  match x with
  | PyInt n => Ok n
  | PyFloat (SpecFloat.S754_zero _) => Ok 0
  | PyFloat (SpecFloat.S754_finite s m e) =>
      Ok (SpecFloat.cond_Zopp s (Z.shiftl (Zpos m) e))
  | PyFloat (SpecFloat.S754_infinity _) => Raise OverflowError
  | PyFloat SpecFloat.S754_nan => Raise ValueError
  end.

(** ** Width model *)

Section WithUnicode.
Variable U : unicode_db.

(** [is_full_width]: the class name is a substring of the text WAF
    exactly for the three classes W, A and F. *)
Definition is_full_width (c : codepoint) : bool :=
  match east_asian_width U c with
  | EA_W | EA_A | EA_F => true
  | EA_N | EA_Na | EA_H => false
  end.

(** [sum(factor if is_full_width(c) else 1 for c in text)]: the items
    are the float [factor] and the int [1]. *)
Definition width_sum (factor : float) (text : str) : number :=
  builtin_sum (map (fun c => if is_full_width c then PyFloat factor else PyInt 1) text).

(** [new_len], the function that [len_with_cjk_width_factor] installs
    as [builtins.len], on a [str]. *)
Definition new_len (factor : float) (text : str) : result Z :=
  int (width_sum factor text).

(** ** The wrapper of [Entry._format_text]

    [textwrap.TextWrapper(width - 2, drop_whitespace=False)], every
    other option at its default: tabs are expanded (tab size 8),
    whitespace is replaced by spaces, long words are broken, hyphens are
    break points, there is no indentation and no limit on the lines.
    [len] below is the name [len] as textwrap resolves it, that is
    whatever [builtins.len] is while the wrapper runs.  The pattern of
    [wordsep_re] is compiled while [len] is patched as well; the parser
    and the compiler of [re] take the [len] of lists and byte arrays,
    which the patch leaves alone, and of pattern text only to place
    their error messages, so that the compiled pattern does not depend
    on the factor. *)

Definition _whitespace : class := one_of [9; 10; 11; 12; 13; 32]%N.
Definition word_char : class := fun c => isalnum U c || N.eqb c 95.     (* \w *)
Definition word_punct : class :=
  fun c => word_char c || one_of [33; 34; 39; 38; 46; 44; 63]%N c.
Definition letter : class := fun c => negb (isdecimal U c || negb (word_char c)).
Definition nowhitespace : class := neg _whitespace.
Definition hyphen : class := is_char "-".

(** [-{2,}] *)
Definition dashes : regex := Seq (Chr hyphen) (Seq (Chr hyphen) (Star hyphen)).

(** [wordsep_re] after [_format_text] has rewritten it: the pattern text
    of textwrap with its closing parentheses stripped, so that the two
    CJK alternatives join the ways in which a word may end. *)
Definition wordsep_re : regex :=
  Group
    (Alt (Plus _whitespace)                                      (* any whitespace *)
    (Alt (Seq (Behind [word_punct]) (Seq dashes (Ahead (Chr word_char))))
                                                      (* em-dash between words *)
         (Seq (PlusLazy nowhitespace)                 (* word, possibly hyphenated *)
           (Alt (Seq (Chr hyphen)                                (* hyphenated word *)
                  (Seq (Alt (Behind [letter; letter; hyphen])
                            (Behind [letter; hyphen; letter; hyphen]))
                       (Ahead (Seq (Chr letter) (Seq (Opt (Chr hyphen)) (Chr letter))))))
           (Alt (Ahead (Alt (Chr _whitespace) EndZ))             (* end of word *)
           (Alt (Seq (Behind [word_punct]) (Ahead (Seq dashes (Chr word_char))))
                                                                 (* em-dash *)
           (Alt (Seq (Behind [_cjk_closing_punct]) (Ahead (Chr word_char)))
                (Ahead (Chr _cjk_opening_punct))))))))).

Section TextWrapper.
Variable len : str -> result Z.
Variable self_width : Z.

Definition _munge_whitespace (text : str) : str :=
  map (fun c => if _whitespace c then 32%N else c) (expandtabs text 8).

Definition _split (text : str) : list str :=
  filter nonempty (re_split wordsep_re text).

Definition _split_chunks (text : str) : list str :=
  _split (_munge_whitespace text).

(** [_handle_long_word]: [chunks] is the stack of chunks, top first;
    the result is the new stack and the new current line. *)
Definition _handle_long_word (chunks : list str) (cur_line : list str)
           (cur_len width : Z) : result (list str * list str) :=
  let space_left := if width <? 1 then 1 else width - cur_len in
  match chunks with
  | [] => Ok (chunks, cur_line)          (* not reached: the caller checks *)
  | chunk :: below =>
      l <- len chunk ;;
      let hyphen_at := rfind chunk (ord "-") space_left in
      let end_ :=
        if (space_left <? l)
           && (0 <? hyphen_at)
           && existsb (fun c => negb (N.eqb c (ord "-"))) (slice_to chunk hyphen_at)
        then hyphen_at + 1
        else space_left in
      Ok (slice_from chunk end_ :: below, cur_line ++ [slice_to chunk end_])
  end.

(** The inner loop of [_wrap_chunks]: chunks are moved to the current
    line while they fit. *)
Fixpoint take_fitting (chunks : list str) (cur_line : list str) (cur_len width : Z)
  : result (list str * list str * Z) :=
  match chunks with
  | [] => Ok (chunks, cur_line, cur_len)
  | chunk :: below =>
      l <- len chunk ;;
      if cur_len + l <=? width
      then take_fitting below (cur_line ++ [chunk]) (cur_len + l) width
      else Ok (chunks, cur_line, cur_len)
  end.

(** [sum(map(len, cur_line))] *)
Fixpoint sum_len (cur_line : list str) : result Z :=
  match cur_line with
  | [] => Ok 0
  | x :: rest => l <- len x ;; n <- sum_len rest ;; Ok (l + n)
  end.

(** The step of the outer loop that follows the inner loop:
    [if chunks and len(chunks[-1]) > width], the call of
    [_handle_long_word] and [cur_len = sum(map(len, cur_line))].  The
    sum is not used afterwards ([drop_whitespace] is off and there is
    no limit on the lines), but its calls of [len] are made. *)
Definition handle_top (width : Z) (chunks cur_line : list str) (cur_len : Z)
  : result (list str * list str) :=
  match chunks with
  | top :: _ =>
      l <- len top ;;
      if width <? l
      then r <- _handle_long_word chunks cur_line cur_len width ;;
           _ <- sum_len (snd r) ;;
           Ok r
      else Ok (chunks, cur_line)
  | [] => Ok (chunks, cur_line)
  end.

(** The outer loop of [_wrap_chunks], on the reversed list as a stack. *)
Fixpoint wrap_loop (fuel : nat) (chunks : list str) (lines : list str)
  : result (list str) :=
  match chunks with
  | [] => Ok lines
  | _ :: _ =>
      match fuel with
      | O => Raise Diverged
      | S fuel' =>
          indent <- len [] ;;
          let width := self_width - indent in
          taken <- take_fitting chunks [] 0 width ;;
          let '(chunks1, cur_line1, cur_len1) := taken in
          handled <- handle_top width chunks1 cur_line1 cur_len1 ;;
          let '(chunks2, cur_line2) := handled in
          match cur_line2 with
          | [] => wrap_loop fuel' chunks2 lines
          | _ :: _ => wrap_loop fuel' chunks2 (lines ++ [join cur_line2])
          end
      end
  end.

(** Every pass of the outer loop removes a chunk or a character, so
    this many passes are enough. *)
Definition wrap_fuel (chunks : list str) : nat :=
  S (length chunks + length (concat chunks)).

Definition _wrap_chunks (chunks : list str) : result (list str) :=
  if self_width <=? 0 then Raise ValueError
  else wrap_loop (wrap_fuel chunks) chunks [].

Definition wrap (text : str) : result (list str) :=
  _wrap_chunks (_split_chunks text).
End TextWrapper.

(** ** Entry *)

Record Span := { start : Z; end_ : Z }.

Record Entry := {
  span : Span;
  msgid : list str;
  msgstr : list str
}.

(** The optional [pangu] module: [Some spacing_text] when the import
    succeeded, [None] otherwise. *)
Variable pangu : option (str -> str).

Definition process_text (lines : list str) : str :=
  let text := escape_quotes (join lines) in
  match pangu with
  | Some spacing_text => spacing_text text
  | None => text
  end.

(** The f-strings of [_format_text]. *)
Definition quoted (line : str) : str := [quote] ++ line ++ [quote].
Definition titled (title text : str) : str := title ++ [32%N] ++ quoted text.

(** [self.msgid == [""]] *)
Definition is_header (ids : list str) : bool :=
  match ids with
  | [[]] => true
  | _ => false
  end.

(** [paras[-1] = paras[-1][:-2]] *)
Fixpoint strip_last_para (paras : list str) : list str :=
  match paras with
  | [] => []
  | [p] => [slice_to p (-2)]
  | p :: ps => p :: strip_last_para ps
  end.

Definition newline_escape : str := [backslash; ord "n"].

(** The paragraphs of a header field. *)
Definition header_paras (text : str) : list str :=
  strip_last_para (map (fun para => para ++ newline_escape) (split text newline_escape)).

(** [[line for para in paras for line in wrapper.wrap(para)]] *)
Fixpoint wrap_paras (len : str -> result Z) (w : Z) (paras : list str)
  : result (list str) :=
  match paras with
  | [] => Ok []
  | para :: rest =>
      ls <- wrap len w para ;;
      more <- wrap_paras len w rest ;;
      Ok (ls ++ more)
  end.

Definition _format_text (len : str -> result Z) (self : Entry) (title : str)
           (lines : list str) (width : Z) (reformat : bool) : result (list str) :=
  if negb reformat then
    match lines with
    | [] => Raise IndexError
    | first :: rest => Ok (titled title first :: map quoted rest)
    end
  else
    let text := process_text lines in
    title_len <- len title ;;
    text_len <- len text ;;
    if title_len + text_len + 3 <=? width then
      (* 1 space + 2 quotes = 3 *)
      Ok [titled title text]
    else if is_header (msgid self) then
      ls <- wrap_paras len (width - 2) (header_paras text) ;;
      Ok (titled title [] :: map quoted ls)
    else
      ls <- wrap len (width - 2) text ;;
      Ok (titled title [] :: map quoted ls).

Definition format (self : Entry) (width : Z) (cjk_width_factor : float) (no_msgid : bool)
  : result (list str) :=
  let len := new_len cjk_width_factor in
  a <- _format_text len self (lit "msgid") (msgid self) width (negb no_msgid) ;;
  b <- _format_text len self (lit "msgstr") (msgstr self) width true ;;
  Ok (a ++ b).

(** ** Source *)

Record Source := {
  filename : str;
  lines : list str;
  _original : list str;
  lineno : Z;
  _entries : list Entry
}.

(** [Source(filename, lines)] with the lines given by the caller. *)
Definition Source_init (name : str) (ls : list str) : Source :=
  {| filename := name; lines := ls; _original := ls; lineno := -1; _entries := [] |}.

Definition set_lineno (self : Source) (n : Z) : Source :=
  {| filename := filename self; lines := lines self; _original := _original self;
     lineno := n; _entries := _entries self |}.

Definition set_lines (self : Source) (ls : list str) : Source :=
  {| filename := filename self; lines := ls; _original := _original self;
     lineno := lineno self; _entries := _entries self |}.

Definition append_entry (self : Source) (e : Entry) : Source :=
  {| filename := filename self; lines := lines self; _original := _original self;
     lineno := lineno self; _entries := _entries self ++ [e] |}.

(** [__next__]: [None] is StopIteration. *)
Definition __next__ (self : Source) : result (Source * option str) :=
  let self := set_lineno self (lineno self + 1) in
  if builtin_len (lines self) <=? lineno self then Ok (self, None)
  else match getitem (lines self) (lineno self) with
       | Some line => Ok (self, Some line)
       | None => Raise IndexError
       end.

(** [str(n)] for an [int]. *)
Definition str_of_int (n : Z) : str := lit (NilZero.string_of_int (Z.to_int n)).

Definition parse_error {A} (self : Source) (message : str) : result A :=
  Raise (ParseError (lit "line " ++ str_of_int (lineno self) ++ lit ": " ++ message)).

(** [s.strip()] *)
Definition strip (s : str) : str :=
  rev (dropwhile (isspace U) (rev (dropwhile (isspace U) s))).

(** [not line.strip()] *)
Definition blank (line : str) : bool := negb (nonempty (strip line)).

(** The list that the name [temp] of [_parse_entry] is bound to: the
    list it was created with, or the very list [msgid] or [msgstr]. *)
Inductive temp_ref := temp_own | temp_msgid | temp_msgstr.

Definition expect_msgid : str :=
  lit "Expect `msgid " ++ [quote] ++ lit "..." ++ [quote] ++ lit "`".
Definition expect_msgstr : str :=
  lit "Expect `msgstr: " ++ [quote] ++ lit "..." ++ [quote] ++ lit "`".
Definition expect_continuation : str :=
  lit "Expect `" ++ [quote] ++ lit "..." ++ [quote] ++ lit "`".

(** The end of [_parse_entry], after its loop. *)
Definition finish_entry (self : Source) (ids strs : list str) (start_line : Z)
  : result (Source * Entry) :=
  match strs with
  | [] => parse_error self (lit "Missing msgstr")
  | _ :: _ =>
      Ok (self, {| span := {| start := start_line; end_ := lineno self |};
                   msgid := ids; msgstr := strs |})
  end.

(** The loop of [_parse_entry]. *)
Fixpoint entry_loop (fuel : nat) (self : Source) (ids strs own : list str)
         (temp : temp_ref) (start_line : Z) : result (Source * Entry) :=
  match fuel with
  | O => Raise Diverged
  | S fuel' =>
      nx <- __next__ self ;;
      let '(self, item) := nx in
      match item with
      | None => finish_entry self ids strs start_line
      | Some line =>
          if blank line then finish_entry self ids strs start_line
          else if startswith line (lit "#") then
            entry_loop fuel' self ids strs own temp start_line
          else if startswith line (lit "msgid") then
            if nonempty ids
            then finish_entry (set_lineno self (lineno self - 1)) ids strs start_line
            else match re_match MESSAGE_RE (slice_from line 6) with
                 | None => parse_error self expect_msgid
                 | Some m =>
                     entry_loop fuel' self (ids ++ [m]) strs own temp_msgid (lineno self)
                 end
          else if startswith line (lit "msgstr") then
            if nonempty strs
            then finish_entry (set_lineno self (lineno self - 1)) ids strs start_line
            else match re_match MESSAGE_RE (slice_from line 7) with
                 | None => parse_error self expect_msgstr
                 | Some m => entry_loop fuel' self ids (strs ++ [m]) own temp_msgstr start_line
                 end
          else match re_match MESSAGE_RE line with
               | None => parse_error self expect_continuation
               | Some m =>
                   match temp with
                   | temp_own => entry_loop fuel' self ids strs (own ++ [m]) temp start_line
                   | temp_msgid => entry_loop fuel' self (ids ++ [m]) strs own temp start_line
                   | temp_msgstr => entry_loop fuel' self ids (strs ++ [m]) own temp start_line
                   end
               end
      end
  end.

(** A loop over the source reads every line at most once more than the
    source has lines. *)
Definition loop_fuel (self : Source) : nat := S (S (length (lines self))).

Definition _parse_entry (self : Source) : result (Source * Entry) :=
  entry_loop (loop_fuel self) self [] [] [] temp_own (lineno self).

(** [line.startswith("#, ") and line[3:].strip() == "fuzzy"] *)
Definition fuzzy_marker (line : str) : bool :=
  startswith line (lit "#, ") && str_eqb (strip (slice_from line 3)) (lit "fuzzy").

(** The loop of [parse]. *)
Fixpoint parse_loop (fuel : nat) (self : Source) : result Source :=
  match fuel with
  | O => Raise Diverged
  | S fuel' =>
      nx <- __next__ self ;;
      let '(self, item) := nx in
      match item with
      | None => Ok self
      | Some line =>
          self <- (if fuzzy_marker line
                   then (* Don't modify the fuzzy entries *)
                        r <- _parse_entry self ;; Ok (fst r)
                   else Ok self) ;;
          if blank line || startswith line (lit "#") then parse_loop fuel' self
          else if startswith line (lit "msgid") then
            r <- _parse_entry (set_lineno self (lineno self - 1)) ;;
            parse_loop fuel' (append_entry (fst r) (snd r))
          else parse_error self (lit "Unexpected token")
      end
  end.

Definition parse (self : Source) : result Source :=
  if 0 <=? lineno self then Raise RuntimeError
  else parse_loop (loop_fuel self) self.

(** [difflib.unified_diff] yields no line for equal sequences and at
    least the two header lines otherwise, so [has_diff] says whether
    the original and the current lines differ. *)
Definition diff (self : Source) : bool :=
  negb (lines_eqb (_original self) (lines self)).

(** The loop of [fix], over [reversed(self._entries)]. *)
Fixpoint fix_loop (entries : list Entry) (self : Source) (line_length : Z)
         (cjk_width : float) (no_msgid : bool) : result Source :=
  match entries with
  | [] => Ok self
  | entry :: rest =>
      new <- format entry line_length cjk_width no_msgid ;;
      fix_loop rest
        (set_lines self
           (slice_assign (lines self) (start (span entry)) (end_ (span entry)) new))
        line_length cjk_width no_msgid
  end.

(** [Source.fix] ([fix] is a keyword here): the source after the call
    and the returned flag.  The
    argument [show] only selects what is printed. *)
Definition fix_ (self : Source) (line_length : Z) (cjk_width : float) (no_msgid : bool)
  : result (Source * bool) :=
  self <- parse self ;;
  self <- fix_loop (rev (_entries self)) self line_length cjk_width no_msgid ;;
  Ok (self, diff self).

End WithUnicode.

(** * Statements of the specification

    Definitions that follow the words of the specification, to be
    compared with the definitions above. *)

(** Quote escaping: the character at index [i] of [text] is an unescaped
    quote when it is a quote and the character before it, if there is
    one, is not a backslash. *)
Definition char_at (text : str) (i : nat) : option codepoint := nth_error text i.

Definition preceded_by_backslash (text : str) (i : nat) : bool :=
  match i with
  | O => false
  | S j => match char_at text j with
           | Some y => N.eqb y backslash
           | None => false
           end
  end.

Definition unescaped_quote_at (text : str) (i : nat) : bool :=
  match char_at text i with
  | Some x => N.eqb x quote && negb (preceded_by_backslash text i)
  | None => false
  end.

(** What the character at index [i] becomes: an unescaped quote becomes
    a backslash and a quote, anything else stays. *)
Definition escaped_char (text : str) (i : nat) : str :=
  match char_at text i with
  | Some x => if unescaped_quote_at text i then [backslash; quote] else [x]
  | None => []
  end.

Definition escape_quotes_spec (text : str) : str :=
  concat (map (escaped_char text) (seq 0 (length text))).

(** The same, as one pass that remembers whether the last character was
    a backslash. *)
Fixpoint escape_from (prev_backslash : bool) (s : str) : str :=
  match s with
  | [] => []
  | x :: s' =>
      (if N.eqb x quote && negb prev_backslash then [backslash; quote] else [x])
        ++ escape_from (N.eqb x backslash) s'
  end.

(** Width monotonicity as the specification words it: a string of [N]
    full-width characters has display width [N * factor], that is
    [len(text) == N * factor] holds. *)
Definition full_width_law (U : unicode_db) (factor : float) (text : str) : Prop :=
  Forall (fun c => is_full_width U c = true) text ->
  exists w : Z,
    new_len U factor text = Ok w
    /\ float_eqb (float_of_int w)
                 (float_mul (float_of_int (Z.of_nat (length text))) factor) = true.

(** What [sum] returns for [n] items that are all the float [factor]:
    the int [0] for no item, and otherwise the float reached from
    [float(0)] by adding [factor] [n] times, each addition rounded. *)
Definition repeated_sum (factor : float) (n : nat) : number :=
  match n with
  | O => PyInt 0
  | S _ => PyFloat (Nat.iter n (fun acc => float_add acc factor) (float_of_int 0))
  end.

(** No ASCII character is wide, full-width or ambiguous: a fact of the
    Unicode tables, asked of the parameter where a statement needs it. *)
Definition ascii_narrow (U : unicode_db) : Prop :=
  forall c : codepoint, (c < 128)%N -> is_full_width U c = false.

Definition is_ascii (text : str) : Prop := Forall (fun c : codepoint => (c < 128)%N) text.

(** The Chinese character U+4E2D, used in the examples. *)
Definition zhong : codepoint := 20013%N.

(** The single-line rule as the specification words it: the field is
    emitted as the one line [title "text"] exactly when the title, the
    text, one space and two quotes fit in [width]. *)
Definition single_line_law (U : unicode_db) (pangu : option (str -> str))
           (len : str -> result Z) (self : Entry) (title : str) (lines : list str)
           (width : Z) : Prop :=
  forall title_len text_len : Z,
    len title = Ok title_len -> len (process_text pangu lines) = Ok text_len ->
    (_format_text U pangu len self title lines width true
       = Ok [titled title (process_text pangu lines)]
     <-> title_len + text_len + 3 <= width).

(** [sep.join(parts)] *)
Fixpoint join_with (sep : str) (parts : list str) : str :=
  match parts with
  | [] => []
  | [p] => p
  | p :: rest => p ++ sep ++ join_with sep rest
  end.

(** Entries of the examples; the spans are not looked at by [format]. *)
Definition no_span : Span := {| start := 0; end_ := 0 |}.

Definition header_hello : Entry :=
  {| span := no_span; msgid := [[]]; msgstr := [lit "hello"] |}.

Definition empty_header : Entry :=
  {| span := no_span; msgid := [[]]; msgstr := [[]] |}.

Definition long_cjk_entry : Entry :=
  {| span := no_span; msgid := [lit "a"]; msgstr := [repeat zhong 20] |}.

(** Two half-open line ranges overlap when they share a line index. *)
Definition spans_overlap (a b : Span) : Prop :=
  exists n : Z, (start a <= n < end_ a) /\ (start b <= n < end_ b).

(** The invariant of the specification on the spans of a list of
    entries: an earlier entry starts strictly before a later one and
    shares no line with it. *)
Definition spans_ordered (es : list Entry) : Prop :=
  forall (i j : nat) (a b : Entry),
    (i < j)%nat -> nth_error es i = Some a -> nth_error es j = Some b ->
    start (span a) < start (span b) /\ ~ spans_overlap (span a) (span b).

(** The same as a chain: every span starts at [lo] or later, does not
    end before it starts, and the next one starts after its end. *)
Fixpoint ordered_from (lo : Z) (es : list Entry) : Prop :=
  match es with
  | [] => True
  | e :: es' =>
      lo <= start (span e) /\ start (span e) <= end_ (span e)
      /\ ordered_from (end_ (span e) + 1) es'
  end.

(** The message of the error for an entry without msgstr, naming the
    line [n]. *)
Definition missing_msgstr_message (n : Z) : str :=
  lit "line " ++ str_of_int n ++ lit ": " ++ lit "Missing msgstr".

(** Example D as the specification words it: parsing the file raises the
    error that names the line on which the entry starts. *)
Definition names_entry_start (U : unicode_db) (ls : list str) (entry_start : Z) : Prop :=
  parse U (Source_init [] ls) = Raise (ParseError (missing_msgstr_message entry_start)).

(** A line inside an entry that adds nothing to msgstr: a comment, or a
    bare quoted continuation. *)
Definition continuation_or_comment (U : unicode_db) (line : str) : Prop :=
  blank U line = false
  /\ (startswith line (lit "#") = true
      \/ (startswith line (lit "msgid") = false
          /\ startswith line (lit "msgstr") = false
          /\ re_match MESSAGE_RE line <> None)).

(** How the lines after an entry end it, and where the cursor then is,
    counted from the first of these lines: at the end of the input, on a
    blank line, or one line back from the msgid line of a next entry. *)
Inductive entry_end (U : unicode_db) : list str -> Z -> Prop :=
| end_of_input : entry_end U [] 0
| end_blank l r : blank U l = true -> entry_end U (l :: r) 0
| end_next_msgid l r :
    blank U l = false -> startswith l (lit "#") = false ->
    startswith l (lit "msgid") = true -> entry_end U (l :: r) (-1).

(** Files of the examples. *)
Definition msgid_line (text : str) : str := lit "msgid " ++ quoted text.
Definition msgstr_line (text : str) : str := lit "msgstr " ++ quoted text.

Definition file_missing_msgstr : list str := [msgid_line (lit "a"); []].

Definition file_two_entries : list str :=
  [msgid_line (lit "a"); msgstr_line (lit "b"); [];
   msgid_line (lit "c"); msgstr_line (lit "d")].

(** A line that [parse] passes over between entries: blank or a
    comment, and not the fuzzy marker. *)
Definition skippable (U : unicode_db) (line : str) : Prop :=
  fuzzy_marker U line = false
  /\ (blank U line = true \/ startswith line (lit "#") = true).

(** [loop_reaches U self0 self n]: the first [n] passes of the loop of
    [parse] on [self0] neither raise nor end the loop, and the loop goes
    on from there as it does on [self]. *)
Definition loop_reaches (U : unicode_db) (self0 self : Source) (n : nat) : Prop :=
  forall fuel, parse_loop U (n + fuel) self0 = parse_loop U fuel self.

(** An entry without msgstr after a complete entry and a comment, and
    one that is ended by the msgid line of the next entry. *)
Definition file_second_missing : list str :=
  [msgid_line (lit "a"); msgstr_line (lit "b"); []; lit "# c"; msgid_line (lit "c"); []].

Definition file_missing_then_entry : list str :=
  [msgid_line (lit "a"); msgid_line (lit "c"); msgstr_line (lit "d")].

(** One run of the tool on a file: [Source(name, lines).fix(...)], and
    from the result the lines to be written and the returned flag. *)
Definition fix_lines (U : unicode_db) (pangu : option (str -> str)) (ls : list str)
           (line_length : Z) (cjk_width : float) (no_msgid : bool)
  : result (list str * bool) :=
  r <- fix_ U pangu (Source_init [] ls) line_length cjk_width no_msgid ;;
  Ok (lines (fst r), snd r).

(** Two entries with no blank line between them. *)
Definition file_adjacent_entries : list str :=
  [msgid_line (lit "a"); msgstr_line (lit "b");
   msgid_line (lit "c"); msgstr_line (lit "d")].

(** A header whose msgid is spread over two empty fragments. *)
Definition file_split_header : list str :=
  [msgid_line []; quoted [];
   msgstr_line (lit "aaaa bbbb\ncccc dddd eeee ffff")].

(** A fuzzy entry that follows another entry with no blank line; its
    msgstr line has two spaces after the closing quote. *)
Definition file_fuzzy_run_on : list str :=
  [msgid_line (lit "a"); msgstr_line (lit "b");
   lit "#, fuzzy";
   msgid_line (lit "c"); msgstr_line (lit "d") ++ lit "  "].

(** The same fuzzy entry after a blank line. *)
Definition file_fuzzy_apart : list str :=
  [msgid_line (lit "a"); msgstr_line (lit "b") ++ lit " "; [];
   lit "#, fuzzy";
   msgid_line (lit "c"); msgstr_line (lit "d") ++ lit "  "].

(** A result of the Python code proper: a value, or one of the
    exceptions the parser raises by itself. *)
Definition returns {A} (r : result A) : Prop :=
  match r with
  | Raise Diverged | Raise IndexError => False
  | _ => True
  end.

(** * Notions used by the proofs *)

(** [reach d c c']: [c'] is the position of the same subject that lies
    the text [d] after [c]. *)
Definition reach (d : str) (c c' : cursor) : Prop :=
  before c' = rev d ++ before c /\ after c = d ++ after c'.

(** The continuation that [search] gives to the pattern. *)
Definition accept (must_advance : bool) (s : cursor) : cursor -> option cursor :=
  fun c' => if must_advance && Nat.eqb (pos c') (pos s) then None else Some c'.

(** Whether the character before a position is a backslash. *)
Definition prev_backslash (bef : str) : bool :=
  match bef with
  | x :: _ => N.eqb x backslash
  | [] => false
  end.

(** The size that every pass of the outer loop decreases. *)
Definition chunks_size (chunks : list str) : nat :=
  (length chunks + length (concat chunks))%nat.

(** What a successful run of the loop of [_parse_entry] leaves: the
    source with only its cursor moved, not backwards, and an entry
    whose span ends at the cursor. *)
Definition entry_post (self : Source) (ids strs : list str) (start_line : Z)
           (self' : Source) (e : Entry) : Prop :=
  lines self' = lines self /\ _entries self' = _entries self
  /\ _original self' = _original self /\ filename self' = filename self
  /\ end_ (span e) = lineno self' /\ lineno self <= lineno self'
  /\ (ids <> [] -> start (span e) = start_line)
  /\ (start_line <= lineno self -> start (span e) <= lineno self')
  /\ msgstr e <> []
  /\ (strs = [] -> lineno self + 1 <= lineno self').

(** A text without any wide, full-width or ambiguous character. *)
Definition narrow (U : unicode_db) (s : str) : Prop :=
  Forall (fun c => is_full_width U c = false) s.

(** An entry as the data model wants it: its span lies in a file of [n]
    lines and is not empty, and it has fragments of both kinds. *)
Definition entry_wf (n : Z) (e : Entry) : Prop :=
  (0 <= start (span e) /\ start (span e) < end_ (span e) /\ end_ (span e) <= n)
  /\ msgid e <> [] /\ msgstr e <> [].

(** A line that the loop of [parse] takes for garbage. *)
Definition unexpected (U : unicode_db) (line : str) : Prop :=
  blank U line = false /\ startswith line (lit "#") = false
  /\ startswith line (lit "msgid") = false.

(** The message of a parse error on line [n]. *)
Definition error_message (n : Z) (message : str) : str :=
  lit "line " ++ str_of_int n ++ lit ": " ++ message.

(** The splice of [fix] for one span and the lines that replace it. *)
Definition splice (l : list str) (part : Span * list str) : list str :=
  slice_assign l (start (fst part)) (end_ (fst part)) (snd part).

(** The file rebuilt in one pass over the original lines, from line
    [from] on: the lines before each span are copied, the lines of the
    span are replaced, and the lines after the last span are copied. *)
Fixpoint rebuild (ls : list str) (from : nat) (parts : list (Span * list str))
  : list str :=
  match parts with
  | [] => skipn from ls
  | (sp, new) :: rest =>
      firstn (Z.to_nat (start sp) - from) (skipn from ls) ++ new
        ++ rebuild ls (Z.to_nat (end_ sp)) rest
  end.

(** Spans that follow one another from line [k] on in a file of [n]
    lines. *)
Fixpoint spans_chain (k n : nat) (parts : list (Span * list str)) : Prop :=
  match parts with
  | [] => (k <= n)%nat
  | (sp, _) :: rest =>
      Z.of_nat k <= start sp /\ start sp <= end_ sp
      /\ spans_chain (Z.to_nat (end_ sp)) n rest
  end.

(** An entry with its formatted lines, as a span with its new lines. *)
Definition as_part (p : Entry * list str) : Span * list str := (span (fst p), snd p).

(** A field that [_format_text] puts on one line and that is read back
    as it is: the text has no newline, processing leaves it as it is,
    and it fits. *)
Definition field_settled (U : unicode_db) (pangu : option (str -> str)) (factor : float)
           (width : Z) (title text : str) : Prop :=
  Forall (fun c => c <> 10%N) text
  /\ process_text pangu [text] = text
  /\ exists title_len text_len : Z,
       new_len U factor title = Ok title_len
       /\ new_len U factor text = Ok text_len
       /\ title_len + text_len + 3 <= width.

(** A line followed by spaces. *)
Definition padded (line : str) (n : nat) : str := line ++ repeat 32%N n.

(** A file in the form the tool aims at, for entries of one line per
    field: blank lines and comments, and entries of a msgid line and a
    msgstr line, each followed by a blank line or by the end of the
    file.  The two fields of an entry are settled, unless a fuzzy
    marker stands right before the entry: then the lines may be of any
    width and may end in spaces. *)
Inductive settled_file (U : unicode_db) (pangu : option (str -> str)) (factor : float)
          (width : Z) : list str -> Prop :=
| settled_end : settled_file U pangu factor width []
| settled_skip x rest :
    skippable U x -> settled_file U pangu factor width rest ->
    settled_file U pangu factor width (x :: rest)
| settled_last a b :
    field_settled U pangu factor width (lit "msgid") a ->
    field_settled U pangu factor width (lit "msgstr") b ->
    settled_file U pangu factor width [msgid_line a; msgstr_line b]
| settled_entry a b x rest :
    field_settled U pangu factor width (lit "msgid") a ->
    field_settled U pangu factor width (lit "msgstr") b ->
    blank U x = true -> settled_file U pangu factor width rest ->
    settled_file U pangu factor width (msgid_line a :: msgstr_line b :: x :: rest)
| settled_fuzzy_last marker a b n1 n2 :
    fuzzy_marker U marker = true ->
    Forall (fun c => c <> 10%N) a -> Forall (fun c => c <> 10%N) b ->
    settled_file U pangu factor width
      [marker; padded (msgid_line a) n1; padded (msgstr_line b) n2]
| settled_fuzzy marker a b n1 n2 x rest :
    fuzzy_marker U marker = true ->
    Forall (fun c => c <> 10%N) a -> Forall (fun c => c <> 10%N) b ->
    blank U x = true -> settled_file U pangu factor width rest ->
    settled_file U pangu factor width
      (marker :: padded (msgid_line a) n1 :: padded (msgstr_line b) n2 :: x :: rest).

(** An entry whose formatted lines are the lines its span has in [ls]. *)
Definition entry_stable (U : unicode_db) (pangu : option (str -> str)) (width : Z)
           (factor : float) (no_msgid : bool) (ls : list str) (e : Entry) : Prop :=
  exists new, format U pangu e width factor no_msgid = Ok new
              /\ splice ls (span e, new) = ls.

(** ** Writing and reading back

    [Source.write] hands to [write_text] the lines joined by newlines
    with a newline at the end; a [Source] made without lines takes
    [read_text(...).splitlines()].  Both calls open the file in text
    mode with [newline=None] and [encoding="utf-8"], the error handler
    being [strict]: on the way out newlines are translated and the text
    is encoded, on the way in the bytes are decoded and newlines are
    translated.  A byte is a number below 256, and the file is taken to
    hold the bytes that were written. *)

(** A surrogate code point: UTF-8 has no encoding for it. *)
Definition is_surrogate (c : codepoint) : bool := (55296 <=? c)%N && (c <=? 57343)%N.

(** The UTF-8 encoder on one character: [ch < 0x80], [ch < 0x800],
    a surrogate, [ch < 0x10000], and the rest (a [str] holds code
    points up to [0x10FFFF]). *)
Definition utf8_encode_char (c : codepoint) : result (list N) :=
  (if c <? 128 then Ok [c]
   else if c <? 2048 then Ok [192 + c / 64; 128 + c mod 64]
   else if is_surrogate c then Raise UnicodeEncodeError
   else if c <? 65536 then Ok [224 + c / 4096; 128 + (c / 64) mod 64; 128 + c mod 64]
   else Ok [240 + c / 262144; 128 + (c / 4096) mod 64; 128 + (c / 64) mod 64;
            128 + c mod 64])%N.

(** [s.encode("utf-8")] *)
Fixpoint utf8_encode (s : str) : result (list N) :=
  match s with
  | [] => Ok []
  | c :: s' =>
      b <- utf8_encode_char c ;;
      bs <- utf8_encode s' ;;
      Ok (b ++ bs)
  end.

Definition is_continuation (b : N) : bool := (128 <=? b)%N && (b <? 192)%N.

(** [bs.decode("utf-8")]: a sequence is refused when it is cut short,
    when a byte that should continue it does not, when it is longer
    than its code point needs, when it gives a surrogate and when it
    gives a code point above [0x10FFFF]. *)
Fixpoint utf8_decode (bs : list N) : result str :=
  match bs with
  | [] => Ok []
  | b0 :: r0 =>
      if (b0 <? 128)%N then s <- utf8_decode r0 ;; Ok (b0 :: s)
      else if (b0 <? 194)%N then Raise UnicodeDecodeError
      else if (b0 <? 224)%N then
        match r0 with
        | b1 :: r1 =>
            if is_continuation b1
            then s <- utf8_decode r1 ;; Ok (((b0 - 192) * 64 + (b1 - 128))%N :: s)
            else Raise UnicodeDecodeError
        | _ => Raise UnicodeDecodeError
        end
      else if (b0 <? 240)%N then
        match r0 with
        | b1 :: b2 :: r2 =>
            let c := ((b0 - 224) * 4096 + (b1 - 128) * 64 + (b2 - 128))%N in
            if is_continuation b1 && is_continuation b2
               && (2048 <=? c)%N && negb (is_surrogate c)
            then s <- utf8_decode r2 ;; Ok (c :: s)
            else Raise UnicodeDecodeError
        | _ => Raise UnicodeDecodeError
        end
      else if (b0 <? 245)%N then
        match r0 with
        | b1 :: b2 :: b3 :: r3 =>
            let c := ((b0 - 240) * 262144 + (b1 - 128) * 4096 + (b2 - 128) * 64
                      + (b3 - 128))%N in
            if is_continuation b1 && is_continuation b2 && is_continuation b3
               && (65536 <=? c)%N && (c <=? 1114111)%N
            then s <- utf8_decode r3 ;; Ok (c :: s)
            else Raise UnicodeDecodeError
        | _ => Raise UnicodeDecodeError
        end
      else Raise UnicodeDecodeError
  end.

(** The line boundaries of [str.splitlines]. *)
Definition is_linebreak (c : codepoint) : bool :=
  existsb (N.eqb c) [10; 11; 12; 13; 28; 29; 30; 133; 8232; 8233]%N.

(** What follows a carriage return that has been read: a newline right
    after it belongs to the same boundary. *)
Definition after_cr (s : str) : str :=
  match s with
  | y :: s' => if N.eqb y 10 then s' else s
  | [] => s
  end.

(** [s.splitlines()] *)
Fixpoint splitlines_acc (cur_rev : str) (s : str) : list str :=
  match s with
  | [] => if nonempty cur_rev then [rev cur_rev] else []
  | x :: s' =>
      if N.eqb x 13 then
        rev cur_rev :: splitlines_acc [] (after_cr s')
      else if is_linebreak x then rev cur_rev :: splitlines_acc [] s'
      else splitlines_acc (x :: cur_rev) s'
  end.

Definition splitlines (s : str) : list str := splitlines_acc [] s.

(** Text mode on the way out: every newline becomes [os.linesep]. *)
Definition translate_on_write (linesep : str) (s : str) : str :=
  flat_map (fun c => if N.eqb c 10 then linesep else [c]) s.

(** Text mode on the way in (universal newlines): a carriage return,
    with the newline that follows it if any, becomes a newline. *)
Fixpoint translate_on_read (s : str) : str :=
  match s with
  | [] => []
  | x :: s' =>
      if N.eqb x 13 then
        10%N :: translate_on_read (after_cr s')
      else x :: translate_on_read s'
  end.

(** [Source.write]: the bytes that the file holds afterwards. *)
Definition write (self : Source) (linesep : str) : result (list N) :=
  utf8_encode (translate_on_write linesep (join_with [10%N] (lines self) ++ [10%N])).

(** [Source(filename)] for a file that holds [bytes]. *)
Definition Source_read (name : str) (bytes : list N) : result Source :=
  text <- utf8_decode bytes ;;
  Ok (Source_init name (splitlines (translate_on_read text))).

(** A code point that a [str] can hold and UTF-8 can encode, and a text
    of such code points. *)
Definition is_scalar : class := fun c => (c <=? 1114111)%N && negb (is_surrogate c).

Definition encodable (text : str) : Prop := Forall (fun c => is_scalar c = true) text.

(** A line as [splitlines] gives it: without any line boundary. *)
Definition one_line (line : str) : Prop :=
  Forall (fun c => is_linebreak c = false) line.

(** The whitespace characters that the wrapper turns into spaces, the
    space apart; a plain text has none of them. *)
Definition control_space : class := one_of [9; 10; 11; 12; 13]%N.

Definition plain (text : str) : Prop := Forall (fun c => control_space c = false) text.

(** The text of the msgid that [format] renders. *)
Definition msgid_text (pangu : option (str -> str)) (no_msgid : bool) (e : Entry) : str :=
  if no_msgid then join (msgid e) else process_text pangu (msgid e).

(** A pattern without the capturing group. *)
Fixpoint groupless (r : regex) : bool :=
  match r with
  | Group _ => false
  | Seq r1 r2 | Alt r1 r2 => groupless r1 && groupless r2
  | Ahead r1 => groupless r1
  | _ => true
  end.

(** A text all of whose characters are of the class [good], and an
    entry whose fragments are such texts. *)
Definition made_of (good : class) (text : str) : Prop :=
  Forall (fun c => good c = true) text.

Definition entry_made_of (good : class) (e : Entry) : Prop :=
  Forall (made_of good) (msgid e) /\ Forall (made_of good) (msgstr e).

(** What is asked of [pangu.spacing_text], when the module is there:
    that it brings in no character outside the class. *)
Definition keeps (good : class) (pangu : option (str -> str)) : Prop :=
  match pangu with
  | Some spacing_text => forall s, made_of good s -> made_of good (spacing_text s)
  | None => True
  end.

Definition not_linebreak : class := fun c => negb (is_linebreak c).

(** What is asked of [pangu.spacing_text], when the module is there:
    that it adds no line boundary. *)
Definition keeps_one_line (pangu : option (str -> str)) : Prop :=
  match pangu with
  | Some spacing_text => forall s, one_line s -> one_line (spacing_text s)
  | None => True
  end.

(** * Properties *)

(** ** The matcher *)

Lemma reach_refl c : reach [] c c.
Proof. split; reflexivity. Qed.

Lemma reach_trans d1 d2 c1 c2 c3 :
  reach d1 c1 c2 -> reach d2 c2 c3 -> reach (d1 ++ d2) c1 c3.
Proof.
  intros [B1 A1] [B2 A2]. split.
  - rewrite B2, B1, rev_app_distr, app_assoc. reflexivity.
  - rewrite A1, A2, app_assoc. reflexivity.
Qed.

Lemma reach_pos d c c' : reach d c c' -> pos c' = (length d + pos c)%nat.
Proof.
  intros [B _]. unfold pos. rewrite B, length_app, length_rev. reflexivity.
Qed.

Lemma text_between_reach d c c' : reach d c c' -> text_between c c' = d.
Proof.
  intros H. unfold text_between. rewrite (reach_pos H).
  destruct H as [B _]. rewrite B.
  replace (length d + pos c - pos c)%nat with (length (rev d)) by (rewrite length_rev; lia).
  rewrite firstn_app, Nat.sub_diag, firstn_all. simpl.
  rewrite app_nil_r. apply rev_involutive.
Qed.

Lemma reach_after_length d c c' :
  reach d c c' -> length (after c) = (length d + length (after c'))%nat.
Proof. intros [_ A]. rewrite A, length_app. reflexivity. Qed.

Section MatcherFacts.
Variable R : Type.

Lemma star_greedy_inv p aft : forall bef g (k : cursor -> option R) res,
  star_greedy p bef aft g k = Some res ->
  exists d c', before c' = rev d ++ bef /\ aft = d ++ after c' /\ k c' = Some res.
Proof.
  induction aft as [|x rest IH]; intros bef g k res H; simpl in H.
  - exists [], {| before := bef; after := []; group1 := g |}. auto.
  - destruct (p x).
    + destruct (star_greedy p (x :: bef) rest g k) eqn:E.
      * inversion H; subst. apply IH in E. destruct E as (d & c' & B & A & K).
        exists (x :: d), c'. simpl. rewrite B, A, <- app_assoc. auto.
      * exists [], {| before := bef; after := x :: rest; group1 := g |}. auto.
    + exists [], {| before := bef; after := x :: rest; group1 := g |}. auto.
Qed.

Lemma star_lazy_inv p aft : forall bef g (k : cursor -> option R) res,
  star_lazy p bef aft g k = Some res ->
  exists d c', before c' = rev d ++ bef /\ aft = d ++ after c' /\ k c' = Some res.
Proof.
  induction aft as [|x rest IH]; intros bef g k res H; simpl in H.
  - destruct (k {| before := bef; after := []; group1 := g |}) eqn:E; [|discriminate].
    inversion H; subst.
    exists [], {| before := bef; after := []; group1 := g |}. auto.
  - destruct (k {| before := bef; after := x :: rest; group1 := g |}) eqn:E.
    + inversion H; subst.
      exists [], {| before := bef; after := x :: rest; group1 := g |}. auto.
    + destruct (p x); [|discriminate].
      apply IH in H. destruct H as (d & c' & B & A & K).
      exists (x :: d), c'. simpl. rewrite B, A, <- app_assoc. auto.
Qed.

(** A successful match hands a later position of the same subject to
    its continuation. *)
Lemma rmatch_inv r : forall c (k : cursor -> option R) res,
  rmatch r c k = Some res ->
  exists d c', reach d c c' /\ k c' = Some res.
Proof.
  induction r; intros c k res H; simpl in H.
  - exists [], c. split; [apply reach_refl | assumption].
  - destruct (after c) as [|x rest] eqn:A; [discriminate|].
    destruct (p x); [|discriminate].
    exists [x], (advance x rest c). split; [|assumption].
    split; simpl; auto.
  - apply IHr1 in H. destruct H as (d1 & c1 & R1 & H).
    apply IHr2 in H. destruct H as (d2 & c2 & R2 & H).
    exists (d1 ++ d2), c2. split; [eapply reach_trans; eauto | assumption].
  - destruct (rmatch r1 c k) eqn:E.
    + inversion H; subst. eauto.
    + eauto.
  - apply star_greedy_inv in H. destruct H as (d & c' & B & A & K).
    exists d, c'. split; [split|]; assumption.
  - apply star_lazy_inv in H. destruct H as (d & c' & B & A & K).
    exists d, c'. split; [split|]; assumption.
  - apply IHr in H. destruct H as (d & c' & Rc & K).
    exists d, {| before := before c'; after := after c';
                 group1 := Some (text_between c c') |}.
    split; [|assumption]. destruct Rc as [B A]. split; simpl; assumption.
  - destruct (rmatch r c (fun _ => k c)) eqn:E; [|discriminate].
    inversion H; subst. apply IHr in E. destruct E as (_ & _ & _ & K).
    exists [], c. split; [apply reach_refl | assumption].
  - destruct (ends_with_classes (rev ps) (before c)); [|discriminate].
    exists [], c. split; [apply reach_refl | assumption].
  - destruct (ends_with_classes (rev ps) (before c)); [discriminate|].
    exists [], c. split; [apply reach_refl | assumption].
  - destruct (after c); [|discriminate].
    exists [], c. split; [apply reach_refl | assumption].
  - exists [], c. split; [apply reach_refl|].
    destruct (after c) as [|x [|y l]]; try discriminate; auto.
    destruct (N.eqb x 10); [assumption | discriminate].
Qed.
End MatcherFacts.

Lemma rmatch_group_inv (R : Type) r c (k : cursor -> option R) res :
  rmatch (Group r) c k = Some res ->
  exists d c', reach d c c' /\
    k {| before := before c'; after := after c'; group1 := Some d |} = Some res.
Proof.
  simpl. intros H. apply rmatch_inv in H. destruct H as (d & c' & Rc & K).
  rewrite (text_between_reach Rc) in K. eauto.
Qed.

Lemma search_inv r aft : forall must_advance bef s e,
  search r must_advance bef aft = Some (s, e) ->
  exists d1, before s = rev d1 ++ bef /\ aft = d1 ++ after s /\ group1 s = None /\
    rmatch r s (accept (must_advance && negb (nonempty d1)) s) = Some e.
Proof.
  induction aft as [|x rest IH]; intros ma bef s e H; simpl in H.
  - destruct (rmatch r _ _) eqn:E; [|discriminate].
    inversion H; subst. exists []. simpl. rewrite andb_true_r. auto.
  - destruct (rmatch r _ _) eqn:E.
    + inversion H; subst. exists []. simpl. rewrite andb_true_r. auto.
    + apply IH in H. destruct H as (d1 & B & A & G & M).
      exists (x :: d1). simpl. rewrite B, A, <- app_assoc.
      rewrite andb_false_r. simpl in M. auto.
Qed.

Lemma accept_inv flag s c' e :
  accept flag s c' = Some e -> e = c' /\ (flag = true -> pos c' <> pos s).
Proof.
  unfold accept. destruct flag; simpl.
  - destruct (Nat.eqb (pos c') (pos s)) eqn:E; [discriminate|].
    intros [= <-]. split; [reflexivity|]. intros _. apply Nat.eqb_neq. assumption.
  - intros [= <-]. split; [reflexivity | discriminate].
Qed.

(** What [search] returns: the text [d1] it skipped and the text [d2]
    of the match, which is not empty where the match had to advance. *)
Lemma search_reach r must_advance c s e :
  search r must_advance (before c) (after c) = Some (s, e) ->
  exists d1 d2, reach d1 c s /\ reach d2 s e /\
    (must_advance = true -> d1 = [] -> d2 <> []).
Proof.
  intros H. apply search_inv in H. destruct H as (d1 & B & A & _ & M).
  apply rmatch_inv in M. destruct M as (d2 & c' & Rc & K).
  apply accept_inv in K. destruct K as [-> K].
  exists d1, d2. split; [split; assumption|]. split; [assumption|].
  intros -> -> ->. simpl in K. specialize (K eq_refl).
  rewrite (reach_pos Rc) in K. simpl in K. congruence.
Qed.

Lemma search_group_reach r must_advance c s e :
  search (Group r) must_advance (before c) (after c) = Some (s, e) ->
  exists d1 d2, reach d1 c s /\ reach d2 s e /\ group1 e = Some d2 /\
    (must_advance = true -> d1 = [] -> d2 <> []).
Proof.
  intros H. apply search_inv in H. destruct H as (d1 & B & A & _ & M).
  apply rmatch_group_inv in M. destruct M as (d2 & c' & Rc & K).
  apply accept_inv in K. destruct K as [-> K]. unfold pos in K; simpl in K.
  exists d1, d2. split; [split; assumption|].
  split; [destruct Rc; split; assumption|]. split; [reflexivity|].
  intros -> -> ->. simpl in K. specialize (K eq_refl).
  fold (pos c') in K. rewrite (reach_pos Rc) in K. simpl in K. unfold pos in K. congruence.
Qed.

(** [re.split] with the whole pattern in group 1 loses no text, and the
    bound of the loop is never reached. *)
Lemma split_loop_concat r : forall fuel (must_advance : bool) (c : cursor),
  (2 * length (after c) + (if must_advance then 1 else 2) <= fuel)%nat ->
  concat (split_loop fuel (Group r) must_advance c) = after c.
Proof.
  induction fuel as [|fuel IH]; intros ma c Hf.
  - destruct ma; lia.
  - cbn [split_loop]. destruct (search (Group r) ma (before c) (after c)) as [[s e]|] eqn:E.
    + apply search_group_reach in E. destruct E as (d1 & d2 & R1 & R2 & G & Adv).
      rewrite (text_between_reach R1), G. cbn [concat].
      rewrite IH.
      * destruct R1 as [_ A1], R2 as [_ A2]. rewrite A1, A2. reflexivity.
      * pose proof (reach_after_length R1) as L1. pose proof (reach_after_length R2) as L2.
        rewrite (reach_pos R2).
        destruct d2 as [|y d2].
        -- cbn [length Nat.add] in *. rewrite Nat.eqb_refl.
           destruct d1 as [|z d1]; cbn [length] in *.
           ++ destruct ma; [exfalso; apply Adv; reflexivity | lia].
           ++ destruct ma; lia.
        -- cbn [length] in *.
           replace (Nat.eqb (S (length d2) + pos s) (pos s)) with false
             by (symmetry; apply Nat.eqb_neq; lia).
           destruct ma; lia.
    + simpl. apply app_nil_r.
Qed.

Lemma re_split_concat r s : concat (re_split (Group r) s) = s.
Proof.
  unfold re_split. rewrite split_loop_concat; [reflexivity|]. simpl. lia.
Qed.

(** ** Quote escaping *)

Lemma sub_loop_escape aft : forall fuel bef g must_advance,
  (length aft < fuel)%nat ->
  sub_loop fuel unescaped_quote_re [backslash; quote] must_advance
    {| before := bef; after := aft; group1 := g |}
  = escape_from (prev_backslash bef) aft.
Proof.
  induction aft as [|x rest IH]; intros fuel bef g ma Hf.
  - destruct fuel; [reflexivity|]. cbn. destruct bef as [|y bef]; [reflexivity|].
    cbn. match goal with |- context [if ?b then _ else _] => destruct b end; reflexivity.
  - destruct fuel as [|fuel]; [simpl in Hf; lia|].
    cbn [sub_loop before after].
    cbn [search]. cbn [rmatch unescaped_quote_re before after].
    match goal with
    | |- context [ends_with_classes ?a bef] =>
        assert (Hb : ends_with_classes a bef = prev_backslash bef)
    end.
    { destruct bef as [|y bef]; [reflexivity|].
      change (N.eqb backslash y && true = N.eqb y backslash).
      rewrite andb_true_r. apply N.eqb_sym. }
    rewrite Hb. cbn [escape_from].
    destruct (prev_backslash bef) eqn:P; cbn [negb andb].
    + rewrite andb_false_r.
      change (match search unescaped_quote_re false (x :: bef) rest with
              | Some (s, e) =>
                  text_between {| before := bef; after := x :: rest; group1 := g |} s
                    ++ [backslash; quote]
                    ++ sub_loop fuel unescaped_quote_re [backslash; quote]
                         (Nat.eqb (pos e) (pos s)) e
              | None => x :: rest
              end = [x] ++ escape_from (N.eqb x backslash) rest).
      assert (I : sub_loop (S fuel) unescaped_quote_re [backslash; quote] false
                    {| before := x :: bef; after := rest; group1 := g |}
                  = escape_from (N.eqb x backslash) rest)
        by (apply (IH (S fuel) (x :: bef) g false); simpl in Hf; lia).
      rewrite <- I.
      cbn [sub_loop before after].
      destruct (search unescaped_quote_re false (x :: bef) rest) as [[s e]|] eqn:E;
        [|reflexivity].
      pose proof E as E'.
      apply (@search_reach _ _ {| before := x :: bef; after := rest; group1 := g |}) in E'.
      destruct E' as (d1 & d2 & R1 & _ & _).
      rewrite (text_between_reach R1).
      assert (R1' : reach (x :: d1) {| before := bef; after := x :: rest; group1 := g |} s).
      { destruct R1 as [B A]. simpl in B, A. split; simpl.
        - rewrite B, <- app_assoc. reflexivity.
        - rewrite A. reflexivity. }
      rewrite (text_between_reach R1'). reflexivity.
    + rewrite andb_true_r. rewrite (N.eqb_sym quote x).
      destruct (N.eqb x quote) eqn:Q.
      * cbn [accept advance before after group1 pos length].
        replace (Nat.eqb (S (length bef)) (length bef)) with false
          by (symmetry; apply Nat.eqb_neq; lia).
        rewrite andb_false_r.
        unfold text_between, pos. cbn [before length]. rewrite Nat.sub_diag. cbn [firstn rev app].
        match goal with
        | |- context [sub_loop fuel ?r ?p ?m ?c] =>
            assert (I : sub_loop fuel r p m c = escape_from (N.eqb x backslash) rest)
              by (apply (IH fuel (x :: bef) None m); simpl in Hf; lia)
        end.
        rewrite I. reflexivity.
      * change (match search unescaped_quote_re false (x :: bef) rest with
                | Some (s, e) =>
                    text_between {| before := bef; after := x :: rest; group1 := g |} s
                      ++ [backslash; quote]
                      ++ sub_loop fuel unescaped_quote_re [backslash; quote]
                           (Nat.eqb (pos e) (pos s)) e
                | None => x :: rest
                end = [x] ++ escape_from (N.eqb x backslash) rest).
        assert (I : sub_loop (S fuel) unescaped_quote_re [backslash; quote] false
                    {| before := x :: bef; after := rest; group1 := g |}
                  = escape_from (N.eqb x backslash) rest)
        by (apply (IH (S fuel) (x :: bef) g false); simpl in Hf; lia).
      rewrite <- I.
        cbn [sub_loop before after].
        destruct (search unescaped_quote_re false (x :: bef) rest) as [[s e]|] eqn:E;
          [|reflexivity].
        pose proof E as E'.
        apply (@search_reach _ _ {| before := x :: bef; after := rest; group1 := g |}) in E'.
        destruct E' as (d1 & d2 & R1 & _ & _).
        rewrite (text_between_reach R1).
        assert (R1' : reach (x :: d1) {| before := bef; after := x :: rest; group1 := g |} s).
        { destruct R1 as [B A]. simpl in B, A. split; simpl.
          - rewrite B, <- app_assoc. reflexivity.
          - rewrite A. reflexivity. }
        rewrite (text_between_reach R1'). reflexivity.
Qed.

Lemma escape_quotes_from text : escape_quotes text = escape_from false text.
Proof.
  unfold escape_quotes, re_sub, cursor_at_start.
  rewrite sub_loop_escape by lia. reflexivity.
Qed.

Lemma preceded_by_backslash_app pre s :
  preceded_by_backslash (pre ++ s) (length pre) = prev_backslash (rev pre).
Proof.
  destruct pre as [|y pre'] using rev_ind; [reflexivity|].
  rewrite length_app, Nat.add_1_r, rev_app_distr. cbn [rev app prev_backslash].
  unfold preceded_by_backslash, char_at.
  rewrite <- app_assoc, nth_error_app2, Nat.sub_diag by lia. reflexivity.
Qed.

Lemma escape_from_spec s : forall pre,
  escape_from (prev_backslash (rev pre)) s
  = concat (map (escaped_char (pre ++ s)) (seq (length pre) (length s))).
Proof.
  induction s as [|x s IH]; intros pre; [reflexivity|].
  cbn [escape_from length seq map concat]. f_equal.
  - unfold escaped_char, unescaped_quote_at.
    rewrite preceded_by_backslash_app.
    unfold char_at. rewrite nth_error_app2, Nat.sub_diag by lia. reflexivity.
  - specialize (IH (pre ++ [x])).
    rewrite rev_app_distr, <- app_assoc, length_app, Nat.add_1_r in IH.
    exact IH.
Qed.

(** C6.  The quote-escaping step replaces every double quote that is not
    preceded by a backslash by a backslash and a quote, and copies every
    other character, so a quote that already follows a backslash is not
    escaped a second time: [escape_quotes] is the character-by-character
    map [escape_quotes_spec]. *)
Theorem escape_quotes_correct (text : str) :
  escape_quotes text = escape_quotes_spec text.
Proof.
  rewrite escape_quotes_from. apply (escape_from_spec text []).
Qed.

(** C10.  Only the character just before a quote is examined: on the
    three characters backslash, backslash, quote the function returns its
    input, and in any text a quote that directly follows a backslash is
    copied as it is, whatever stands before that backslash. *)
Theorem escape_quotes_looks_one_back :
  escape_quotes [backslash; backslash; quote] = [backslash; backslash; quote]
  /\ forall a b : str,
       escape_quotes (a ++ [backslash; quote] ++ b)
       = escape_quotes (a ++ [backslash]) ++ [quote] ++ escape_from false b.
Proof.
  split; [reflexivity|].
  intros a b. rewrite !escape_quotes_from.
  change ([backslash; quote] ++ b) with (backslash :: quote :: b).
  generalize false at 1 2. induction a as [|x a IH]; intros pb.
  - cbn [app escape_from].
    replace (N.eqb backslash quote) with false by reflexivity.
    replace (N.eqb backslash backslash) with true by reflexivity.
    replace (N.eqb quote quote) with true by reflexivity.
    cbn [andb negb]. rewrite app_nil_r. reflexivity.
  - rewrite <- !app_comm_cons. cbn [escape_from].
    rewrite (IH (N.eqb x backslash)), <- app_assoc. reflexivity.
Qed.

(** ** Width model *)

Section WidthFacts.
Variable U : unicode_db.
Variable factor : float.

Lemma width_sum_narrow_from text : forall n : Z,
  Forall (fun c => is_full_width U c = false) text ->
  fold_left number_add
    (map (fun c => if is_full_width U c then PyFloat factor else PyInt 1) text) (PyInt n)
  = PyInt (n + Z.of_nat (length text)).
Proof.
  induction text as [|c text IH]; intros n H.
  - cbn [map fold_left length]. f_equal. lia.
  - apply Forall_cons_iff in H. destruct H as [Hc H].
    cbn [map fold_left]. rewrite Hc. cbn [number_add]. rewrite (IH _ H).
    f_equal. cbn [length]. lia.
Qed.

(** A text without wide characters is measured in ints alone: the
    factor, whatever it is, takes no part. *)
Lemma new_len_narrow text :
  Forall (fun c => is_full_width U c = false) text ->
  new_len U factor text = Ok (Z.of_nat (length text)).
Proof.
  intros H. unfold new_len, width_sum, builtin_sum.
  rewrite (width_sum_narrow_from 0 H). reflexivity.
Qed.

Lemma width_sum_full_from text : forall x : float,
  Forall (fun c => is_full_width U c = true) text ->
  fold_left number_add
    (map (fun c => if is_full_width U c then PyFloat factor else PyInt 1) text) (PyFloat x)
  = PyFloat (Nat.iter (length text) (fun acc => float_add acc factor) x).
Proof.
  induction text as [|c text IH]; intros x H; [reflexivity|].
  apply Forall_cons_iff in H. destruct H as [Hc H].
  cbn [map fold_left]. rewrite Hc. cbn [number_add]. rewrite (IH _ H).
  cbn [length]. rewrite Nat.iter_succ_r. reflexivity.
Qed.

Lemma new_len_full text :
  Forall (fun c => is_full_width U c = true) text ->
  new_len U factor text = int (repeated_sum factor (length text)).
Proof.
  intros H. unfold new_len, width_sum, builtin_sum.
  destruct text as [|c text]; [reflexivity|].
  apply Forall_cons_iff in H. destruct H as [Hc H].
  cbn [map fold_left]. rewrite Hc. cbn [number_add].
  rewrite (width_sum_full_from _ H). cbn [length repeated_sum].
  rewrite Nat.iter_succ_r. reflexivity.
Qed.

Lemma new_len_nil : new_len U factor [] = Ok 0.
Proof. reflexivity. Qed.

Lemma new_len_ascii text :
  ascii_narrow U -> is_ascii text -> new_len U factor text = Ok (Z.of_nat (length text)).
Proof.
  intros HU Ht. apply new_len_narrow.
  eapply Forall_impl; [|exact Ht]. intros c Hc. apply HU, Hc.
Qed.
End WidthFacts.

(** C3, as the code has it.  A string of ASCII characters has its
    character count as display width, whatever the factor.  A string of
    [N] characters classified Wide, Fullwidth or Ambiguous has the
    display width [int(s)], [s] being the float that [sum] reaches by
    adding the factor [N] times, each addition rounded; when [s] is an
    infinity or a NaN the call raises.  This is neither [N * factor]
    nor [int(N * factor)]: under the factor 1.8, 25 such characters
    have the display width 44, and [25 * 1.8 == 45.0]. *)
Theorem new_len_ascii_and_full_width (U : unicode_db) (factor : float) (text : str) :
  (ascii_narrow U -> is_ascii text -> new_len U factor text = Ok (Z.of_nat (length text)))
  /\ (Forall (fun c => is_full_width U c = true) text ->
      new_len U factor text = int (repeated_sum factor (length text)))
  /\ new_len ucd float_1_8 (repeat zhong 25) = Ok 44
  /\ float_mul (float_of_int 25) float_1_8 = float_of_int 45.
Proof.
  split; [apply new_len_ascii|]. split; [apply new_len_full|].
  split; vm_compute; reflexivity.
Qed.

Lemma ucd_ascii_narrow : ascii_narrow ucd.
Proof.
  intros c Hc. unfold is_full_width, ucd, east_asian_width.
  destruct (in_range 32%N 126%N c) eqn:E1; [reflexivity|].
  destruct (in_range 19968%N 40959%N c) eqn:E2.
  { unfold in_range in E2. apply andb_prop in E2. destruct E2 as [E2 _].
    apply N.leb_le in E2. lia. }
  assert (Hno : forall l, Forall (fun y => (128 <= y)%N) l -> existsb (N.eqb c) l = false).
  { induction 1 as [|y l Hy Hl IH]; [reflexivity|]. simpl. rewrite IH, orb_false_r.
    apply N.eqb_neq. lia. }
  rewrite !Hno; [reflexivity| | |]; repeat constructor; discriminate.
Qed.

Lemma new_len_ascii_and_full_width_witness :
  new_len ucd float_1_8 (lit "msgstr") = Ok 6
  /\ new_len ucd float_1_8 [zhong; zhong; zhong] = int (repeated_sum float_1_8 3).
Proof.
  split.
  - apply (proj1 (new_len_ascii_and_full_width ucd float_1_8 (lit "msgstr"))).
    + exact ucd_ascii_narrow.
    + repeat constructor.
  - apply (proj1 (proj2 (new_len_ascii_and_full_width ucd float_1_8 [zhong; zhong; zhong]))).
    repeat constructor.
Defined.

(** C3 as stated fails: one full-width character under the factor 1.8
    has the display width [int(1.8) = 1], and [1 == 1 * 1.8] is false. *)
Lemma full_width_law_fails : ~ full_width_law ucd float_1_8 [zhong].
Proof.
  intros H. assert (F : Forall (fun c => is_full_width ucd c = true) [zhong])
    by (repeat constructor).
  destruct (H F) as (w & E & Q). vm_compute in E. injection E as <-.
  vm_compute in Q. discriminate Q.
Qed.

(** ** The wrapper *)

Lemma slice_to_from {A} (s : list A) (i : Z) : slice_to s i ++ slice_from s i = s.
Proof. apply firstn_skipn. Qed.

Lemma slice_from_length {A} (s : list A) (i : Z) :
  (length (slice_from s i) <= length s)%nat.
Proof. unfold slice_from. rewrite length_skipn. lia. Qed.

Lemma slice_from_shorter {A} (s : list A) (i : Z) :
  1 <= i -> s <> [] -> (length (slice_from s i) < length s)%nat.
Proof.
  intros Hi Hs. unfold slice_from, slice_bound. rewrite length_skipn.
  destruct s as [|x s]; [congruence|]. cbn [length].
  destruct (i <? 0) eqn:E; [apply Z.ltb_lt in E; lia|]. lia.
Qed.

Lemma concat_filter_nonempty (l : list str) : concat (filter nonempty l) = concat l.
Proof.
  induction l as [|x l IH]; [reflexivity|].
  destruct x; simpl; rewrite IH; reflexivity.
Qed.

Section WrapperFacts.
Variable U : unicode_db.
Variable len : str -> result Z.
Variable self_width : Z.

Lemma take_fitting_spec chunks : forall cur_line cur_len width chunks' cur_line' cur_len',
  take_fitting len chunks cur_line cur_len width = Ok (chunks', cur_line', cur_len') ->
  exists taken,
    chunks = taken ++ chunks' /\ cur_line' = cur_line ++ taken
    /\ (taken = [] -> cur_len' = cur_len)
    /\ match chunks' with
       | [] => True
       | top :: _ => exists l, len top = Ok l /\ width < cur_len' + l
       end.
Proof.
  induction chunks as [|c chunks IH]; intros cl n w chunks' cl' n' H;
    cbn [take_fitting] in H.
  - injection H as <- <- <-. exists []. rewrite !app_nil_r. auto.
  - destruct (len c) as [l|e] eqn:L; cbn [bind] in H; [|discriminate].
    destruct (n + l <=? w) eqn:E.
    + apply IH in H. destruct H as (taken & -> & -> & _ & T).
      exists (c :: taken). rewrite <- app_assoc. repeat split; auto. discriminate.
    + injection H as <- <- <-. exists []. rewrite !app_nil_r.
      apply Z.leb_gt in E. cbn [app]. repeat split; auto. exists l. auto.
Qed.

Lemma _handle_long_word_spec chunks cur_line cur_len width chunks' cur_line' :
  _handle_long_word len chunks cur_line cur_len width = Ok (chunks', cur_line') ->
  concat cur_line' ++ concat chunks' = concat cur_line ++ concat chunks
  /\ (chunks_size chunks' <= chunks_size chunks)%nat
  /\ (1 <= width - cur_len -> 1 <= width ->
      match chunks with
      | [] => True
      | top :: _ => top <> [] -> (chunks_size chunks' < chunks_size chunks)%nat
      end).
Proof.
  unfold _handle_long_word. destruct chunks as [|chunk below].
  - intros [= <- <-]. auto.
  - destruct (len chunk) as [l|e]; cbn [bind]; [|discriminate].
    set (space_left := if width <? 1 then 1 else width - cur_len).
    set (hyphen_at := rfind chunk (ord "-") space_left).
    match goal with
    | |- context [if ?b then hyphen_at + 1 else space_left] =>
        set (cond := b); set (end_ := if cond then hyphen_at + 1 else space_left)
    end.
    intros [= <- <-].
    assert (Hsz : forall e, chunks_size (slice_from chunk e :: below)
                    = (chunks_size (chunk :: below) + length (slice_from chunk e)
                       - length chunk)%nat).
    { intros e. unfold chunks_size. cbn [length concat]. rewrite !length_app.
      pose proof (slice_from_length chunk e). lia. }
    split; [|split].
    + rewrite concat_app. cbn [concat]. rewrite app_nil_r, <- !app_assoc.
      f_equal. rewrite app_assoc, slice_to_from. reflexivity.
    + rewrite Hsz. pose proof (slice_from_length chunk end_).
      unfold chunks_size. cbn [length concat]. rewrite length_app. lia.
    + intros Hs Hw Hne. rewrite Hsz.
      assert (1 <= end_).
      { subst end_. destruct cond eqn:C; subst cond.
        - apply andb_prop in C. destruct C as [C _]. apply andb_prop in C.
          destruct C as [_ C]. apply Z.ltb_lt in C. lia.
        - subst space_left. destruct (width <? 1) eqn:W; [lia|]. lia. }
      pose proof (slice_from_shorter H Hne).
      unfold chunks_size. cbn [length concat]. rewrite length_app. lia.
Qed.

Lemma handle_top_concat width chunks1 cur_line1 cur_len1 chunks2 cur_line2 :
  handle_top len width chunks1 cur_line1 cur_len1 = Ok (chunks2, cur_line2) ->
  concat cur_line2 ++ concat chunks2 = concat cur_line1 ++ concat chunks1.
Proof.
  unfold handle_top. destruct chunks1 as [|top rest]; [intros [= <- <-]; reflexivity|].
  destruct (len top) as [l|e]; cbn [bind]; [|discriminate].
  destruct (width <? l); [|intros [= <- <-]; reflexivity].
  destruct (_handle_long_word len (top :: rest) cur_line1 cur_len1 width)
    as [[c2 l2]|e] eqn:Hh; cbn [bind]; [|discriminate].
  destruct (sum_len len (snd (c2, l2))); cbn [bind]; [|discriminate].
  intros [= <- <-]. apply _handle_long_word_spec in Hh. apply Hh.
Qed.

(** What the outer loop returns holds all the text. *)
Lemma wrap_loop_concat fuel : forall chunks lines out,
  wrap_loop len self_width fuel chunks lines = Ok out ->
  concat out = concat lines ++ concat chunks.
Proof.
  induction fuel as [|fuel IH]; intros chunks lines out H.
  - destruct chunks; [|discriminate]. injection H as <-. cbn [concat].
    rewrite app_nil_r. reflexivity.
  - destruct chunks as [|c0 cs].
    { injection H as <-. cbn [concat]. rewrite app_nil_r. reflexivity. }
    cbn [wrap_loop] in H.
    destruct (len []) as [indent|e]; cbn [bind] in H; [|discriminate].
    destruct (take_fitting len (c0 :: cs) [] 0 (self_width - indent))
      as [[[chunks1 cl1] n1]|e] eqn:T; cbn [bind] in H; [|discriminate].
    apply take_fitting_spec in T. destruct T as (taken & Hch & Hcl & _ & _).
    cbn [app] in Hcl. subst cl1.
    destruct (handle_top len (self_width - indent) chunks1 taken n1)
      as [[chunks2 cl2]|e] eqn:Hh; cbn [bind] in H; [|discriminate].
    apply handle_top_concat in Hh.
    assert (Hcat : concat cl2 ++ concat chunks2 = concat (c0 :: cs))
      by (rewrite Hh, Hch, concat_app; reflexivity).
    destruct cl2 as [|l0 ls]; apply IH in H; rewrite H, <- Hcat.
    + reflexivity.
    + rewrite concat_app. unfold join. cbn [concat].
      rewrite app_nil_r, <- !app_assoc. reflexivity.
Qed.

Lemma wrap_concat text out :
  wrap U len self_width text = Ok out -> concat out = _munge_whitespace text.
Proof.
  unfold wrap, _wrap_chunks. destruct (self_width <=? 0); [discriminate|].
  intros H. apply wrap_loop_concat in H. rewrite H. cbn [concat app].
  unfold _split_chunks, _split.
  rewrite concat_filter_nonempty. unfold wordsep_re. apply re_split_concat.
Qed.

(** The wrapper raises nothing of its own at a positive width: what it
    raises, a call of [len] has raised.  In particular the bound of the
    outer loop is not reached. *)
Lemma take_fitting_raises chunks : forall cur_line cur_len width e,
  take_fitting len chunks cur_line cur_len width = Raise e -> exists s, len s = Raise e.
Proof.
  induction chunks as [|c chunks IH]; intros cl n w e H; cbn [take_fitting] in H;
    [discriminate|].
  destruct (len c) as [l|e'] eqn:L; cbn [bind] in H.
  - destruct (n + l <=? w); [eapply IH; eassumption | discriminate].
  - injection H as <-. eauto.
Qed.

Lemma sum_len_raises cur_line : forall e,
  sum_len len cur_line = Raise e -> exists s, len s = Raise e.
Proof.
  induction cur_line as [|x rest IH]; intros e H; cbn [sum_len] in H; [discriminate|].
  destruct (len x) as [l|e'] eqn:L; cbn [bind] in H; [|injection H as <-; eauto].
  destruct (sum_len len rest) as [n|e'] eqn:R; cbn [bind] in H; [discriminate|].
  injection H as <-. apply IH. reflexivity.
Qed.

Lemma handle_top_raises width chunks cur_line cur_len e :
  handle_top len width chunks cur_line cur_len = Raise e -> exists s, len s = Raise e.
Proof.
  unfold handle_top. destruct chunks as [|top rest]; [discriminate|].
  destruct (len top) as [l|e'] eqn:L; cbn [bind]; [|intros [= <-]; eauto].
  destruct (width <? l); [|discriminate].
  unfold _handle_long_word. rewrite L. cbn [bind snd].
  match goal with
  | |- context [sum_len len ?x] => destruct (sum_len len x) as [n|e'] eqn:R
  end; cbn [bind]; [discriminate|].
  intros [= <-]. eapply sum_len_raises. eassumption.
Qed.

(** A pass of the outer loop that returns has removed a chunk or a
    character. *)
Lemma handle_top_progress width chunks1 taken cur_len1 chunks2 cur_line2 :
  0 < width -> len [] = Ok 0 ->
  handle_top len width chunks1 taken cur_len1 = Ok (chunks2, cur_line2) ->
  (taken = [] -> cur_len1 = 0 /\ chunks1 <> []) ->
  match chunks1 with
  | [] => True
  | top :: _ => exists l, len top = Ok l /\ width < cur_len1 + l
  end ->
  (chunks_size chunks2 < chunks_size chunks1 + length taken)%nat.
Proof.
  intros Hw Hnil H Hlen Htop. unfold handle_top in H.
  destruct chunks1 as [|top rest].
  - injection H as <- <-. destruct taken; [destruct Hlen; congruence|].
    cbn [length]. lia.
  - destruct Htop as (l & Hl & Htop). rewrite Hl in H. cbn [bind] in H.
    destruct (width <? l) eqn:W.
    + destruct (_handle_long_word len (top :: rest) taken cur_len1 width)
        as [[c2 l2]|e] eqn:Hh; cbn [bind] in H; [|discriminate].
      destruct (sum_len len (snd (c2, l2))); cbn [bind] in H; [|discriminate].
      injection H as <- <-.
      apply _handle_long_word_spec in Hh. destruct Hh as (_ & Hle & Hlt).
      destruct taken as [|t taken']; [|cbn [length]; lia].
      destruct Hlen as [-> _]; [reflexivity|].
      assert (top <> []).
      { intros ->. rewrite Hnil in Hl. injection Hl as <-.
        apply Z.ltb_lt in W. lia. }
      specialize (Hlt ltac:(lia) ltac:(lia) H). cbn [length]. lia.
    + injection H as <- <-. destruct taken as [|t taken']; [|cbn [length]; lia].
      destruct Hlen as [-> _]; [reflexivity|]. apply Z.ltb_ge in W. lia.
Qed.

Lemma wrap_loop_raises fuel : forall chunks lines e,
  len [] = Ok 0 -> 0 < self_width ->
  (chunks_size chunks < fuel)%nat ->
  wrap_loop len self_width fuel chunks lines = Raise e -> exists s, len s = Raise e.
Proof.
  induction fuel as [|fuel IH]; intros chunks lines e Hnil Hw Hf H; [lia|].
  destruct chunks as [|c0 cs]; [discriminate|].
  cbn [wrap_loop] in H. rewrite Hnil in H. cbn [bind] in H. rewrite Z.sub_0_r in H.
  destruct (take_fitting len (c0 :: cs) [] 0 self_width)
    as [[[chunks1 cl1] n1]|e'] eqn:T; cbn [bind] in H;
    [|injection H as <-; eapply take_fitting_raises; eassumption].
  apply take_fitting_spec in T. destruct T as (taken & Hch & Hcl & Hlen & Htop).
  cbn [app] in Hcl. subst cl1.
  destruct (handle_top len self_width chunks1 taken n1)
    as [[chunks2 cl2]|e'] eqn:Hh; cbn [bind] in H;
    [|injection H as <-; eapply handle_top_raises; eassumption].
  assert (Hsize : (chunks_size chunks1 + length taken <= chunks_size (c0 :: cs))%nat).
  { rewrite Hch. unfold chunks_size. rewrite concat_app, !length_app. lia. }
  apply handle_top_progress in Hh; auto.
  - destruct cl2; apply IH in H; auto; lia.
  - intros ->. split; [auto|]. cbn [app] in Hch. subst chunks1. discriminate.
Qed.

Lemma wrap_raises text e :
  len [] = Ok 0 -> 0 < self_width ->
  wrap U len self_width text = Raise e -> exists s, len s = Raise e.
Proof.
  intros Hnil Hw. unfold wrap, _wrap_chunks.
  destruct (self_width <=? 0) eqn:W; [apply Z.leb_le in W; lia|].
  intros H. apply wrap_loop_raises in H; auto.
Qed.

(** When every call of [len] returns, so does the wrapper, and its
    lines joined are the text with its whitespace replaced: with
    [drop_whitespace=False] no character is dropped. *)
Lemma wrap_total (lenv : str -> Z) text :
  (forall s, len s = Ok (lenv s)) -> lenv [] = 0 -> 0 < self_width ->
  exists out, wrap U len self_width text = Ok out
              /\ concat out = _munge_whitespace text.
Proof.
  intros Hret Hnil Hw.
  destruct (wrap U len self_width text) as [out|e] eqn:E.
  - exists out. split; [reflexivity | apply wrap_concat, E].
  - apply wrap_raises in E; [|rewrite Hret, Hnil; reflexivity | exact Hw].
    destruct E as (s & E). rewrite Hret in E. discriminate.
Qed.
End WrapperFacts.

(** ** Lines of narrow text fit

    Where the text has no wide character the patched [len] is the
    character count, and the wrapper keeps its promise: no line is wider
    than the width. *)

Lemma rfind_from_bound c s : forall i best,
  best < i -> rfind_from c s i best < i + Z.of_nat (length s).
Proof.
  induction s as [|x s IH]; intros i best H; cbn [rfind_from length].
  - lia.
  - specialize (IH (i + 1) (if N.eqb x c then i else best)).
    destruct (N.eqb x c); lia.
Qed.

Lemma rfind_bound s c stop : rfind s c stop < Z.of_nat (length (slice_to s stop)).
Proof.
  unfold rfind. pose proof (@rfind_from_bound c (slice_to s stop) 0 (-1)). lia.
Qed.

Lemma slice_to_length_le {A} (s : list A) (i : Z) :
  0 <= i -> Z.of_nat (length (slice_to s i)) <= i.
Proof.
  intros H. unfold slice_to, slice_bound. rewrite length_firstn.
  destruct (i <? 0) eqn:E; [apply Z.ltb_lt in E; lia|]. lia.
Qed.

Lemma narrow_app U a b : narrow U (a ++ b) <-> narrow U a /\ narrow U b.
Proof. apply Forall_app. Qed.

Lemma narrow_concat U (l : list str) : narrow U (concat l) <-> Forall (narrow U) l.
Proof.
  induction l as [|x l IH]; cbn [concat].
  - split; constructor.
  - rewrite narrow_app, IH, Forall_cons_iff. reflexivity.
Qed.

Lemma narrow_slice_to U s i : narrow U s -> narrow U (slice_to s i).
Proof.
  intros H. rewrite <- (slice_to_from s i) in H. apply narrow_app in H. apply H.
Qed.

Lemma narrow_slice_from U s i : narrow U s -> narrow U (slice_from s i).
Proof.
  intros H. rewrite <- (slice_to_from s i) in H. apply narrow_app in H. apply H.
Qed.

Lemma narrow_expandtabs U tabsize s : forall col,
  is_full_width U 32%N = false -> narrow U s -> narrow U (expandtabs_from tabsize col s).
Proof.
  intros col Hsp H. revert col. induction H as [|x s Hx Hs IH]; intros col;
    cbn [expandtabs_from]; [constructor|].
  destruct (N.eqb x 9).
  - destruct tabsize; [apply IH|]. apply narrow_app. split; [|apply IH].
    apply Forall_forall. intros y Hy. apply repeat_spec in Hy. subst y. exact Hsp.
  - destruct (N.eqb x 10 || N.eqb x 13); constructor; auto; apply IH.
Qed.

Lemma narrow_munge U s :
  is_full_width U 32%N = false -> narrow U s -> narrow U (_munge_whitespace s).
Proof.
  intros Hsp H. unfold _munge_whitespace, expandtabs.
  pose proof (@narrow_expandtabs U 8 s 0%nat Hsp H) as He.
  induction He as [|x l Hx Hl IH]; cbn [map]; constructor; auto.
  destruct (_whitespace x); assumption.
Qed.

Section NarrowFacts.
Variable U : unicode_db.
Variable factor : float.
Variable w : Z.
Hypothesis width_positive : 0 < w.

Lemma take_fitting_narrow chunks : forall cl n chunks' cl' n',
  take_fitting (new_len U factor) chunks cl n w = Ok (chunks', cl', n') ->
  Forall (narrow U) chunks -> narrow U (concat cl) ->
  n = Z.of_nat (length (concat cl)) -> n <= w ->
  n' = Z.of_nat (length (concat cl')) /\ n' <= w
  /\ narrow U (concat cl') /\ Forall (narrow U) chunks'.
Proof.
  induction chunks as [|c chunks IH]; intros cl n chunks' cl' n' H Hc Hcl Hn Hw;
    cbn [take_fitting] in H.
  - injection H as <- <- <-. auto.
  - apply Forall_cons_iff in Hc. destruct Hc as [Hc0 Hc].
    rewrite (@new_len_narrow U factor _ Hc0) in H. cbn [bind] in H.
    destruct (n + Z.of_nat (length c) <=? w) eqn:E.
    + apply Z.leb_le in E. apply IH in H; auto.
      * rewrite concat_app. cbn [concat]. rewrite app_nil_r. apply narrow_app. auto.
      * rewrite concat_app. cbn [concat]. rewrite app_nil_r, length_app. lia.
    + injection H as <- <- <-. repeat split; auto.
Qed.

Lemma _handle_long_word_narrow top rest cl n chunks' cl' :
  _handle_long_word (new_len U factor) (top :: rest) cl n w = Ok (chunks', cl') ->
  narrow U top -> Forall (narrow U) rest -> narrow U (concat cl) ->
  n = Z.of_nat (length (concat cl)) -> n <= w ->
  Z.of_nat (length (concat cl')) <= w
  /\ narrow U (concat cl') /\ Forall (narrow U) chunks'.
Proof.
  unfold _handle_long_word. intros H Ht Hr Hcl Hn Hw.
  rewrite (@new_len_narrow U factor _ Ht) in H. cbn [bind] in H.
  replace (w <? 1) with false in H by (symmetry; apply Z.ltb_ge; lia).
  match type of H with
  | Ok (slice_from top ?e :: _, _) = _ => set (end_ := e) in H
  end.
  injection H as <- <-.
  assert (He : 0 <= end_ <= w - n).
  { subst end_.
    pose proof (rfind_bound top (ord "-") (w - n)) as Hb.
    pose proof (@slice_to_length_le _ top (w - n) ltac:(lia)) as Hs.
    match goal with |- context [if ?b then _ else _] => destruct b eqn:C end; [|lia].
    apply andb_prop in C. destruct C as [C _]. apply andb_prop in C.
    destruct C as [_ C]. apply Z.ltb_lt in C. lia. }
  pose proof (@slice_to_length_le _ top end_ ltac:(lia)) as Hs.
  rewrite concat_app. cbn [concat]. rewrite app_nil_r, length_app.
  repeat split.
  - lia.
  - apply narrow_app. split; [assumption | apply narrow_slice_to, Ht].
  - constructor; [apply narrow_slice_from, Ht | assumption].
Qed.

Lemma wrap_loop_narrow fuel : forall chunks lines out,
  wrap_loop (new_len U factor) w fuel chunks lines = Ok out ->
  Forall (narrow U) chunks ->
  Forall (fun l => narrow U l /\ Z.of_nat (length l) <= w) lines ->
  Forall (fun l => narrow U l /\ Z.of_nat (length l) <= w) out.
Proof.
  induction fuel as [|fuel IH]; intros chunks lines out H Hc Hl.
  - destruct chunks; [injection H as <-; exact Hl | discriminate].
  - destruct chunks as [|c0 cs]; [injection H as <-; exact Hl|].
    cbn [wrap_loop] in H. rewrite new_len_nil in H. cbn [bind] in H.
    rewrite Z.sub_0_r in H.
    destruct (take_fitting (new_len U factor) (c0 :: cs) [] 0 w)
      as [[[chunks1 cl1] n1]|e] eqn:T; cbn [bind] in H; [|discriminate].
    apply take_fitting_narrow in T; auto; [|constructor|lia].
    destruct T as (Hn1 & Hw1 & Hcl1 & Hc1).
    destruct (handle_top (new_len U factor) w chunks1 cl1 n1)
      as [[chunks2 cl2]|e] eqn:E; cbn [bind] in H; [|discriminate].
    assert (Hstep : Z.of_nat (length (concat cl2)) <= w
                    /\ narrow U (concat cl2) /\ Forall (narrow U) chunks2).
    { unfold handle_top in E.
      destruct chunks1 as [|top rest]; [injection E as <- <-; repeat split; auto; lia|].
      apply Forall_cons_iff in Hc1. destruct Hc1 as [Ht Hr].
      rewrite (@new_len_narrow U factor _ Ht) in E. cbn [bind] in E.
      destruct (w <? Z.of_nat (length top)).
      - destruct (_handle_long_word (new_len U factor) (top :: rest) cl1 n1 w)
          as [[c2 l2]|e] eqn:Hh; cbn [bind] in E; [|discriminate].
        destruct (sum_len (new_len U factor) (snd (c2, l2))); cbn [bind] in E;
          [|discriminate].
        injection E as <- <-.
        apply _handle_long_word_narrow in Hh; auto.
      - injection E as <- <-. repeat split; auto. lia. }
    destruct Hstep as (Hw2 & Hcl2 & Hc2).
    destruct cl2 as [|l0 ls]; [apply IH in H; auto|].
    apply IH in H; auto. apply Forall_app. split; [exact Hl|].
    constructor; [|constructor]. unfold join. split; assumption.
Qed.

(** On a text without wide characters every line of [wrap] is within
    the width. *)
Lemma wrap_narrow_fits text out :
  is_full_width U 32%N = false -> narrow U text ->
  wrap U (new_len U factor) w text = Ok out ->
  Forall (fun l => narrow U l /\ Z.of_nat (length l) <= w) out.
Proof.
  intros Hsp Ht H. unfold wrap, _wrap_chunks in H.
  destruct (w <=? 0); [discriminate|].
  apply wrap_loop_narrow in H; auto.
  apply narrow_concat. unfold _split_chunks, _split.
  rewrite concat_filter_nonempty. unfold wordsep_re. rewrite re_split_concat.
  apply narrow_munge; assumption.
Qed.
End NarrowFacts.

(** ** Entry formatting *)

Lemma titled_inj title a b : titled title a = titled title b -> a = b.
Proof.
  unfold titled, quoted. intros H. apply app_inv_head in H.
  cbn [app] in H. injection H as H. apply app_inv_tail in H. exact H.
Qed.

Section FormatFacts.
Variable U : unicode_db.
Variable pangu : option (str -> str).
Variable len : str -> result Z.

Lemma _format_text_fits self title lines width title_len text_len :
  len title = Ok title_len -> len (process_text pangu lines) = Ok text_len ->
  title_len + text_len + 3 <= width ->
  _format_text U pangu len self title lines width true
  = Ok [titled title (process_text pangu lines)].
Proof.
  intros Ha Hb H. unfold _format_text. cbn [negb]. rewrite Ha, Hb. cbn [bind].
  apply Z.leb_le in H. rewrite H. reflexivity.
Qed.

(** When the test fails the first line is [title ""]. *)
Lemma _format_text_wraps self title lines width title_len text_len out :
  len title = Ok title_len -> len (process_text pangu lines) = Ok text_len ->
  ~ title_len + text_len + 3 <= width ->
  _format_text U pangu len self title lines width true = Ok out ->
  exists ls, out = titled title [] :: map quoted ls.
Proof.
  intros Ha Hb H. unfold _format_text. cbn [negb]. rewrite Ha, Hb. cbn [bind].
  apply Z.leb_nle in H. rewrite H.
  destruct (is_header (msgid self)).
  - destruct (wrap_paras U len (width - 2) _) as [ls|e]; cbn [bind]; [|discriminate].
    intros [= <-]. eauto.
  - destruct (wrap U len (width - 2) _) as [ls|e]; cbn [bind]; [|discriminate].
    intros [= <-]. eauto.
Qed.

Lemma wrap_nil (w : Z) :
  wrap U len w [] = if w <=? 0 then Raise ValueError else Ok [].
Proof. reflexivity. Qed.

(** An empty text that fails the test: the wrapper has no line to add,
    or refuses the width. *)
Lemma _format_text_empty self title lines width title_len text_len :
  process_text pangu lines = [] ->
  len title = Ok title_len -> len [] = Ok text_len ->
  ~ title_len + text_len + 3 <= width ->
  _format_text U pangu len self title lines width true
  = if width <=? 2 then Raise ValueError else Ok [titled title []].
Proof.
  intros He Ha Hb H. unfold _format_text. cbn [negb]. rewrite He, Ha, Hb. cbn [bind].
  apply Z.leb_nle in H. rewrite H.
  assert (Hw : (width - 2 <=? 0) = (width <=? 2)).
  { destruct (width <=? 2) eqn:E.
    - apply Z.leb_le in E. apply Z.leb_le. lia.
    - apply Z.leb_gt in E. apply Z.leb_gt. lia. }
  destruct (is_header (msgid self)).
  - change (header_paras []) with [@nil codepoint]. cbn [wrap_paras].
    rewrite wrap_nil, Hw. destruct (width <=? 2); reflexivity.
  - rewrite wrap_nil, Hw. destruct (width <=? 2); reflexivity.
Qed.
End FormatFacts.

(** C4, as the code has it.  Where the two calls of the patched [len]
    in the test return, a field whose processed text is not empty is
    emitted as the one line [title "text"] exactly when
    [len(title) + len(text) + 3 <= width]; a field whose processed text
    is empty and that fails the test is emitted as the one line
    [title ""] at a width above 2, the wrapper adding no line, and
    raises ValueError at a width of 2 or less; and the entry with msgid
    "" and msgstr "hello" is emitted at width 76 as one msgid line and
    the one line [msgstr "hello"]. *)
Theorem single_line_iff_fits (U : unicode_db) (pangu : option (str -> str))
        (len : str -> result Z) (self : Entry) (title : str) (lines : list str)
        (width : Z) :
  (process_text pangu lines <> [] ->
   single_line_law U pangu len self title lines width)
  /\ (process_text pangu lines = [] ->
      forall title_len text_len : Z,
        len title = Ok title_len -> len [] = Ok text_len ->
        ~ title_len + text_len + 3 <= width ->
        _format_text U pangu len self title lines width true
        = if width <=? 2 then Raise ValueError else Ok [titled title []])
  /\ format ucd None header_hello 76 float_1_8 false
     = Ok [lit "msgid " ++ [quote; quote];
           lit "msgstr " ++ [quote] ++ lit "hello" ++ [quote]].
Proof.
  split; [|split; [|reflexivity]].
  - intros Hne a b Ha Hb. split.
    + intros H.
      destruct (Z_le_gt_dec (a + b + 3) width) as [L|G]; [exact L|].
      exfalso.
      assert (N : ~ a + b + 3 <= width) by lia.
      destruct (@_format_text_wraps U pangu len self title lines width a b _ Ha Hb N H)
        as (ls & H').
      rename H' into H0. clear H. rename H0 into H. injection H as H _. apply titled_inj in H. auto.
    + apply _format_text_fits; assumption.
  - intros He a b Ha Hb H.
    exact (@_format_text_empty U pangu len self title lines width a b He Ha Hb H).
Qed.

Lemma single_line_iff_fits_witness :
  single_line_law ucd None (new_len ucd float_1_8) header_hello (lit "msgstr")
    [lit "hello"] 76
  /\ _format_text ucd None (new_len ucd float_1_8) empty_header (lit "msgid") [[]] 5 true
     = Ok [titled (lit "msgid") []].
Proof.
  destruct (@single_line_iff_fits ucd None (new_len ucd float_1_8) header_hello
              (lit "msgstr") [lit "hello"] 76) as (H1 & _ & _).
  destruct (@single_line_iff_fits ucd None (new_len ucd float_1_8) empty_header
              (lit "msgid") [[]] 5) as (_ & H2 & _).
  split.
  - apply H1. vm_compute. discriminate.
  - apply (H2 eq_refl 5 0); [reflexivity | reflexivity | lia].
Defined.

(** C4 as stated fails for an empty text at a small width: at width 5
    the test fails (8 > 5), and the field is emitted all the same as the
    one line [msgid ""], the wrapper having no line to add. *)
Lemma single_line_law_fails :
  ~ single_line_law ucd None (new_len ucd float_1_8) empty_header (lit "msgid") [[]] 5.
Proof.
  intros H. destruct (H 5 0 eq_refl eq_refl) as [H1 _].
  assert (E : 5 + 0 + 3 <= 5) by (apply H1; reflexivity). lia.
Qed.

(** C1, evaluated where it fails.  A run of twenty wide characters is
    one chunk; at width 20 the wrapper cuts it after 18 characters, and
    that continuation line has the display width 32 under the factor
    1.8, above [width - 2 = 18]. *)
Theorem long_cjk_run_overflows :
  format ucd None long_cjk_entry 20 float_1_8 false
  = Ok [lit "msgid " ++ quoted (lit "a");
        lit "msgstr " ++ [quote; quote];
        quoted (repeat zhong 18);
        quoted (repeat zhong 2)]
  /\ new_len ucd float_1_8 (repeat zhong 18) = Ok 32
  /\ 20 - 2 < 32.
Proof.
  split; [vm_compute; reflexivity|]. split; [vm_compute; reflexivity|].
  vm_compute. reflexivity.
Qed.

(** ** Paragraphs of the header *)

Lemma startswith_spec p : forall s,
  startswith s p = true -> s = p ++ skipn (length p) s.
Proof.
  induction p as [|y p IH]; intros s H; [reflexivity|].
  destruct s as [|x s]; [discriminate|]. simpl in H.
  apply andb_prop in H. destruct H as [E H]. apply N.eqb_eq in E. subst y.
  cbn [length skipn app]. f_equal. apply IH, H.
Qed.

Lemma split_acc_nonempty sep s : forall cur skip, split_acc sep cur skip s <> [].
Proof.
  induction s as [|x s IH]; intros cur skip; cbn [split_acc]; [discriminate|].
  destruct skip; [|apply IH].
  destruct (startswith (x :: s) sep); [discriminate | apply IH].
Qed.

(** Joining the pieces of [split] with the separator gives the text
    back; [skip] characters of a separator found are still ahead. *)
Lemma split_acc_join sep s : forall cur skip,
  sep <> [] -> (skip <= length s)%nat ->
  join_with sep (split_acc sep cur skip s) = rev cur ++ skipn skip s.
Proof.
  induction s as [|x s IH]; intros cur skip Hsep Hk.
  - simpl in Hk. replace skip with O by lia. simpl. rewrite app_nil_r. reflexivity.
  - cbn [split_acc]. destruct skip as [|k].
    + destruct (startswith (x :: s) sep) eqn:E.
      * apply startswith_spec in E.
        assert (Hl : (length sep - 1 <= length s)%nat).
        { apply (f_equal (@length _)) in E. rewrite length_app in E.
          cbn [length] in E. lia. }
        pose proof (split_acc_nonempty sep s [] (length sep - 1)) as Hn.
        specialize (IH [] (length sep - 1)%nat Hsep Hl).
        destruct (split_acc sep [] (length sep - 1) s) as [|p ps]; [congruence|].
        change (join_with sep (rev cur :: p :: ps))
          with (rev cur ++ sep ++ join_with sep (p :: ps)).
        rewrite IH. cbn [rev app skipn].
        f_equal. destruct sep as [|y sep]; [congruence|].
        cbn [length skipn] in E. cbn [length].
        replace (S (length sep) - 1)%nat with (length sep) by lia.
        symmetry. exact E.
      * rewrite (IH (x :: cur) O Hsep ltac:(lia)). cbn [rev skipn].
        rewrite <- app_assoc. reflexivity.
    + cbn [length] in Hk. rewrite (IH cur k Hsep ltac:(lia)). reflexivity.
Qed.

Lemma split_join s sep : sep <> [] -> join_with sep (split s sep) = s.
Proof.
  intros H. unfold split. rewrite split_acc_join by (auto; lia). reflexivity.
Qed.

Lemma slice_to_drop_two (p : str) (a b : codepoint) : slice_to (p ++ [a; b]) (-2) = p.
Proof.
  unfold slice_to, slice_bound. rewrite length_app. cbn [length].
  replace (-2 <? 0) with true by reflexivity.
  replace (Z.to_nat _) with (length p + 0)%nat by lia.
  rewrite firstn_app_2. cbn [firstn]. apply app_nil_r.
Qed.

Lemma strip_last_para_map (sep2 : codepoint * codepoint) pieces last :
  strip_last_para (map (fun p => p ++ [fst sep2; snd sep2]) (pieces ++ [last]))
  = map (fun p => p ++ [fst sep2; snd sep2]) pieces ++ [last].
Proof.
  induction pieces as [|p ps IH].
  - cbn [app map strip_last_para]. rewrite slice_to_drop_two. reflexivity.
  - cbn [app map]. cbn [app map] in IH.
    destruct (map (fun p0 => p0 ++ [fst sep2; snd sep2]) (ps ++ [last])) eqn:E.
    + destruct ps; discriminate E.
    + cbn [strip_last_para]. cbn [strip_last_para] in IH. rewrite IH. reflexivity.
Qed.

Lemma join_with_concat sep pieces last :
  join_with sep (pieces ++ [last]) = concat (map (fun p => p ++ sep) pieces ++ [last]).
Proof.
  induction pieces as [|p ps IH].
  - simpl. rewrite app_nil_r. reflexivity.
  - cbn [app map concat]. rewrite <- IH, <- app_assoc.
    destruct (ps ++ [last]) eqn:E; [destruct ps; discriminate E|]. reflexivity.
Qed.

(** The paragraphs of a header field: every piece of the split but the
    last has the separator appended again, and together they are the
    text. *)
Lemma header_paras_spec text :
  exists pieces last,
    split text newline_escape = pieces ++ [last]
    /\ header_paras text = map (fun p => p ++ newline_escape) pieces ++ [last]
    /\ concat (header_paras text) = text.
Proof.
  pose proof (split_acc_nonempty newline_escape text [] O) as Hn.
  fold (split text newline_escape) in Hn.
  destruct (exists_last Hn) as (pieces & last & E).
  exists pieces, last. split; [exact E|].
  assert (Hp : header_paras text = map (fun p => p ++ newline_escape) pieces ++ [last]).
  { unfold header_paras. rewrite E.
    apply (strip_last_para_map (backslash, ord "n") pieces last). }
  split; [exact Hp|].
  rewrite Hp, <- join_with_concat, <- E. apply split_join. discriminate.
Qed.





Section HeaderFacts.
Variable U : unicode_db.
Variable len : str -> result Z.


End HeaderFacts.



(** ** The parser *)

Section ParserFacts.
Variable U : unicode_db.

Lemma __next___inv self s1 item :
  __next__ self = Ok (s1, item) ->
  s1 = set_lineno self (lineno self + 1)
  /\ match item with
     | None => builtin_len (lines self) <= lineno self + 1
     | Some line => lineno self + 1 < builtin_len (lines self)
                    /\ getitem (lines self) (lineno self + 1) = Some line
     end.
Proof.
  unfold __next__. cbn [lines lineno set_lineno].
  destruct (builtin_len (lines self) <=? lineno self + 1) eqn:E.
  - intros [= <- <-]. apply Z.leb_le in E. auto.
  - apply Z.leb_gt in E.
    destruct (getitem (lines self) (lineno self + 1)) as [line|]; [|discriminate].
    intros [= <- <-]. auto.
Qed.

Lemma finish_entry_inv self ids strs start_line self' e :
  finish_entry self ids strs start_line = Ok (self', e) ->
  self' = self /\ e = {| span := {| start := start_line; end_ := lineno self |};
                         msgid := ids; msgstr := strs |}
  /\ strs <> [].
Proof.
  unfold finish_entry, parse_error. destruct strs; [discriminate|].
  intros [= <- <-]. repeat split. discriminate.
Qed.

Lemma entry_loop_inv fuel : forall self ids strs own temp start_line self' e,
  entry_loop U fuel self ids strs own temp start_line = Ok (self', e) ->
  entry_post self ids strs start_line self' e.
Proof.
  induction fuel as [|fuel IH]; intros self ids strs own temp start_line self' e H;
    [discriminate|].
  cbn [entry_loop] in H.
  destruct (__next__ self) as [[s1 item]|ex] eqn:N; cbn [bind] in H; [|discriminate].
  apply __next___inv in N. destruct N as [-> N].
  assert (Hfin : forall back,
             (back = 0 \/ back = 1) ->
             finish_entry (set_lineno (set_lineno self (lineno self + 1))
                             (lineno self + 1 - back)) ids strs start_line
             = Ok (self', e) ->
             entry_post self ids strs start_line self' e).
  { intros back Hb F. apply finish_entry_inv in F. destruct F as (-> & -> & Hs).
    unfold entry_post. cbn. repeat split; auto; try lia. intros E. congruence. }
  assert (Hfin0 : finish_entry (set_lineno self (lineno self + 1)) ids strs start_line
                  = Ok (self', e) -> entry_post self ids strs start_line self' e).
  { intros F. apply (Hfin 0); [auto|].
    replace (lineno self + 1 - 0) with (lineno self + 1) by lia.
    destruct self; exact F. }
  assert (Hrec : forall ids' strs' own' temp' start',
             entry_loop U fuel (set_lineno self (lineno self + 1)) ids' strs' own' temp'
               start' = Ok (self', e) ->
             (ids <> [] -> ids' <> [] /\ start' = start_line) ->
             (start_line <= lineno self -> start' <= lineno self + 1) ->
             entry_post self ids strs start_line self' e).
  { intros ids' strs' own' temp' start' R Hi Hs. apply IH in R.
    unfold entry_post in *.
    cbn [set_lineno lines _entries _original filename lineno] in R.
    destruct R as (R1 & R2 & R3 & R4 & R5 & R6 & R7 & R8 & R9 & _).
    repeat split; auto; try lia.
    intros Hne. destruct (Hi Hne) as [Hne' <-]. auto. }
  destruct item as [line|]; [|apply Hfin0, H].
  destruct (blank U line); [apply Hfin0, H|].
  destruct (startswith line (lit "#")).
  { apply Hrec in H; auto. lia. }
  destruct (startswith line (lit "msgid")).
  { destruct (nonempty ids) eqn:Ne.
    - apply (Hfin 1); auto.
    - destruct (re_match MESSAGE_RE (slice_from line 6)); [|discriminate].
      apply Hrec in H; auto.
      + intros Hne. destruct ids; [congruence | discriminate].
      + cbn. lia. }
  destruct (startswith line (lit "msgstr")).
  { destruct (nonempty strs) eqn:Ne.
    - apply (Hfin 1); auto.
    - destruct (re_match MESSAGE_RE (slice_from line 7)); [|discriminate].
      apply Hrec in H; auto. lia. }
  destruct (re_match MESSAGE_RE line); [|discriminate].
  destruct temp; apply Hrec in H; auto; try lia.
  intros Hne. split; [|reflexivity]. destruct ids; [congruence | discriminate].
Qed.
Lemma startswith_fuzzy_comment line :
  fuzzy_marker U line = true -> startswith line (lit "#") = true.
Proof.
  unfold fuzzy_marker. intros H. apply andb_prop in H. destruct H as [H _].
  destruct line as [|x line]; [discriminate|]. simpl in H. simpl.
  apply andb_prop in H. destruct H as [H _]. rewrite H. destruct line; reflexivity.
Qed.

(** An entry that [parse] starts at a [msgid] line begins on that
    line. *)
Lemma _parse_entry_at_msgid self line self' e :
  getitem (lines self) (lineno self) = Some line ->
  lineno self < builtin_len (lines self) ->
  blank U line = false ->
  startswith line (lit "#") = false ->
  startswith line (lit "msgid") = true ->
  _parse_entry U (set_lineno self (lineno self - 1)) = Ok (self', e) ->
  lines self' = lines self /\ _entries self' = _entries self
  /\ _original self' = _original self /\ filename self' = filename self
  /\ start (span e) = lineno self /\ end_ (span e) = lineno self'
  /\ lineno self <= lineno self' /\ msgstr e <> [].
Proof.
  intros G L B C M H. unfold _parse_entry, loop_fuel in H.
  remember (S (length (lines (set_lineno self (lineno self - 1))))) as fuel eqn:Hfuel.
  clear Hfuel. cbn [entry_loop] in H.
  destruct (__next__ (set_lineno self (lineno self - 1))) as [[s1 item]|ex] eqn:N;
    cbn [bind] in H; [|discriminate].
  apply __next___inv in N. cbn [set_lineno lineno lines] in N.
  replace (lineno self - 1 + 1) with (lineno self) in N by lia.
  destruct N as [-> N]. destruct item as [line'|]; [|lia].
  destruct N as [_ N]. rewrite G in N. injection N as <-.
  rewrite B, C, M in H. cbn [nonempty] in H.
  destruct (re_match MESSAGE_RE (slice_from line 6)) as [m|]; [|discriminate].
  apply entry_loop_inv in H. unfold entry_post in H.
  cbn [set_lineno lines _entries _original filename lineno app] in H.
  destruct H as (H1 & H2 & H3 & H4 & H5 & H6 & H7 & _ & H9 & _).
  repeat split; auto.
  apply H7. discriminate.
Qed.

Lemma ordered_from_app es : forall lo e,
  ordered_from lo es ->
  Forall (fun a => end_ (span a) < start (span e)) es ->
  lo <= start (span e) -> start (span e) <= end_ (span e) ->
  ordered_from lo (es ++ [e]).
Proof.
  induction es as [|a es IH]; intros lo e O F Hlo He.
  - simpl. auto.
  - cbn [app ordered_from] in *. destruct O as (O1 & O2 & O3).
    apply Forall_cons_iff in F. destruct F as [Fa F].
    repeat split; auto. apply IH; auto. lia.
Qed.

Lemma ordered_from_weaken es : forall lo lo',
  lo' <= lo -> ordered_from lo es -> ordered_from lo' es.
Proof.
  destruct es as [|a es]; intros lo lo' H O; [exact I|].
  cbn [ordered_from] in *. destruct O as (O1 & O2 & O3). repeat split; auto. lia.
Qed.

Lemma ordered_from_lower es : forall lo b,
  ordered_from lo es -> In b es -> lo <= start (span b).
Proof.
  induction es as [|a es IH]; intros lo b O Hin; [contradiction|].
  cbn [ordered_from] in O. destruct O as (O1 & O2 & O3).
  destruct Hin as [<-|Hin]; [exact O1|].
  specialize (IH _ _ O3 Hin). lia.
Qed.

Lemma ordered_from_spans_ordered es : forall lo,
  ordered_from lo es -> spans_ordered es.
Proof.
  induction es as [|c es IH]; intros lo O i j a b Hij Ha Hb.
  - destruct i; discriminate.
  - cbn [ordered_from] in O. destruct O as (O1 & O2 & O3).
    destruct j as [|j]; [lia|]. cbn [nth_error] in Hb.
    destruct i as [|i].
    + cbn [nth_error] in Ha. injection Ha as <-.
      apply nth_error_In in Hb.
      pose proof (@ordered_from_lower es _ b O3 Hb) as Hlow.
      split; [lia|]. intros (n & Hn1 & Hn2). lia.
    + cbn [nth_error] in Ha. apply (IH _ O3 i j); auto. lia.
Qed.

(** The invariant of the loop of [parse]: the entries gathered so far
    form a chain that ends at or before the cursor. *)
Lemma parse_loop_inv fuel : forall self self',
  parse_loop U fuel self = Ok self' ->
  -1 <= lineno self ->
  ordered_from 0 (_entries self) ->
  Forall (fun a => end_ (span a) <= lineno self) (_entries self) ->
  ordered_from 0 (_entries self')
  /\ lines self' = lines self /\ _original self' = _original self.
Proof.
  induction fuel as [|fuel IH]; intros self self' H Hl O F; [discriminate|].
  cbn [parse_loop] in H.
  destruct (__next__ self) as [[s1 item]|ex] eqn:N; cbn [bind] in H; [|discriminate].
  apply __next___inv in N. destruct N as [-> N].
  destruct item as [line|]; [|injection H as <-; auto].
  destruct N as [Nl Ng].
  destruct (fuzzy_marker U line) eqn:Fz.
  - destruct (_parse_entry U (set_lineno self (lineno self + 1))) as [[s2 e2]|ex] eqn:P;
      cbn [bind fst] in H; [|discriminate].
    rewrite (@startswith_fuzzy_comment line Fz), orb_true_r in H.
    unfold _parse_entry in P. apply entry_loop_inv in P. unfold entry_post in P.
    cbn [set_lineno lines _entries _original filename lineno] in P.
    destruct P as (P1 & P2 & P3 & _ & _ & P6 & _).
    apply IH in H.
    + rewrite P1, P3 in H. exact H.
    + lia.
    + rewrite P2. exact O.
    + rewrite P2. eapply Forall_impl; [|exact F]. cbn. intros a Ha. lia.
  - cbn [bind] in H.
    destruct (blank U line || startswith line (lit "#")) eqn:Skip.
    + apply IH in H; cbn [set_lineno lines _entries _original lineno] in *; auto.
      * lia.
      * eapply Forall_impl; [|exact F]. cbn. intros a Ha. lia.
    + apply orb_false_elim in Skip. destruct Skip as [Bl Cm].
      destruct (startswith line (lit "msgid")) eqn:M; [|discriminate].
      destruct (_parse_entry U _) as [[s3 e]|ex] eqn:P; cbn [bind fst snd] in H;
        [|discriminate].
      apply (@_parse_entry_at_msgid (set_lineno self (lineno self + 1)) line) in P;
        auto.
      cbn [set_lineno lines _entries _original filename lineno] in P.
      destruct P as (P1 & P2 & P3 & _ & P5 & P6 & P7 & _).
      apply IH in H; cbn [append_entry lines _entries _original lineno] in *.
      * rewrite P1, P3 in H. exact H.
      * lia.
      * rewrite P2. apply ordered_from_app; auto; try lia.
        eapply Forall_impl; [|exact F]. cbn. intros a Ha. lia.
      * rewrite P2. apply Forall_app. split.
        -- eapply Forall_impl; [|exact F]. cbn. intros a Ha. lia.
        -- constructor; [lia | constructor].
Qed.

End ParserFacts.

(** C9.  After a successful parse the spans of the entries, in the order
    of the list, start at strictly increasing lines, and no two of them
    share a line. *)
Theorem parse_spans_ordered (U : unicode_db) (name : str) (ls : list str) (src : Source) :
  parse U (Source_init name ls) = Ok src ->
  spans_ordered (_entries src).
Proof.
  unfold parse. cbn [Source_init lineno]. replace (0 <=? -1) with false by reflexivity.
  intros H. apply parse_loop_inv in H; cbn [Source_init lineno _entries]; auto.
  - destruct H as (H & _). eapply ordered_from_spans_ordered, H.
  - lia.
  - exact I.
Qed.

Lemma parse_spans_ordered_witness :
  exists src, parse ucd (Source_init [] file_two_entries) = Ok src
              /\ spans_ordered (_entries src).
Proof.
  assert (E : exists src, parse ucd (Source_init [] file_two_entries) = Ok src)
    by (vm_compute; eexists; reflexivity).
  destruct E as [src E]. exists src. split; [exact E|].
  exact (@parse_spans_ordered ucd [] file_two_entries src E).
Defined.

(** ** Errors of the parser *)

Section ErrorFacts.
Variable U : unicode_db.

Lemma __next___at self a x b :
  lines self = a ++ x :: b ->
  lineno self = Z.of_nat (length a) - 1 ->
  __next__ self = Ok (set_lineno self (Z.of_nat (length a)), Some x).
Proof.
  intros Hl Hn. unfold __next__. cbn [set_lineno lines lineno].
  replace (lineno self + 1) with (Z.of_nat (length a)) by lia.
  rewrite Hl. unfold builtin_len, getitem. rewrite length_app. cbn [length].
  replace (_ <=? _) with false by (symmetry; apply Z.leb_gt; lia).
  replace (Z.of_nat (length a) <? 0) with false by (symmetry; apply Z.ltb_ge; lia).
  rewrite Nat2Z.id, nth_error_app2, Nat.sub_diag by lia. reflexivity.
Qed.

Lemma __next___end self :
  lineno self = Z.of_nat (length (lines self)) - 1 ->
  __next__ self = Ok (set_lineno self (Z.of_nat (length (lines self))), None).
Proof.
  intros Hn. unfold __next__. cbn [set_lineno lines lineno].
  replace (lineno self + 1) with (Z.of_nat (length (lines self))) by lia.
  unfold builtin_len. rewrite Z.leb_refl. reflexivity.
Qed.

Lemma startswith_msgid_not_comment line :
  startswith line (lit "msgid") = true ->
  startswith line (lit "#") = false /\ fuzzy_marker U line = false.
Proof.
  intros H. destruct line as [|x line]; [discriminate|].
  simpl in H. apply andb_prop in H. destruct H as [H _].
  apply N.eqb_eq in H. subst x. split; reflexivity.
Qed.

(** The loop of [_parse_entry] over the lines of an entry that has no
    msgstr: it ends with the error, which names the cursor. *)
Lemma entry_loop_missing rest off body : forall fuel self ids own start_line before_,
  entry_end U rest off ->
  Forall (continuation_or_comment U) body ->
  lines self = before_ ++ body ++ rest ->
  lineno self = Z.of_nat (length before_) - 1 ->
  ids <> [] ->
  (length body < fuel)%nat ->
  entry_loop U fuel self ids [] own temp_msgid start_line
  = Raise (ParseError
             (missing_msgstr_message (Z.of_nat (length before_ + length body) + off))).
Proof.
  intros fuel self ids own start_line before_ Hend.
  revert fuel self ids own before_.
  induction body as [|line body IH]; intros fuel self ids own before_ Hb Hl Hn Hi Hf.
  - destruct fuel as [|fuel]; [simpl in Hf; lia|]. cbn [entry_loop].
    cbn [app] in Hl. rewrite Nat.add_0_r.
    destruct Hend as [|l r Hbl|l r Hbl Hc Hm].
    + rewrite app_nil_r in Hl. rewrite __next___end by (rewrite Hl; exact Hn).
      cbn [bind finish_entry]. unfold parse_error, missing_msgstr_message.
      cbn [set_lineno lineno]. rewrite Hl, Z.add_0_r. reflexivity.
    + rewrite (__next___at _ _ _ _ Hl Hn). cbn [bind]. rewrite Hbl.
      cbn [finish_entry]. unfold parse_error, missing_msgstr_message.
      cbn [set_lineno lineno]. rewrite Z.add_0_r. reflexivity.
    + rewrite (__next___at _ _ _ _ Hl Hn). cbn [bind]. rewrite Hbl, Hc, Hm.
      destruct ids; [congruence|]. cbn [nonempty finish_entry].
      unfold parse_error, missing_msgstr_message. cbn [set_lineno lineno].
      replace (Z.of_nat (length before_) + -1) with (Z.of_nat (length before_) - 1)
        by lia.
      reflexivity.
  - destruct fuel as [|fuel]; [simpl in Hf; lia|]. cbn [entry_loop].
    cbn [app] in Hl. rewrite (__next___at _ _ _ _ Hl Hn). cbn [bind].
    apply Forall_cons_iff in Hb. destruct Hb as [[Hbl Hk] Hb].
    rewrite Hbl.
    assert (Hstep : forall ids', ids' <> [] ->
              entry_loop U fuel (set_lineno self (Z.of_nat (length before_))) ids' []
                own temp_msgid start_line
              = Raise (ParseError
                         (missing_msgstr_message
                            (Z.of_nat (length before_ + length (line :: body)) + off)))).
    { intros ids' Hi'.
      rewrite (IH fuel (set_lineno self (Z.of_nat (length before_))) ids' own
                 (before_ ++ [line])); auto.
      - replace (length (before_ ++ [line]) + length body)%nat
          with (length before_ + length (line :: body))%nat
          by (rewrite length_app; cbn [length]; lia).
        reflexivity.
      - cbn [set_lineno lines]. rewrite Hl, <- app_assoc. reflexivity.
      - cbn [set_lineno lineno]. rewrite length_app. cbn [length]. lia.
      - cbn [length] in Hf. lia. }
    destruct Hk as [Hc | (Hm & Hs & Hr)].
    + rewrite Hc. apply Hstep, Hi.
    + destruct (startswith line (lit "#")); [apply Hstep, Hi|].
      rewrite Hm, Hs.
      destruct (re_match MESSAGE_RE line) as [m|]; [|congruence].
      apply Hstep. destruct ids; discriminate.
Qed.
(** Wherever the loop of [parse] comes upon an entry that has a msgid
    and no msgstr, it raises the error that names the cursor at the
    end of the entry. *)
Lemma parse_loop_missing_msgstr fuel self before_ idline body rest off :
  lines self = before_ ++ idline :: body ++ rest ->
  lineno self = Z.of_nat (length before_) - 1 ->
  blank U idline = false ->
  startswith idline (lit "msgid") = true ->
  re_match MESSAGE_RE (slice_from idline 6) <> None ->
  Forall (continuation_or_comment U) body ->
  entry_end U rest off ->
  parse_loop U (S fuel) self
  = Raise (ParseError
             (missing_msgstr_message
                (Z.of_nat (length before_) + 1 + Z.of_nat (length body) + off))).
Proof.
  intros Hl Hn Hbl Hm Hre Hb Hend.
  destruct (startswith_msgid_not_comment _ Hm) as [Hc Hfz].
  cbn [parse_loop]. rewrite (__next___at _ _ _ _ Hl Hn). cbn [bind].
  rewrite Hfz. cbn [bind]. rewrite Hbl, Hc, Hm. cbn [orb].
  unfold _parse_entry, loop_fuel. cbn [set_lineno lines lineno].
  remember (S (length (lines self))) as f eqn:Hf.
  cbn [entry_loop].
  rewrite (@__next___at
             (set_lineno (set_lineno self (Z.of_nat (length before_)))
                (Z.of_nat (length before_) - 1)) before_ idline (body ++ rest))
    by (cbn [set_lineno lines lineno]; auto).
  cbn [bind]. rewrite Hbl, Hc, Hm. cbn [nonempty].
  destruct (re_match MESSAGE_RE (slice_from idline 6)) as [m|]; [|congruence].
  rewrite (@entry_loop_missing rest off body _ _ _ _ _ (before_ ++ [idline])); auto.
  - cbn [bind]. rewrite length_app. cbn [length].
    replace (Z.of_nat (length before_ + 1 + length body) + off)
      with (Z.of_nat (length before_) + 1 + Z.of_nat (length body) + off) by lia.
    reflexivity.
  - cbn [set_lineno lines]. rewrite Hl, <- app_assoc. reflexivity.
  - cbn [set_lineno lineno]. rewrite length_app. cbn [length]. lia.
  - discriminate.
  - rewrite Hf, Hl, !length_app. cbn [length]. rewrite length_app. lia.
Qed.

Lemma parse_loop_skips idline body rest off skipped : forall fuel self before_,
  Forall (skippable U) skipped ->
  lines self = before_ ++ skipped ++ idline :: body ++ rest ->
  lineno self = Z.of_nat (length before_) - 1 ->
  blank U idline = false ->
  startswith idline (lit "msgid") = true ->
  re_match MESSAGE_RE (slice_from idline 6) <> None ->
  Forall (continuation_or_comment U) body ->
  entry_end U rest off ->
  parse_loop U (length skipped + S fuel) self
  = Raise (ParseError
             (missing_msgstr_message
                (Z.of_nat (length before_ + length skipped) + 1
                 + Z.of_nat (length body) + off))).
Proof.
  induction skipped as [|x skipped IH]; intros fuel self before_ Hs Hl Hn Hbl Hm Hre Hb He.
  - cbn [length Nat.add]. rewrite Nat.add_0_r. cbn [app] in Hl.
    apply (@parse_loop_missing_msgstr fuel self before_ idline body rest off); auto.
  - cbn [length Nat.add parse_loop]. cbn [app] in Hl.
    rewrite (__next___at _ _ _ _ Hl Hn). cbn [bind].
    apply Forall_cons_iff in Hs. destruct Hs as [[Hfz Hx] Hs].
    rewrite Hfz. cbn [bind].
    replace (blank U x || startswith x (lit "#")) with true
      by (destruct Hx as [-> | ->]; [reflexivity | symmetry; apply orb_true_r]).
    rewrite (IH fuel _ (before_ ++ [x])); auto.
    + rewrite length_app. cbn [length].
      replace (length before_ + 1 + length skipped)%nat
        with (length before_ + S (length skipped))%nat by lia.
      reflexivity.
    + cbn [set_lineno lines]. rewrite Hl, <- app_assoc. reflexivity.
    + cbn [set_lineno lineno]. rewrite length_app. cbn [length]. lia.
Qed.
End ErrorFacts.

(** ** The reflow driver on the failing inputs *)

(** The width is also exceeded where the text has break points: the
    wrapper adds up the truncated widths of the chunks (3 for a wide
    character and a wide comma under the factor 1.8), so six chunks
    fill a line of 18 whose display width is [int(21.6) = 21]. *)
Example truncated_chunks_overflow :
  wrap ucd (new_len ucd float_1_8) 18 (concat (repeat [zhong; 65292%N] 8))
  = Ok [concat (repeat [zhong; 65292%N] 6); concat (repeat [zhong; 65292%N] 2)]
  /\ new_len ucd float_1_8 (concat (repeat [zhong; 65292%N] 6)) = Ok 21.
Proof.
  split; vm_compute; reflexivity.
Qed.

(** C2, evaluated where it fails.  On two entries with no blank line
    between them the span of the first entry ends one line early, the
    first run leaves the msgstr line of that entry twice in the file,
    and the second run on that output raises ParseError.  On a header
    whose msgid has two empty fragments the first run writes the msgid
    as one fragment, so that the second run takes the entry for the
    header, wraps by paragraphs and changes the file again. *)
Theorem fix_twice_differs :
  fix_lines ucd None file_adjacent_entries 76 float_1_8 false
  = Ok ([msgid_line (lit "a"); msgstr_line (lit "b"); msgstr_line (lit "b");
         msgid_line (lit "c"); msgstr_line (lit "d")], true)
  /\ fix_lines ucd None
       [msgid_line (lit "a"); msgstr_line (lit "b"); msgstr_line (lit "b");
        msgid_line (lit "c"); msgstr_line (lit "d")] 76 float_1_8 false
     = Raise (ParseError (lit "line 2: Unexpected token"))
  /\ fix_lines ucd None file_split_header 20 float_1_8 false
     = Ok ([msgid_line []; msgstr_line [];
            quoted (lit "aaaa bbbb\ncccc "); quoted (lit "dddd eeee ffff")], true)
  /\ fix_lines ucd None
       [msgid_line []; msgstr_line [];
        quoted (lit "aaaa bbbb\ncccc "); quoted (lit "dddd eeee ffff")] 20 float_1_8 false
     = Ok ([msgid_line []; msgstr_line [];
            quoted (lit "aaaa bbbb\n"); quoted (lit "cccc dddd eeee ");
            quoted (lit "ffff")], true).
Proof.
  repeat split; vm_compute; reflexivity.
Qed.

(** C8, evaluated where it fails.  A fuzzy marker that follows an entry
    with no blank line is read by the loop of [_parse_entry] as a
    comment of that entry; the entry after the marker is then parsed
    from its msgid line like any other, and [fix] rewrites its lines:
    the msgstr line loses its trailing spaces. *)
Theorem fuzzy_entry_rewritten :
  fix_lines ucd None file_fuzzy_run_on 76 float_1_8 false
  = Ok ([msgid_line (lit "a"); msgstr_line (lit "b");
         lit "#, fuzzy";
         msgid_line (lit "c"); msgstr_line (lit "d")], true)
  /\ nth_error file_fuzzy_run_on 4 = Some (msgstr_line (lit "d") ++ lit "  ").
Proof.
  split; vm_compute; reflexivity.
Qed.

(** After a blank line the marker is seen by the loop of [parse]: the
    entry that follows is parsed and dropped, and [fix] leaves its lines
    as they are, while the entry before it is rewritten. *)
Example fuzzy_entry_apart_untouched :
  fix_lines ucd None file_fuzzy_apart 76 float_1_8 false
  = Ok ([msgid_line (lit "a"); msgstr_line (lit "b"); [];
         lit "#, fuzzy";
         msgid_line (lit "c"); msgstr_line (lit "d") ++ lit "  "], true).
Proof.
  vm_compute. reflexivity.
Qed.

(** ** The parser returns *)

Section ParserTotal.
Variable U : unicode_db.

Lemma __next___returns self :
  -1 <= lineno self ->
  exists item, __next__ self = Ok (set_lineno self (lineno self + 1), item).
Proof.
  intros H. unfold __next__. cbn [set_lineno lines lineno].
  destruct (builtin_len (lines self) <=? lineno self + 1) eqn:E; [eauto|].
  apply Z.leb_gt in E. unfold builtin_len in E. unfold getitem.
  replace (lineno self + 1 <? 0) with false by (symmetry; apply Z.ltb_ge; lia).
  destruct (nth_error (lines self) (Z.to_nat (lineno self + 1))) eqn:G; [eauto|].
  apply nth_error_None in G. lia.
Qed.

(** The bound of the loop of [_parse_entry] is not reached, and the
    cursor never indexes outside the lines. *)
Lemma entry_loop_returns fuel : forall self ids strs own temp start_line,
  -1 <= lineno self ->
  Z.max 0 (builtin_len (lines self) - lineno self - 1) < Z.of_nat fuel ->
  returns (entry_loop U fuel self ids strs own temp start_line).
Proof.
  induction fuel as [|fuel IH]; intros self ids strs own temp start_line Hl Hf; [lia|].
  cbn [entry_loop].
  destruct (__next___returns self Hl) as [item N]. pose proof N as N'.
  rewrite N. cbn [bind]. apply __next___inv in N'. destruct N' as [_ N'].
  assert (Hfin : forall s, returns (finish_entry s ids strs start_line)).
  { intros s. unfold finish_entry, parse_error. destruct strs; exact I. }
  destruct item as [line|]; [|apply Hfin].
  destruct N' as [N' _].
  assert (Hrec : forall ids' strs' own' temp' start',
             returns (entry_loop U fuel (set_lineno self (lineno self + 1))
                        ids' strs' own' temp' start')).
  { intros. apply IH; cbn [set_lineno lines lineno]; lia. }
  destruct (blank U line); [apply Hfin|].
  destruct (startswith line (lit "#")); [apply Hrec|].
  destruct (startswith line (lit "msgid")).
  { destruct (nonempty ids); [apply Hfin|].
    destruct (re_match MESSAGE_RE (slice_from line 6)); [apply Hrec | exact I]. }
  destruct (startswith line (lit "msgstr")).
  { destruct (nonempty strs); [apply Hfin|].
    destruct (re_match MESSAGE_RE (slice_from line 7)); [apply Hrec | exact I]. }
  destruct (re_match MESSAGE_RE line); [|exact I].
  destruct temp; apply Hrec.
Qed.

Lemma _parse_entry_returns self :
  -1 <= lineno self -> returns (_parse_entry U self).
Proof.
  intros H. unfold _parse_entry. apply entry_loop_returns; [exact H|].
  unfold loop_fuel, builtin_len. lia.
Qed.

Lemma parse_loop_returns fuel : forall self,
  -1 <= lineno self ->
  Z.max 0 (builtin_len (lines self) - lineno self - 1) < Z.of_nat fuel ->
  returns (parse_loop U fuel self).
Proof.
  induction fuel as [|fuel IH]; intros self Hl Hf; [lia|].
  cbn [parse_loop].
  destruct (__next___returns self Hl) as [item N]. pose proof N as N'.
  rewrite N. cbn [bind]. apply __next___inv in N'. destruct N' as [_ N'].
  destruct item as [line|]; [|exact I].
  destruct N' as [N' _].
  assert (Hrec : forall s, lines s = lines self -> lineno self + 1 <= lineno s ->
                           returns (parse_loop U fuel s)).
  { intros s Hs Hn. apply IH; [lia|]. rewrite Hs. lia. }
  assert (Hskip : forall s, lines s = lines self -> lineno self + 1 <= lineno s ->
             returns (if blank U line || startswith line (lit "#")
                      then parse_loop U fuel s
                      else if startswith line (lit "msgid")
                           then r <- _parse_entry U (set_lineno s (lineno s - 1)) ;;
                                parse_loop U fuel (append_entry (fst r) (snd r))
                           else parse_error s (lit "Unexpected token"))).
  { intros s Hs Hn.
    destruct (blank U line || startswith line (lit "#")); [apply Hrec; assumption|].
    destruct (startswith line (lit "msgid")); [|exact I].
    pose proof (@_parse_entry_returns (set_lineno s (lineno s - 1))) as He.
    cbn [set_lineno lineno] in He. specialize (He ltac:(lia)).
    destruct (_parse_entry U (set_lineno s (lineno s - 1))) as [[s3 e]|ex] eqn:P;
      cbn [bind]; [|exact He].
    unfold _parse_entry in P. apply entry_loop_inv in P. unfold entry_post in P.
    cbn [set_lineno lines lineno] in P.
    destruct P as (P1 & _ & _ & _ & _ & _ & _ & _ & _ & P10).
    specialize (P10 eq_refl).
    apply Hrec; cbn [append_entry lines lineno fst snd].
    - rewrite P1. exact Hs.
    - lia. }
  destruct (fuzzy_marker U line) eqn:Fz.
  - pose proof (@_parse_entry_returns (set_lineno self (lineno self + 1))) as He.
    cbn [set_lineno lineno] in He. specialize (He ltac:(lia)).
    destruct (_parse_entry U (set_lineno self (lineno self + 1))) as [[s2 e2]|ex] eqn:P;
      cbn [bind fst]; [|exact He].
    unfold _parse_entry in P. apply entry_loop_inv in P. unfold entry_post in P.
    cbn [set_lineno lines lineno] in P. destruct P as (P1 & _ & _ & _ & _ & P6 & _).
    apply Hskip; [exact P1 | exact P6].
  - cbn [bind]. apply Hskip; cbn [set_lineno lines lineno]; [reflexivity | lia].
Qed.

(** [parse] on a new source returns a source or raises ParseError. *)
Lemma parse_returns name ls : returns (parse U (Source_init name ls)).
Proof.
  unfold parse. cbn [Source_init lineno]. replace (0 <=? -1) with false by reflexivity.
  apply parse_loop_returns; cbn [Source_init lineno lines]; [lia|].
  unfold loop_fuel, builtin_len. cbn [Source_init lines]. lia.
Qed.
End ParserTotal.

(** More passes than needed change nothing. *)
Lemma parse_loop_more_fuel (U : unicode_db) fuel : forall self fuel',
  parse_loop U fuel self <> Raise Diverged -> (fuel <= fuel')%nat ->
  parse_loop U fuel' self = parse_loop U fuel self.
Proof.
  induction fuel as [|fuel IH]; intros self fuel' H Hf; [cbn in H; congruence|].
  destruct fuel' as [|fuel']; [lia|].
  cbn [parse_loop] in *.
  destruct (__next__ self) as [[s1 item]|ex]; cbn [bind] in *; [|reflexivity].
  destruct item as [line|]; [|reflexivity].
  destruct (if fuzzy_marker U line then _ else _) as [s2|ex]; cbn [bind] in *;
    [|reflexivity].
  destruct (blank U line || startswith line (lit "#")); [apply IH; [assumption|lia]|].
  destruct (startswith line (lit "msgid")); [|reflexivity].
  destruct (_parse_entry U _) as [r|ex]; cbn [bind] in *; [|reflexivity].
  apply IH; [assumption|lia].
Qed.

(** C7, as the code has it.  Whenever the loop of [parse] comes to the
    msgid line of an entry that has no msgstr, passing over blank lines
    and comments before it, [parse] raises ParseError, and the message
    names the line on which the cursor stands when the entry ends, which
    is where the error is detected: the index of the blank line after
    the entry, the number of lines when the entry runs to the end of the
    input, or the index of the line before a following msgid line.  The
    entry itself starts on line [length before_ + length skipped]; the
    first entry of a file is the case [n = 0], [before_ = []]. *)
Theorem missing_msgstr_names_cursor (U : unicode_db) (name : str)
        (before_ skipped : list str) (idline : str) (body rest : list str) (off : Z)
        (n : nat) (self : Source) :
  loop_reaches U (Source_init name (before_ ++ skipped ++ idline :: body ++ rest)) self n ->
  lines self = before_ ++ skipped ++ idline :: body ++ rest ->
  lineno self = Z.of_nat (length before_) - 1 ->
  Forall (skippable U) skipped ->
  blank U idline = false ->
  startswith idline (lit "msgid") = true ->
  re_match MESSAGE_RE (slice_from idline 6) <> None ->
  Forall (continuation_or_comment U) body ->
  entry_end U rest off ->
  parse U (Source_init name (before_ ++ skipped ++ idline :: body ++ rest))
  = Raise (ParseError
             (missing_msgstr_message
                (Z.of_nat (length before_ + length skipped) + 1
                 + Z.of_nat (length body) + off))).
Proof.
  intros Hr Hl Hn Hs Hbl Hm Hre Hb He.
  set (ls := before_ ++ skipped ++ idline :: body ++ rest) in *.
  pose proof (@parse_loop_skips U idline body rest off skipped 0 self before_
                Hs Hl Hn Hbl Hm Hre Hb He) as R.
  rewrite <- (Hr (length skipped + 1)%nat) in R.
  unfold parse. cbn [Source_init lineno]. replace (0 <=? -1) with false by reflexivity.
  rewrite <- R.
  destruct (Nat.le_ge_cases (n + (length skipped + 1)) (loop_fuel (Source_init name ls)))
    as [L|G].
  - apply parse_loop_more_fuel; [rewrite R; discriminate | exact L].
  - symmetry. apply parse_loop_more_fuel; [|exact G].
    pose proof (@parse_loop_returns U (loop_fuel (Source_init name ls))
                  (Source_init name ls)) as T.
    intros D. rewrite D in T. apply T; cbn [Source_init lineno lines]; [lia|].
    unfold loop_fuel, builtin_len. cbn [Source_init lines]. lia.
Qed.

Lemma missing_msgstr_names_cursor_witness :
  parse ucd (Source_init [] file_second_missing)
  = Raise (ParseError (missing_msgstr_message 5))
  /\ parse ucd (Source_init [] file_missing_msgstr)
     = Raise (ParseError (missing_msgstr_message 1)).
Proof.
  split.
  - apply (@missing_msgstr_names_cursor ucd []
             [msgid_line (lit "a"); msgstr_line (lit "b"); []] [lit "# c"]
             (msgid_line (lit "c")) [] [[]] 0 1
             (append_entry (set_lineno (Source_init [] file_second_missing) 2)
                {| span := {| start := 0; end_ := 2 |};
                   msgid := [lit "a"]; msgstr := [lit "b"] |})).
    + intros fuel. reflexivity.
    + reflexivity.
    + reflexivity.
    + constructor; [|constructor]. split; [reflexivity | right; reflexivity].
    + reflexivity.
    + reflexivity.
    + vm_compute. discriminate.
    + constructor.
    + apply end_blank. reflexivity.
  - apply (@missing_msgstr_names_cursor ucd [] [] [] (msgid_line (lit "a")) [] [[]] 0 0
             (Source_init [] file_missing_msgstr)).
    + intros fuel. reflexivity.
    + reflexivity.
    + reflexivity.
    + constructor.
    + reflexivity.
    + reflexivity.
    + vm_compute. discriminate.
    + constructor.
    + apply end_blank. reflexivity.
Defined.

(** C7 as stated fails: the entry of [file_missing_msgstr] starts on
    line 0, and the error names line 1, the blank line that ends it. *)
Lemma names_entry_start_fails : ~ names_entry_start ucd file_missing_msgstr 0.
Proof.
  unfold names_entry_start. vm_compute. discriminate.
Qed.

(** The line named can be the line on which the entry starts: an entry
    of one msgid line that the msgid line of the next entry ends. *)
Example missing_msgstr_before_msgid :
  parse ucd (Source_init [] file_missing_then_entry)
  = Raise (ParseError (missing_msgstr_message 0)).
Proof. vm_compute. reflexivity. Qed.

(** ** The formatter returns *)

Section FormatTotal.
Variable U : unicode_db.
Variable pangu : option (str -> str).

Lemma wrap_raises_cases (len : str -> result Z) w text e :
  len [] = Ok 0 -> wrap U len w text = Raise e ->
  (w <= 0 /\ e = ValueError) \/ (0 < w /\ exists s, len s = Raise e).
Proof.
  intros Hn H. destruct (Z_lt_le_dec 0 w) as [Hw|Hw].
  - right. split; [exact Hw|]. eapply wrap_raises; eassumption.
  - left. split; [exact Hw|]. unfold wrap, _wrap_chunks in H.
    apply Z.leb_le in Hw. rewrite Hw in H. congruence.
Qed.

Lemma wrap_paras_raises_cases (len : str -> result Z) w paras e :
  len [] = Ok 0 -> wrap_paras U len w paras = Raise e ->
  (w <= 0 /\ e = ValueError) \/ (0 < w /\ exists s, len s = Raise e).
Proof.
  intros Hn. induction paras as [|para rest IH]; cbn [wrap_paras]; [discriminate|].
  destruct (wrap U len w para) as [ls|e'] eqn:E; cbn [bind].
  - destruct (wrap_paras U len w rest) as [more|e']; cbn [bind]; [discriminate|].
    intros [= <-]. apply IH. reflexivity.
  - intros [= <-]. eapply wrap_raises_cases; eassumption.
Qed.

(** What [_format_text] can raise: IndexError for [lines[0]] on an
    empty list, ValueError from the wrapper at a width of 2 or less,
    and what a call of [len] raises. *)
Lemma _format_text_raises_cases (len : str -> result Z) self title lines width reformat e :
  len [] = Ok 0 ->
  _format_text U pangu len self title lines width reformat = Raise e ->
  (reformat = false /\ lines = [] /\ e = IndexError)
  \/ (reformat = true /\ width <= 2 /\ e = ValueError)
  \/ (reformat = true /\ exists s, len s = Raise e).
Proof.
  intros Hn. unfold _format_text. destruct reformat; cbn [negb].
  - intros H. right.
    assert (Hc : forall w, (w <= 0 /\ e = ValueError) \/ (0 < w /\ exists s, len s = Raise e) ->
                 w = width - 2 ->
                 (true = true /\ width <= 2 /\ e = ValueError)
                 \/ (true = true /\ exists s, len s = Raise e)).
    { intros w [[Hw ->]|[_ Hs]] ->; [left; repeat split; lia | right; auto]. }
    destruct (len title) as [a|e'] eqn:Ea; cbn [bind] in H;
      [|injection H as <-; right; eauto].
    destruct (len (process_text pangu lines)) as [b|e'] eqn:Eb; cbn [bind] in H;
      [|injection H as <-; right; eauto].
    destruct (a + b + 3 <=? width); [discriminate|].
    destruct (is_header (msgid self)).
    + destruct (wrap_paras U len (width - 2) _) as [ls|e'] eqn:W; cbn [bind] in H;
        [discriminate|].
      injection H as <-. apply (Hc (width - 2)); [|reflexivity].
      eapply wrap_paras_raises_cases; eassumption.
    + destruct (wrap U len (width - 2) _) as [ls|e'] eqn:W; cbn [bind] in H;
        [discriminate|].
      injection H as <-. apply (Hc (width - 2)); [|reflexivity].
      eapply wrap_raises_cases; eassumption.
  - destruct lines; [|discriminate]. intros [= <-]. left. auto.
Qed.

Lemma new_len_raises factor s e :
  new_len U factor s = Raise e -> e = OverflowError \/ e = ValueError.
Proof.
  unfold new_len, int. destruct (width_sum U factor s) as [n|[z|z| |z m x]];
    try discriminate; intros [= <-]; auto.
Qed.

(** What [format] can raise. *)
Lemma format_raises_cases self width factor no_msgid e :
  format U pangu self width factor no_msgid = Raise e ->
  (no_msgid = true /\ msgid self = [] /\ e = IndexError)
  \/ (width <= 2 /\ e = ValueError)
  \/ (exists s, new_len U factor s = Raise e).
Proof.
  unfold format. intros H.
  assert (Hc : forall title lines reformat,
             _format_text U pangu (new_len U factor) self title lines width reformat
             = Raise e ->
             (reformat = false /\ lines = [] /\ e = IndexError)
             \/ (width <= 2 /\ e = ValueError)
             \/ (exists s, new_len U factor s = Raise e)).
  { intros title lines reformat F.
    apply _format_text_raises_cases in F; [|apply new_len_nil].
    destruct F as [F|[(_ & F)|(_ & F)]]; auto. }
  destruct (_format_text U pangu (new_len U factor) self (lit "msgid") _ _ _)
    as [a|e'] eqn:A; cbn [bind] in H.
  - destruct (_format_text U pangu (new_len U factor) self (lit "msgstr") _ _ _)
      as [b|e'] eqn:B; cbn [bind] in H; [discriminate|].
    injection H as <-. apply Hc in B. destruct B as [(B & _)|B]; [discriminate | auto].
  - injection H as <-. apply Hc in A. destruct A as [(A1 & A2 & A3)|A]; [|auto].
    left. destruct no_msgid; [auto | discriminate].
Qed.

(** [format] never reaches the bound of a loop of the model. *)
Lemma format_not_diverged self width factor no_msgid :
  format U pangu self width factor no_msgid <> Raise Diverged.
Proof.
  intros H. apply format_raises_cases in H.
  destruct H as [(_ & _ & H)|[(_ & H)|(s & H)]]; try discriminate.
  apply new_len_raises in H. destruct H; discriminate.
Qed.
End FormatTotal.

(** * Further properties *)

(** ** Quote escaping is idempotent *)

Lemma escape_from_idempotent s : forall pb,
  escape_from pb (escape_from pb s) = escape_from pb s.
Proof.
  induction s as [|x s IH]; intros pb; [reflexivity|].
  cbn [escape_from].
  destruct (N.eqb x quote) eqn:Q.
  - apply N.eqb_eq in Q. subst x.
    replace (N.eqb quote backslash) with false by reflexivity.
    destruct pb; cbn [andb negb app escape_from].
    + replace (N.eqb quote quote) with true by reflexivity.
      replace (N.eqb quote backslash) with false by reflexivity.
      cbn [andb negb app]. rewrite IH. reflexivity.
    + replace (N.eqb backslash quote) with false by reflexivity.
      replace (N.eqb backslash backslash) with true by reflexivity.
      replace (N.eqb quote quote) with true by reflexivity.
      replace (N.eqb quote backslash) with false by reflexivity.
      cbn [andb negb app]. rewrite IH. reflexivity.
  - cbn [andb app escape_from]. rewrite Q. cbn [andb app]. rewrite IH. reflexivity.
Qed.

(** X1.  Escaping an escaped text changes nothing: after one pass every
    quote follows a backslash. *)
Theorem escape_quotes_idempotent (text : str) :
  escape_quotes (escape_quotes text) = escape_quotes text.
Proof.
  rewrite !escape_quotes_from. apply escape_from_idempotent.
Qed.

(** ** The display width in general *)

(** X2.  What the patched [len] gives on a [str], whatever the factor:
    the character count for a text without a wide, full-width or
    ambiguous character (the sum is then a sum of ints); for a text
    that starts with [m] such narrow characters, [int] of the float
    reached from [float(m)] by adding the items of the rest from left
    to right; and it raises nothing but OverflowError (the sum is an
    infinity, as for two wide characters under the factor [1e308]) and
    ValueError (the sum is a NaN). *)
Theorem new_len_outcomes (U : unicode_db) (factor : float) (text : str) :
  (narrow U text -> new_len U factor text = Ok (Z.of_nat (length text)))
  /\ (forall a c b, text = a ++ c :: b -> narrow U a -> is_full_width U c = true ->
      new_len U factor text
      = int (fold_left number_add
               (map (fun c => if is_full_width U c then PyFloat factor else PyInt 1) b)
               (PyFloat (float_add (float_of_int (Z.of_nat (length a))) factor))))
  /\ (forall e, new_len U factor text = Raise e -> e = OverflowError \/ e = ValueError)
  /\ new_len ucd float_1e308 [zhong; zhong] = Raise OverflowError
  /\ new_len ucd float_nan [zhong] = Raise ValueError.
Proof.
  split; [apply new_len_narrow|]. split; [|split; [|split; reflexivity]].
  - intros a c b -> Ha Hc. unfold new_len, width_sum, builtin_sum.
    rewrite map_app, fold_left_app. cbn [map fold_left]. rewrite Hc.
    pose proof (@width_sum_narrow_from U factor a 0 Ha) as Hs. rewrite Hs.
    cbn [number_add Z.add]. reflexivity.
  - intros e. apply new_len_raises.
Qed.

Lemma new_len_outcomes_witness :
  new_len ucd float_1_8 (lit "ab") = Ok 2
  /\ new_len ucd float_1_8 (lit "ab" ++ [zhong; zhong]) = Ok 5.
Proof.
  destruct (@new_len_outcomes ucd float_1_8 (lit "ab")) as (H1 & _).
  destruct (@new_len_outcomes ucd float_1_8 (lit "ab" ++ [zhong; zhong])) as (_ & H2 & _).
  split.
  - apply H1. repeat constructor.
  - rewrite (H2 (lit "ab") zhong [zhong] eq_refl); [reflexivity | repeat constructor
                                                     | reflexivity].
Defined.

(** ** A quoted line is read back *)

Lemma star_greedy_none (R : Type) p aft : forall bef g (k : cursor -> option R),
  (forall u v, aft = u ++ v ->
               k {| before := rev u ++ bef; after := v; group1 := g |} = None) ->
  star_greedy p bef aft g k = None.
Proof.
  induction aft as [|x rest IH]; intros bef g k H; cbn [star_greedy].
  - apply (H [] []). reflexivity.
  - assert (Hhere : k {| before := bef; after := x :: rest; group1 := g |} = None)
      by (apply (H [] (x :: rest)); reflexivity).
    destruct (p x); [|exact Hhere].
    rewrite IH; [exact Hhere|].
    intros u v E. specialize (H (x :: u) v). cbn [rev app] in H.
    rewrite <- app_assoc in H. apply H. rewrite E. reflexivity.
Qed.

Lemma star_greedy_deep (R : Type) (p : class) d : forall bef rest g (k : cursor -> option R) r,
  Forall (fun c => p c = true) d ->
  star_greedy p (rev d ++ bef) rest g k = Some r ->
  star_greedy p bef (d ++ rest) g k = Some r.
Proof.
  induction d as [|x d IH]; intros bef rest g k r Hd H; [exact H|].
  apply Forall_cons_iff in Hd. destruct Hd as [Hx Hd].
  cbn [app star_greedy]. rewrite Hx.
  rewrite (IH (x :: bef) rest g k r Hd); [reflexivity|].
  cbn [rev] in H. rewrite <- app_assoc in H. exact H.
Qed.

(** The end of [MESSAGE_RE]: the closing quote, spaces, the end. *)
Lemma message_tail_matches bef g n :
  rmatch (Seq (Chr (N.eqb quote)) (Seq (Star (is_char " ")) EndDollar))
    {| before := bef; after := quote :: repeat 32%N n; group1 := g |}
    (fun c' => Some c')
  = Some {| before := rev (repeat 32%N n) ++ quote :: bef; after := []; group1 := g |}.
Proof.
  cbn [rmatch after before group1 advance].
  replace (N.eqb quote quote) with true by reflexivity.
  cbn [before after group1].
  rewrite <- (app_nil_r (repeat 32%N n)) at 1.
  apply star_greedy_deep.
  - apply Forall_forall. intros y Hy. apply repeat_spec in Hy. subst y. reflexivity.
  - reflexivity.
Qed.

Lemma message_tail_fails_in_spaces (R : Type) bef g v n (k : cursor -> option R) :
  (exists u, repeat 32%N n = u ++ v) ->
  rmatch (Seq (Chr (N.eqb quote)) (Seq (Star (is_char " ")) EndDollar))
    {| before := bef; after := v; group1 := g |} k = None.
Proof.
  intros [u E]. cbn [rmatch after]. destruct v as [|y v]; [reflexivity|].
  assert (In y (repeat 32%N n)) by (rewrite E; apply in_or_app; right; left; reflexivity).
  apply repeat_spec in H. subst y. reflexivity.
Qed.

Lemma re_match_quoted (text : str) (n : nat) :
  Forall (fun c => c <> 10%N) text ->
  re_match MESSAGE_RE (quoted text ++ repeat 32%N n) = Some text.
Proof.
  intros Hnl. unfold re_match, MESSAGE_RE, quoted, cursor_at_start.
  set (tail := Seq (Chr (N.eqb quote)) (Seq (Star (is_char " ")) EndDollar)).
  cbn [app]. cbn [rmatch after before group1 advance].
  replace (N.eqb quote quote) with true by reflexivity.
  cbn [before after group1].
  rewrite <- app_assoc. cbn [app].
  match goal with |- context [star_greedy dot _ _ _ ?kk] => set (k := kk) end.
  assert (E : star_greedy dot [quote] (text ++ quote :: repeat 32%N n) None k
              = Some {| before := rev (repeat 32%N n) ++ quote :: rev text ++ [quote];
                        after := []; group1 := Some text |}).
  { apply star_greedy_deep.
    - eapply Forall_impl; [|exact Hnl]. intros c Hc. unfold dot.
      apply negb_true_iff, N.eqb_neq, Hc.
    - cbn [star_greedy]. replace (dot quote) with true by reflexivity.
      rewrite star_greedy_none.
      + subst k. cbn beta. cbn [before after].
        match goal with
        | |- context [text_between ?a ?b] =>
            assert (T : text_between a b = text)
              by (apply text_between_reach; split; reflexivity)
        end.
        rewrite T. subst tail. apply message_tail_matches.
      + intros u v Huv. subst k. cbn beta. cbn [before after]. subst tail.
        apply message_tail_fails_in_spaces with (n := n). eauto. }
  rewrite E. reflexivity.
Qed.

(** X3.  A line made of a quote, a text without newline, a quote and
    any number of spaces matches [MESSAGE_RE], and group 1 is the text:
    what [_format_text] writes between quotes is what [_parse_entry]
    reads, whatever quotes and backslashes the text holds. *)
Theorem message_re_reads_quoted (text : str) (n : nat) :
  Forall (fun c => c <> 10%N) text ->
  re_match MESSAGE_RE (quoted text ++ repeat 32%N n) = Some text.
Proof. exact (@re_match_quoted text n). Qed.

Lemma message_re_reads_quoted_witness :
  re_match MESSAGE_RE (quoted (lit "say \") ++ repeat 32%N 2) = Some (lit "say \").
Proof.
  apply (@message_re_reads_quoted (lit "say \") 2).
  repeat constructor; discriminate.
Defined.

(** ** Wrapped fields *)

(** X4.  A field that is wrapped (not of the header entry; the two
    calls of [len] in the test return and the test fails) is rendered,
    when [_format_text] returns, as [title ""] and quoted lines that,
    joined, are the processed text with its tabs expanded and its
    whitespace replaced by spaces: wrapping drops, adds and reorders
    nothing else.  At a width above 2 and with [len('') == 0] it does
    return, unless a call of [len] raises. *)
Theorem wrapped_field_keeps_text (U : unicode_db) (pangu : option (str -> str))
        (len : str -> result Z) (self : Entry) (title : str) (lines : list str)
        (width title_len text_len : Z) :
  len title = Ok title_len -> len (process_text pangu lines) = Ok text_len ->
  is_header (msgid self) = false ->
  ~ title_len + text_len + 3 <= width ->
  (forall out,
      _format_text U pangu len self title lines width true = Ok out ->
      exists ls : list str,
        out = titled title [] :: map quoted ls
        /\ concat ls = _munge_whitespace (process_text pangu lines))
  /\ (len [] = Ok 0 -> 2 < width ->
      (exists out, _format_text U pangu len self title lines width true = Ok out)
      \/ (exists s e, len s = Raise e
                      /\ _format_text U pangu len self title lines width true = Raise e)).
Proof.
  intros Ha Hb Hh Hfit.
  assert (Hf : _format_text U pangu len self title lines width true
               = (ls <- wrap U len (width - 2) (process_text pangu lines) ;;
                  Ok (titled title [] :: map quoted ls))).
  { unfold _format_text. cbn [negb]. rewrite Ha, Hb. cbn [bind].
    apply Z.leb_nle in Hfit. rewrite Hfit, Hh. reflexivity. }
  rewrite Hf. split.
  - intros out H.
    destruct (wrap U len (width - 2) _) as [ls|e] eqn:W; cbn [bind] in H; [|discriminate].
    injection H as <-. exists ls. split; [reflexivity|].
    eapply wrap_concat. eassumption.
  - intros Hnil Hw.
    destruct (wrap U len (width - 2) _) as [ls|e] eqn:W; cbn [bind]; [left; eauto|].
    right. apply wrap_raises in W; [|assumption|lia].
    destruct W as (s & W). exists s, e. auto.
Qed.

Lemma wrapped_field_keeps_text_witness :
  (forall out,
      _format_text ucd None (new_len ucd float_1_8) long_cjk_entry (lit "msgstr")
        [repeat zhong 20] 20 true = Ok out ->
      exists ls : list str,
        out = titled (lit "msgstr") [] :: map quoted ls
        /\ concat ls = _munge_whitespace (process_text None [repeat zhong 20]))
  /\ (new_len ucd float_1_8 [] = Ok 0 -> 2 < 20 ->
      (exists out,
          _format_text ucd None (new_len ucd float_1_8) long_cjk_entry (lit "msgstr")
            [repeat zhong 20] 20 true = Ok out)
      \/ (exists s e, new_len ucd float_1_8 s = Raise e
                      /\ _format_text ucd None (new_len ucd float_1_8) long_cjk_entry
                           (lit "msgstr") [repeat zhong 20] 20 true = Raise e)).
Proof.
  apply (@wrapped_field_keeps_text ucd None (new_len ucd float_1_8) long_cjk_entry
           (lit "msgstr") [repeat zhong 20] 20 6 36).
  - reflexivity.
  - vm_compute. reflexivity.
  - reflexivity.
  - lia.
Defined.

Lemma wrap_paras_narrow_fits (U : unicode_db) (factor : float) (w : Z) paras : forall out,
  0 < w -> is_full_width U 32%N = false -> Forall (narrow U) paras ->
  wrap_paras U (new_len U factor) w paras = Ok out ->
  Forall (fun l => narrow U l /\ Z.of_nat (length l) <= w) out.
Proof.
  induction paras as [|para rest IH]; intros out Hw Hsp Hn H; cbn [wrap_paras] in H.
  - injection H as <-. constructor.
  - apply Forall_cons_iff in Hn. destruct Hn as [Hp Hn].
    destruct (wrap U (new_len U factor) w para) as [ls|e] eqn:E; cbn [bind] in H;
      [|discriminate].
    destruct (wrap_paras U (new_len U factor) w rest) as [more|e] eqn:E2; cbn [bind] in H;
      [|discriminate].
    injection H as <-. apply Forall_app. split.
    + eapply wrap_narrow_fits; eauto.
    + apply IH; auto.
Qed.

(** X5.  Where the processed text has no wide, full-width or ambiguous
    character, every continuation line of a wrapped field is at most
    [width - 2] wide, for the header entry as for any other. *)
Theorem narrow_field_lines_fit (U : unicode_db) (pangu : option (str -> str))
        (factor : float) (self : Entry) (title : str) (lines : list str)
        (width title_len : Z) (out : list str) :
  is_full_width U 32%N = false ->
  narrow U (process_text pangu lines) ->
  new_len U factor title = Ok title_len ->
  ~ title_len + Z.of_nat (length (process_text pangu lines)) + 3 <= width ->
  _format_text U pangu (new_len U factor) self title lines width true = Ok out ->
  exists ls : list str,
    out = titled title [] :: map quoted ls
    /\ Forall (fun l => exists n, new_len U factor l = Ok n /\ n <= width - 2) ls.
Proof.
  intros Hsp Hn Ha Hfit H. unfold _format_text in H. cbn [negb] in H.
  rewrite Ha, (@new_len_narrow U factor _ Hn) in H. cbn [bind] in H.
  apply Z.leb_nle in Hfit. rewrite Hfit in H.
  assert (Hw : 0 < width - 2 \/ width - 2 <= 0) by lia.
  assert (Hfin : forall ls,
             Forall (fun l => narrow U l /\ Z.of_nat (length l) <= width - 2) ls ->
             Forall (fun l => exists n, new_len U factor l = Ok n /\ n <= width - 2) ls).
  { intros ls F. eapply Forall_impl; [|exact F]. cbn. intros l [Nl Ll].
    exists (Z.of_nat (length l)). split; [apply new_len_narrow, Nl | exact Ll]. }
  destruct (is_header (msgid self)).
  - destruct (wrap_paras U (new_len U factor) (width - 2) _) as [ls|e] eqn:E;
      cbn [bind] in H; [|discriminate].
    injection H as <-. exists ls. split; [reflexivity|].
    destruct Hw as [Hw|Hw].
    + apply Hfin.
      apply (@wrap_paras_narrow_fits U factor (width - 2)
               (header_paras (process_text pangu lines)) ls); auto.
      apply narrow_concat.
      destruct (header_paras_spec (process_text pangu lines)) as (_ & _ & _ & _ & C).
      rewrite C. exact Hn.
    + exfalso.
      destruct (header_paras_spec (process_text pangu lines)) as (ps & la & _ & P & _).
      rewrite P in E. destruct ps as [|p0 ps]; cbn [map app wrap_paras] in E;
        unfold wrap at 1, _wrap_chunks in E; apply Z.leb_le in Hw; rewrite Hw in E;
        discriminate E.
  - destruct (wrap U (new_len U factor) (width - 2) _) as [ls|e] eqn:E;
      cbn [bind] in H; [|discriminate].
    injection H as <-. exists ls. split; [reflexivity|].
    destruct Hw as [Hw|Hw].
    + apply Hfin. eapply wrap_narrow_fits; eauto.
    + exfalso. unfold wrap, _wrap_chunks in E. apply Z.leb_le in Hw. rewrite Hw in E.
      discriminate E.
Qed.

Lemma narrow_field_lines_fit_witness :
  exists ls : list str,
    [titled (lit "msgstr") []; quoted (lit "aaaa bbbb cccc "); quoted (lit "dddd eeee")]
    = titled (lit "msgstr") [] :: map quoted ls
    /\ Forall (fun l => exists n, new_len ucd float_1_8 l = Ok n /\ n <= 20 - 2) ls.
Proof.
  apply (@narrow_field_lines_fit ucd None float_1_8 long_cjk_entry (lit "msgstr")
           [lit "aaaa bbbb cccc dddd eeee"] 20 6).
  - reflexivity.
  - repeat constructor.
  - reflexivity.
  - apply Z.lt_nge. vm_compute. reflexivity.
  - vm_compute. reflexivity.
Defined.

(** ** Widths too small to wrap *)

Lemma _format_text_small_width (U : unicode_db) (pangu : option (str -> str))
      (len : str -> result Z) (self : Entry) (title : str) (lines : list str)
      (width title_len text_len : Z) :
  width <= 2 ->
  len title = Ok title_len -> len (process_text pangu lines) = Ok text_len ->
  0 <= title_len + text_len ->
  _format_text U pangu len self title lines width true = Raise ValueError.
Proof.
  intros Hw Ha Hb Hpos. unfold _format_text. cbn [negb]. rewrite Ha, Hb. cbn [bind].
  replace (_ <=? width) with false by (symmetry; apply Z.leb_gt; lia).
  assert (Hz : (width - 2 <=? 0) = true) by (apply Z.leb_le; lia).
  destruct (is_header (msgid self)).
  - destruct (header_paras_spec (process_text pangu lines)) as (ps & la & _ & P & _).
    rewrite P. destruct ps as [|p0 ps]; cbn [map app wrap_paras];
      unfold wrap at 1, _wrap_chunks; rewrite Hz; reflexivity.
  - unfold wrap, _wrap_chunks. rewrite Hz. reflexivity.
Qed.

(** X6.  At a width of 2 or less [format] raises ValueError for every
    entry for which the calls of the patched [len] in the single-line
    tests return widths that are not negative: no field passes the
    test, and the wrapper refuses the width [width - 2].  (With
    [no_msgid] the msgid must have a fragment, else its rendering
    raises IndexError first, and its width is not asked for.)  Under
    the factor [1e308] the width of two wide characters is not
    returned: the call raises OverflowError instead. *)
Theorem format_small_width_raises (U : unicode_db) (pangu : option (str -> str))
        (self : Entry) (width : Z) (factor : float) (no_msgid : bool)
        (id_len str_len : Z) :
  width <= 2 ->
  (if no_msgid then msgid self <> []
   else exists title_len,
          new_len U factor (lit "msgid") = Ok title_len
          /\ new_len U factor (process_text pangu (msgid self)) = Ok id_len
          /\ 0 <= title_len + id_len) ->
  (exists title_len,
      new_len U factor (lit "msgstr") = Ok title_len
      /\ new_len U factor (process_text pangu (msgstr self)) = Ok str_len
      /\ 0 <= title_len + str_len) ->
  format U pangu self width factor no_msgid = Raise ValueError
  /\ format ucd None long_cjk_entry 2 float_1e308 true = Raise OverflowError.
Proof.
  intros Hw Hm (ts & Hs1 & Hs2 & Hs3). split; [|vm_compute; reflexivity].
  unfold format. destruct no_msgid; cbn [negb].
  - unfold _format_text at 1. cbn [negb].
    destruct (msgid self); [congruence|]. cbn [bind].
    rewrite (@_format_text_small_width U pangu _ self _ _ width ts str_len) by assumption.
    reflexivity.
  - destruct Hm as (ti & Hi1 & Hi2 & Hi3).
    rewrite (@_format_text_small_width U pangu _ self _ _ width ti id_len) by assumption.
    reflexivity.
Qed.

Lemma format_small_width_raises_witness :
  format ucd None header_hello 2 float_1_8 false = Raise ValueError
  /\ format ucd None long_cjk_entry 2 float_1e308 true = Raise OverflowError.
Proof.
  apply (@format_small_width_raises ucd None header_hello 2 float_1_8 false 0 5).
  - lia.
  - exists 5. split; [reflexivity|]. split; [reflexivity | lia].
  - exists 6. split; [reflexivity|]. split; [reflexivity | lia].
Defined.

(** ** More on the parser *)

Section ParserMore.
Variable U : unicode_db.

Lemma set_lineno_same (self : Source) : set_lineno self (lineno self) = self.
Proof. destruct self; reflexivity. Qed.

(** The loop of [parse] passes over blank lines and comments. *)
Lemma parse_loop_skip_prefix skipped : forall fuel self before_ tail,
  Forall (skippable U) skipped ->
  lines self = before_ ++ skipped ++ tail ->
  lineno self = Z.of_nat (length before_) - 1 ->
  parse_loop U (length skipped + fuel) self
  = parse_loop U fuel
      (set_lineno self (Z.of_nat (length before_ + length skipped) - 1)).
Proof.
  induction skipped as [|x skipped IH]; intros fuel self before_ tail Hs Hl Hn.
  - cbn [length Nat.add]. rewrite Nat.add_0_r, <- Hn, set_lineno_same. reflexivity.
  - cbn [length Nat.add parse_loop]. cbn [app] in Hl.
    rewrite (__next___at _ _ _ _ Hl Hn). cbn [bind].
    apply Forall_cons_iff in Hs. destruct Hs as [[Hfz Hx] Hs].
    rewrite Hfz. cbn [bind].
    replace (blank U x || startswith x (lit "#")) with true
      by (destruct Hx as [-> | ->]; [reflexivity | symmetry; apply orb_true_r]).
    rewrite (IH fuel _ (before_ ++ [x]) tail); auto.
    + cbn [set_lineno]. rewrite length_app. cbn [length].
      replace (length before_ + 1 + length skipped)%nat
        with (length before_ + S (length skipped))%nat by lia.
      reflexivity.
    + cbn [set_lineno lines]. rewrite Hl, <- app_assoc. reflexivity.
    + cbn [set_lineno lineno]. rewrite length_app. cbn [length]. lia.
Qed.

(** More of what a successful run of the loop of [_parse_entry] leaves:
    the cursor is within the file, and the fragments gathered before are
    kept. *)
Lemma entry_loop_more fuel : forall self ids strs own temp start_line self' e,
  entry_loop U fuel self ids strs own temp start_line = Ok (self', e) ->
  (lineno self + 1 <= builtin_len (lines self) ->
   lineno self' <= builtin_len (lines self))
  /\ (exists a, msgid e = ids ++ a) /\ (exists b, msgstr e = strs ++ b).
Proof.
  induction fuel as [|fuel IH]; intros self ids strs own temp start_line self' e H;
    [discriminate|].
  cbn [entry_loop] in H.
  destruct (__next__ self) as [[s1 item]|ex] eqn:N; cbn [bind] in H; [|discriminate].
  apply __next___inv in N. destruct N as [-> N].
  assert (Hfin : forall back,
             (back = 0 \/ back = 1) ->
             finish_entry (set_lineno (set_lineno self (lineno self + 1))
                             (lineno self + 1 - back)) ids strs start_line
             = Ok (self', e) ->
             (lineno self + 1 <= builtin_len (lines self) ->
              lineno self' <= builtin_len (lines self))
             /\ (exists a, msgid e = ids ++ a) /\ (exists b, msgstr e = strs ++ b)).
  { intros back Hb F. apply finish_entry_inv in F. destruct F as (-> & -> & Hs).
    cbn. repeat split; try lia; exists []; rewrite app_nil_r; reflexivity. }
  assert (Hfin0 : finish_entry (set_lineno self (lineno self + 1)) ids strs start_line
                  = Ok (self', e) ->
                  (lineno self + 1 <= builtin_len (lines self) ->
                   lineno self' <= builtin_len (lines self))
                  /\ (exists a, msgid e = ids ++ a) /\ (exists b, msgstr e = strs ++ b)).
  { intros F. apply (Hfin 0); [auto|].
    replace (lineno self + 1 - 0) with (lineno self + 1) by lia.
    destruct self; exact F. }
  destruct item as [line|]; [|apply Hfin0, H].
  destruct N as [Nl _].
  assert (Hrec : forall ia sb own' temp' start',
             entry_loop U fuel (set_lineno self (lineno self + 1)) (ids ++ ia) (strs ++ sb)
               own' temp' start' = Ok (self', e) ->
             (lineno self + 1 <= builtin_len (lines self) ->
              lineno self' <= builtin_len (lines self))
             /\ (exists a, msgid e = ids ++ a) /\ (exists b, msgstr e = strs ++ b)).
  { intros ia sb own' temp' start' R. apply IH in R.
    cbn [set_lineno lines lineno] in R. destruct R as (R1 & [a Ra] & [b Rb]).
    split; [intros _; apply R1; lia|].
    split; [exists (ia ++ a) | exists (sb ++ b)]; rewrite app_assoc; assumption. }
  assert (Hrec0 : forall own' temp' start',
             entry_loop U fuel (set_lineno self (lineno self + 1)) ids strs
               own' temp' start' = Ok (self', e) -> _)
    by (intros own' temp' start' R; apply (Hrec [] [] own' temp' start');
        rewrite !app_nil_r; exact R).
  assert (Hreci : forall m own' temp' start',
             entry_loop U fuel (set_lineno self (lineno self + 1)) (ids ++ [m]) strs
               own' temp' start' = Ok (self', e) -> _)
    by (intros m own' temp' start' R; apply (Hrec [m] [] own' temp' start');
        rewrite !app_nil_r; exact R).
  assert (Hrecs : forall m own' temp' start',
             entry_loop U fuel (set_lineno self (lineno self + 1)) ids (strs ++ [m])
               own' temp' start' = Ok (self', e) -> _)
    by (intros m own' temp' start' R; apply (Hrec [] [m] own' temp' start');
        rewrite !app_nil_r; exact R).
  destruct (blank U line); [apply Hfin0, H|].
  destruct (startswith line (lit "#")); [eapply Hrec0, H|].
  destruct (startswith line (lit "msgid")).
  { destruct (nonempty ids); [apply (Hfin 1); auto|].
    destruct (re_match MESSAGE_RE (slice_from line 6)); [|discriminate].
    eapply Hreci, H. }
  destruct (startswith line (lit "msgstr")).
  { destruct (nonempty strs); [apply (Hfin 1); auto|].
    destruct (re_match MESSAGE_RE (slice_from line 7)); [|discriminate].
    eapply Hrecs, H. }
  destruct (re_match MESSAGE_RE line); [|discriminate].
  destruct temp; [eapply Hrec0, H | eapply Hreci, H | eapply Hrecs, H].
Qed.
(** An entry that [parse] starts at a [msgid] line is well formed. *)
Lemma _parse_entry_at_msgid_wf self line self' e :
  getitem (lines self) (lineno self) = Some line ->
  0 <= lineno self < builtin_len (lines self) ->
  blank U line = false ->
  startswith line (lit "#") = false ->
  startswith line (lit "msgid") = true ->
  _parse_entry U (set_lineno self (lineno self - 1)) = Ok (self', e) ->
  entry_wf (builtin_len (lines self)) e.
Proof.
  intros G L B C M H. unfold _parse_entry, loop_fuel in H.
  remember (S (length (lines (set_lineno self (lineno self - 1))))) as fuel eqn:Hfuel.
  clear Hfuel. cbn [entry_loop] in H.
  destruct (__next__ (set_lineno self (lineno self - 1))) as [[s1 item]|ex] eqn:N;
    cbn [bind] in H; [|discriminate].
  apply __next___inv in N. cbn [set_lineno lineno lines] in N.
  replace (lineno self - 1 + 1) with (lineno self) in N by lia.
  destruct N as [-> N]. destruct item as [line'|]; [|lia].
  destruct N as [_ N]. rewrite G in N. injection N as <-.
  rewrite B, C, M in H. cbn [nonempty] in H.
  destruct (re_match MESSAGE_RE (slice_from line 6)) as [m|]; [|discriminate].
  pose proof (@entry_loop_inv U _ _ _ _ _ _ _ _ _ H) as P.
  apply entry_loop_more in H. unfold entry_post in P.
  cbn [set_lineno lines _entries _original filename lineno app] in P, H.
  destruct P as (_ & _ & _ & _ & P5 & _ & P7 & _ & P9 & P10).
  destruct H as (H1 & [a Ha] & _).
  specialize (P7 ltac:(discriminate)). specialize (P10 eq_refl).
  specialize (H1 ltac:(lia)).
  unfold entry_wf. rewrite P7, P5, Ha. repeat split; try lia; try assumption.
  discriminate.
Qed.

(** The loop of [parse] gathers well-formed entries only, keeps the
    lines, and ends with the cursor at or after line 0. *)
Lemma parse_loop_wf fuel : forall self self',
  parse_loop U fuel self = Ok self' ->
  -1 <= lineno self ->
  Forall (entry_wf (builtin_len (lines self))) (_entries self) ->
  Forall (entry_wf (builtin_len (lines self))) (_entries self')
  /\ 0 <= lineno self' /\ lines self' = lines self.
Proof.
  induction fuel as [|fuel IH]; intros self self' H Hl F; [discriminate|].
  cbn [parse_loop] in H.
  destruct (__next__ self) as [[s1 item]|ex] eqn:N; cbn [bind] in H; [|discriminate].
  apply __next___inv in N. destruct N as [-> N].
  destruct item as [line|];
    [|injection H as <-; cbn [set_lineno _entries lineno lines]; repeat split; auto; lia].
  destruct N as [Nl Ng].
  destruct (fuzzy_marker U line) eqn:Fz.
  - destruct (_parse_entry U (set_lineno self (lineno self + 1))) as [[s2 e2]|ex] eqn:P;
      cbn [bind fst] in H; [|discriminate].
    rewrite (@startswith_fuzzy_comment U line Fz), orb_true_r in H.
    unfold _parse_entry in P. apply entry_loop_inv in P. unfold entry_post in P.
    cbn [set_lineno lines _entries _original filename lineno] in P.
    destruct P as (P1 & P2 & _ & _ & _ & P6 & _).
    apply IH in H.
    + rewrite !P1 in H. exact H.
    + lia.
    + rewrite P1, P2. exact F.
  - cbn [bind] in H.
    destruct (blank U line || startswith line (lit "#")) eqn:Skip.
    + apply IH in H; cbn [set_lineno lines _entries lineno] in *; auto. lia.
    + apply orb_false_elim in Skip. destruct Skip as [Bl Cm].
      destruct (startswith line (lit "msgid")) eqn:M; [|discriminate].
      destruct (_parse_entry U _) as [[s3 e]|ex] eqn:P; cbn [bind fst snd] in H;
        [|discriminate].
      pose proof P as P'.
      apply (@_parse_entry_at_msgid U (set_lineno self (lineno self + 1)) line) in P;
        auto.
      apply (@_parse_entry_at_msgid_wf (set_lineno self (lineno self + 1)) line) in P';
        cbn [set_lineno lines lineno]; auto; [|lia].
      cbn [set_lineno lines _entries _original filename lineno] in P, P'.
      destruct P as (P1 & P2 & _ & _ & _ & _ & P7 & _).
      apply IH in H; cbn [append_entry lines _entries _original lineno] in *.
      * rewrite P1 in H. exact H.
      * lia.
      * rewrite P1, P2. apply Forall_app. split; [exact F|]. constructor; auto.
Qed.

End ParserMore.

(** X7.  Every entry that [parse] returns has a span that lies within
    the file and is not empty, [0 <= start < end <= len(lines)], and has
    at least one msgid fragment and one msgstr fragment. *)
Theorem parsed_entries_well_formed (U : unicode_db) (name : str) (ls : list str)
        (src : Source) :
  parse U (Source_init name ls) = Ok src ->
  Forall (entry_wf (Z.of_nat (length ls))) (_entries src).
Proof.
  unfold parse. cbn [Source_init lineno]. replace (0 <=? -1) with false by reflexivity.
  intros H. apply parse_loop_wf in H; cbn [Source_init lineno _entries lines] in *.
  - apply H.
  - lia.
  - constructor.
Qed.

Lemma parsed_entries_well_formed_witness :
  exists src, parse ucd (Source_init [] file_two_entries) = Ok src
              /\ Forall (entry_wf 5) (_entries src).
Proof.
  assert (E : exists src, parse ucd (Source_init [] file_two_entries) = Ok src)
    by (vm_compute; eexists; reflexivity).
  destruct E as [src E]. exists src. split; [exact E|].
  exact (@parsed_entries_well_formed ucd [] file_two_entries src E).
Defined.

(** X8.  A source can be parsed once: after a successful [parse] the
    cursor is at line 0 or later, and a second [parse] of that source
    raises RuntimeError. *)
Theorem parse_twice_raises (U : unicode_db) (name : str) (ls : list str) (src : Source) :
  parse U (Source_init name ls) = Ok src ->
  parse U src = Raise RuntimeError.
Proof.
  unfold parse at 1. cbn [Source_init lineno].
  replace (0 <=? -1) with false by reflexivity.
  intros H. apply parse_loop_wf in H; cbn [Source_init lineno _entries lines] in *.
  - destruct H as (_ & H & _). unfold parse.
    apply Z.leb_le in H. rewrite H. reflexivity.
  - lia.
  - constructor.
Qed.

Lemma parse_twice_raises_witness :
  exists src, parse ucd (Source_init [] file_two_entries) = Ok src
              /\ parse ucd src = Raise RuntimeError.
Proof.
  assert (E : exists src, parse ucd (Source_init [] file_two_entries) = Ok src)
    by (vm_compute; eexists; reflexivity).
  destruct E as [src E]. exists src. split; [exact E|].
  exact (@parse_twice_raises ucd [] file_two_entries src E).
Defined.

(** ** Files without entries, and garbage *)

Lemma not_comment_not_fuzzy (U : unicode_db) line :
  startswith line (lit "#") = false -> fuzzy_marker U line = false.
Proof.
  intros H. destruct (fuzzy_marker U line) eqn:F; [|reflexivity].
  apply startswith_fuzzy_comment in F. congruence.
Qed.

Lemma lines_eqb_refl (ls : list str) : lines_eqb ls ls = true.
Proof.
  assert (R : forall s : str, str_eqb s s = true).
  { induction s as [|x s IH]; [reflexivity|]. cbn [str_eqb].
    rewrite N.eqb_refl, IH. reflexivity. }
  induction ls as [|l ls IH]; [reflexivity|]. cbn [lines_eqb]. rewrite R, IH. reflexivity.
Qed.

Lemma parse_fuel_split (name : str) (a b : list str) :
  loop_fuel (Source_init name (a ++ b)) = (length a + S (S (length b)))%nat.
Proof.
  unfold loop_fuel. cbn [Source_init lines]. rewrite length_app. lia.
Qed.

(** X9.  When the first line of a file that is neither blank nor a
    comment does not start with msgid, [parse] raises ParseError with
    the message [line N: Unexpected token], [N] being the 0-based index
    of that line. *)
Theorem unexpected_token_reported (U : unicode_db) (name : str)
        (skipped : list str) (bad : str) (rest : list str) :
  Forall (skippable U) skipped ->
  unexpected U bad ->
  parse U (Source_init name (skipped ++ bad :: rest))
  = Raise (ParseError
             (error_message (Z.of_nat (length skipped)) (lit "Unexpected token"))).
Proof.
  intros Hs (Hb & Hc & Hm). unfold parse.
  cbn [Source_init lineno]. replace (0 <=? -1) with false by reflexivity.
  rewrite parse_fuel_split.
  rewrite (@parse_loop_skip_prefix U skipped _ _ [] (bad :: rest)); auto.
  cbn [parse_loop app length Nat.add].
  rewrite (@__next___at _ skipped bad rest) by (cbn [set_lineno lines lineno]; auto).
  cbn [bind]. rewrite (not_comment_not_fuzzy U _ Hc). cbn [bind].
  rewrite Hb, Hc, Hm. cbn [orb]. reflexivity.
Qed.

Lemma unexpected_token_reported_witness :
  parse ucd (Source_init [] ([lit "# a comment"; []] ++ lit "junk" :: []))
  = Raise (ParseError (error_message 2 (lit "Unexpected token"))).
Proof.
  apply (@unexpected_token_reported ucd [] [lit "# a comment"; []] (lit "junk") []).
  - apply Forall_cons; [split; [reflexivity | right; reflexivity]|].
    apply Forall_cons; [split; [reflexivity | left; reflexivity]|]. constructor.
  - repeat split.
Defined.

(** X10.  When a file starts with blank lines and comments, none of
    them the fuzzy marker, and then has a line that starts with msgid
    but has no quoted text after the keyword (as a msgid_plural line
    has at the start of an entry), [parse] raises ParseError with the
    message that asks for [msgid "..."], naming that line. *)
Theorem malformed_msgid_reported (U : unicode_db) (name : str)
        (skipped : list str) (idline : str) (rest : list str) :
  Forall (skippable U) skipped ->
  blank U idline = false ->
  startswith idline (lit "msgid") = true ->
  re_match MESSAGE_RE (slice_from idline 6) = None ->
  parse U (Source_init name (skipped ++ idline :: rest))
  = Raise (ParseError (error_message (Z.of_nat (length skipped)) expect_msgid)).
Proof.
  intros Hs Hb Hm Hre. unfold parse.
  cbn [Source_init lineno]. replace (0 <=? -1) with false by reflexivity.
  rewrite parse_fuel_split.
  rewrite (@parse_loop_skip_prefix U skipped _ _ [] (idline :: rest)); auto.
  destruct (startswith_msgid_not_comment U _ Hm) as [Hc Hfz].
  cbn [parse_loop app length Nat.add].
  rewrite (@__next___at _ skipped idline rest) by (cbn [set_lineno lines lineno]; auto).
  cbn [bind]. rewrite Hfz. cbn [bind]. rewrite Hb, Hc, Hm. cbn [orb].
  unfold _parse_entry, loop_fuel. cbn [set_lineno lines lineno].
  remember (S (length (skipped ++ idline :: rest))) as f eqn:Hf. cbn [entry_loop].
  rewrite (@__next___at _ skipped idline rest) by (cbn [set_lineno lines lineno]; auto).
  cbn [bind]. rewrite Hb, Hc, Hm, Hre. cbn [nonempty bind]. reflexivity.
Qed.

Lemma malformed_msgid_reported_witness :
  parse ucd (Source_init [] ([] ++ (lit "msgid_plural " ++ quoted (lit "cats")) :: []))
  = Raise (ParseError (error_message 0 expect_msgid)).
Proof.
  apply (@malformed_msgid_reported ucd [] [] (lit "msgid_plural " ++ quoted (lit "cats")) []).
  - constructor.
  - reflexivity.
  - reflexivity.
  - reflexivity.
Defined.

(** X11.  A file of blank lines and comments only (none of them the
    fuzzy marker) has no entry: [parse] returns an empty list of
    entries, and [fix] leaves the lines as they are and returns False,
    whatever the width and the factor. *)
Theorem comments_only_unchanged (U : unicode_db) (pangu : option (str -> str))
        (ls : list str) (width : Z) (factor : float) (no_msgid : bool) :
  Forall (skippable U) ls ->
  (exists src, parse U (Source_init [] ls) = Ok src /\ _entries src = [])
  /\ fix_lines U pangu ls width factor no_msgid = Ok (ls, false).
Proof.
  intros Hs.
  assert (P : parse U (Source_init [] ls)
              = Ok (set_lineno (Source_init [] ls) (Z.of_nat (length ls)))).
  { unfold parse. cbn [Source_init lineno]. replace (0 <=? -1) with false by reflexivity.
    rewrite <- (app_nil_r ls) at 1. rewrite parse_fuel_split.
    rewrite (@parse_loop_skip_prefix U ls _ _ [] []); auto;
      [|cbn [Source_init lines app]; rewrite app_nil_r; reflexivity].
    cbn [parse_loop length Nat.add].
    rewrite __next___end; cbn [set_lineno Source_init lines lineno bind]; [reflexivity|].
    lia. }
  split.
  - eexists. split; [exact P | reflexivity].
  - unfold fix_lines, fix_. rewrite P. cbn [bind set_lineno Source_init _entries rev fix_loop].
    unfold diff. cbn [_original lines fst snd]. rewrite lines_eqb_refl. reflexivity.
Qed.

Lemma comments_only_unchanged_witness :
  (exists src, parse ucd (Source_init [] [lit "# only a comment"; []]) = Ok src
               /\ _entries src = [])
  /\ fix_lines ucd None [lit "# only a comment"; []] 76 float_1_8 false
     = Ok ([lit "# only a comment"; []], false).
Proof.
  apply (@comments_only_unchanged ucd None [lit "# only a comment"; []] 76 float_1_8 false).
  apply Forall_cons; [split; [reflexivity | right; reflexivity]|].
  apply Forall_cons; [split; [reflexivity | left; reflexivity]|]. constructor.
Defined.

(** ** The splices of [fix] rebuild the file *)

Lemma slice_assign_in_range {A} (l : list A) (i j : Z) (r : list A) :
  0 <= i -> i <= j -> j <= Z.of_nat (length l) ->
  slice_assign l i j r = firstn (Z.to_nat i) l ++ r ++ skipn (Z.to_nat j) l.
Proof.
  intros Hi Hij Hj. unfold slice_assign, slice_bound.
  replace (i <? 0) with false by (symmetry; apply Z.ltb_ge; lia).
  replace (j <? 0) with false by (symmetry; apply Z.ltb_ge; lia).
  replace (Z.to_nat (Z.min (Z.max i 0) (Z.of_nat (length l)))) with (Z.to_nat i) by lia.
  replace (Z.to_nat (Z.min (Z.max j 0) (Z.of_nat (length l)))) with (Z.to_nat j) by lia.
  replace (Nat.max (Z.to_nat i) (Z.to_nat j)) with (Z.to_nat j) by lia.
  reflexivity.
Qed.

Lemma firstn_split_at {A} (l : list A) (k s : nat) :
  (k <= s)%nat -> firstn k l ++ firstn (s - k) (skipn k l) = firstn s l.
Proof.
  intros H. rewrite <- (firstn_skipn k l) at 3.
  rewrite firstn_app, length_firstn.
  destruct (Nat.le_gt_cases k (length l)) as [L|G].
  - rewrite Nat.min_l by assumption. rewrite firstn_firstn, Nat.min_r by assumption.
    reflexivity.
  - rewrite Nat.min_r by lia. rewrite (firstn_all2 (n := s)) by (rewrite length_firstn; lia).
    rewrite skipn_all2 by lia. rewrite !firstn_nil. reflexivity.
Qed.

(** Splicing the spans of a chain from the last to the first gives the
    one-pass rebuild. *)
Lemma splices_rebuild ls parts : forall k,
  spans_chain k (length ls) parts ->
  fold_right (fun p acc => splice acc p) ls parts = firstn k ls ++ rebuild ls k parts.
Proof.
  induction parts as [|[sp new] rest IH]; intros k H; cbn [fold_right rebuild].
  - symmetry. apply firstn_skipn.
  - cbn [spans_chain] in H. destruct H as (Hk & Hse & Hc).
    rewrite (IH _ Hc). unfold splice. cbn [fst snd].
    assert (He : (Z.to_nat (end_ sp) <= length ls)%nat).
    { clear - Hc. revert Hc. generalize (Z.to_nat (end_ sp)).
      induction rest as [|[sp' new'] rest IHr]; intros n Hc; cbn [spans_chain] in Hc;
        [exact Hc|].
      destruct Hc as (H1 & H2 & H3). apply IHr in H3. lia. }
    set (M := firstn (Z.to_nat (end_ sp)) ls ++ rebuild ls (Z.to_nat (end_ sp)) rest).
    assert (Hlen : length (firstn (Z.to_nat (end_ sp)) ls) = Z.to_nat (end_ sp))
      by (rewrite length_firstn; lia).
    rewrite slice_assign_in_range; try lia;
      [|subst M; rewrite length_app, Hlen; lia].
    subst M.
    rewrite firstn_app, Hlen, firstn_firstn.
    replace (Z.to_nat (start sp) - Z.to_nat (end_ sp))%nat with O by lia.
    rewrite Nat.min_l by lia. cbn [firstn]. rewrite app_nil_r.
    rewrite skipn_app, Hlen, Nat.sub_diag. cbn [skipn].
    rewrite (skipn_all2 (n := Z.to_nat (end_ sp))) by (rewrite Hlen; lia).
    cbn [app].
    rewrite <- (@firstn_split_at _ ls k (Z.to_nat (start sp))) by lia.
    rewrite <- !app_assoc. reflexivity.
Qed.

Section FixFacts.
Variable U : unicode_db.
Variable pangu : option (str -> str).

(** What the loop of [fix] does to the lines, entry by entry. *)
Lemma fix_loop_spec (w : Z) (f : float) (nm : bool) r : forall self self',
  fix_loop U pangu r self w f nm = Ok self' ->
  exists parts : list (Entry * list str),
    map fst parts = r
    /\ Forall (fun p => format U pangu (fst p) w f nm = Ok (snd p)) parts
    /\ lines self' = fold_left (fun acc p => splice acc (as_part p)) parts (lines self)
    /\ _original self' = _original self /\ lineno self' = lineno self
    /\ _entries self' = _entries self.
Proof.
  induction r as [|e r IH]; intros self self' H; cbn [fix_loop] in H.
  - injection H as <-. exists []. repeat split; auto.
  - destruct (format U pangu e w f nm) as [new|ex] eqn:E; cbn [bind] in H; [|discriminate].
    apply IH in H. destruct H as (parts & Hm & Hf & Hl & Ho & Hn & He).
    exists ((e, new) :: parts). cbn [map fst fold_left]. rewrite Hm.
    repeat split; auto.
Qed.

Lemma chain_of_ordered (n : nat) (parts : list (Entry * list str)) : forall lo k,
  ordered_from lo (map fst parts) ->
  Z.of_nat k <= lo -> (k <= n)%nat ->
  Forall (fun p => end_ (span (fst p)) <= Z.of_nat n) parts ->
  spans_chain k n (map as_part parts).
Proof.
  induction parts as [|[e new] parts IH]; intros lo k O Hk Hn F;
    cbn [map spans_chain as_part fst snd]; [exact Hn|].
  cbn [map fst ordered_from] in O. destruct O as (O1 & O2 & O3).
  apply Forall_cons_iff in F. destruct F as [Fe F]. cbn [fst] in Fe.
  repeat split; try lia.
  apply (IH (end_ (span e) + 1)); auto; lia.
Qed.
End FixFacts.

(** X12.  When [fix] succeeds, the lines it leaves are the original
    lines rebuilt in one pass: with every entry that [parse] found
    formatted, the lines outside the spans are kept as they are and in
    their order, and the lines of each span are replaced by the
    formatted entry; the returned flag says whether these lines differ
    from the original ones.  Splicing from the last entry to the first
    is what makes the spans, which index the original lines, stay
    right. *)
Theorem fix_rebuilds_file (U : unicode_db) (pangu : option (str -> str))
        (name : str) (ls : list str) (width : Z) (factor : float) (no_msgid : bool)
        (src' : Source) (changed : bool) :
  fix_ U pangu (Source_init name ls) width factor no_msgid = Ok (src', changed) ->
  exists (src : Source) (parts : list (Entry * list str)),
    parse U (Source_init name ls) = Ok src
    /\ map fst parts = _entries src
    /\ Forall (fun p => format U pangu (fst p) width factor no_msgid = Ok (snd p)) parts
    /\ lines src' = rebuild ls 0 (map as_part parts)
    /\ changed = negb (lines_eqb ls (lines src')).
Proof.
  unfold fix_. intros H.
  destruct (parse U (Source_init name ls)) as [src|ex] eqn:P; cbn [bind] in H;
    [|discriminate].
  destruct (fix_loop U pangu (rev (_entries src)) src width factor no_msgid)
    as [s2|ex] eqn:F; cbn [bind] in H; [|discriminate].
  injection H as <- <-.
  apply fix_loop_spec in F. destruct F as (parts & Hm & Hf & Hl & Ho & _ & _).
  pose proof P as Pwf.
  unfold parse in Pwf, P. cbn [Source_init lineno] in Pwf, P.
  replace (0 <=? -1) with false in Pwf, P by reflexivity.
  apply parse_loop_wf in Pwf; cbn [Source_init lineno _entries lines]; [|lia|constructor].
  cbn [Source_init lines] in Pwf. destruct Pwf as (Pwf & _ & _).
  apply parse_loop_inv in P; cbn [Source_init lineno _entries]; auto; [|lia|exact I].
  cbn [Source_init lines _original] in P. destruct P as (Po & Pl & Porig).
  assert (Hmap : map fst (rev parts) = _entries src)
    by (rewrite map_rev, Hm; apply rev_involutive).
  exists src, (rev parts).
  split; [reflexivity|]. split; [exact Hmap|]. split; [apply Forall_rev, Hf|].
  split.
  - rewrite Hl, Pl.
    transitivity (fold_right (fun p acc => splice acc p) ls (map as_part (rev parts))).
    { rewrite <- (fold_left_rev_right (fun p acc => splice acc (as_part p)) parts ls).
      clear. induction (rev parts) as [|p ps IH]; [reflexivity|].
      cbn [map fold_right]. rewrite IH. reflexivity. }
    rewrite (@splices_rebuild ls (map as_part (rev parts)) 0); [reflexivity|].
    apply (@chain_of_ordered (length ls) (rev parts) 0 0); try lia.
    + rewrite Hmap. exact Po.
    + rewrite <- Hmap in Pwf. clear - Pwf.
      induction (rev parts) as [|p ps IH]; [constructor|].
      cbn [map] in Pwf. apply Forall_cons_iff in Pwf. destruct Pwf as [Pp Pps].
      constructor; [|apply IH, Pps]. unfold entry_wf in Pp. unfold builtin_len in Pp. lia.
  - unfold diff. rewrite Ho, Porig. reflexivity.
Qed.

Lemma fix_rebuilds_file_witness :
  exists (src' : Source) (changed : bool) (src : Source) (parts : list (Entry * list str)),
    fix_ ucd None (Source_init [] file_two_entries) 76 float_1_8 false = Ok (src', changed)
    /\ parse ucd (Source_init [] file_two_entries) = Ok src
    /\ map fst parts = _entries src
    /\ Forall (fun p => format ucd None (fst p) 76 float_1_8 false = Ok (snd p)) parts
    /\ lines src' = rebuild file_two_entries 0 (map as_part parts)
    /\ changed = negb (lines_eqb file_two_entries (lines src')).
Proof.
  assert (E : exists r, fix_ ucd None (Source_init [] file_two_entries) 76 float_1_8 false
                        = Ok r)
    by (vm_compute; eexists; reflexivity).
  destruct E as [[src' changed] E].
  destruct (@fix_rebuilds_file ucd None [] file_two_entries 76 float_1_8 false src' changed E)
    as (src & parts & H).
  exists src', changed, src, parts. split; [exact E | exact H].
Defined.

(** ** What the reflow can raise *)

Section Raises.
Variable U : unicode_db.
Variable pangu : option (str -> str).

(** At a width above 2 the loop of [fix] raises nothing but what the
    patched [len] raises. *)
Lemma fix_loop_raises width factor no_msgid r : forall self e,
  2 < width -> Forall (fun entry => msgid entry <> []) r ->
  fix_loop U pangu r self width factor no_msgid = Raise e ->
  exists s, new_len U factor s = Raise e.
Proof.
  induction r as [|entry r IH]; intros self e Hw F H; cbn [fix_loop] in H; [discriminate|].
  apply Forall_cons_iff in F. destruct F as [Fe F].
  destruct (format U pangu entry width factor no_msgid) as [new|e'] eqn:E;
    cbn [bind] in H.
  - eapply IH; eassumption.
  - injection H as <-. apply format_raises_cases in E.
    destruct E as [(_ & E & _)|[(E & _)|E]]; [congruence | lia | exact E].
Qed.

(** The loops of the parser raise nothing but what [parse_error]
    raises, the bound and the index apart. *)
Lemma entry_loop_raises fuel : forall self ids strs own temp start_line ex,
  entry_loop U fuel self ids strs own temp start_line = Raise ex ->
  ex = Diverged \/ ex = IndexError \/ exists msg, ex = ParseError msg.
Proof.
  assert (Fin : forall self ids strs start_line ex,
             finish_entry self ids strs start_line = Raise ex ->
             ex = Diverged \/ ex = IndexError \/ exists msg, ex = ParseError msg).
  { intros self ids strs start_line ex. unfold finish_entry, parse_error.
    destruct strs; [|discriminate]. intros [= <-]. eauto. }
  induction fuel as [|fuel IH]; intros self ids strs own temp start_line ex H;
    cbn [entry_loop] in H; [injection H as <-; auto|].
  unfold __next__ in H.
  destruct (_ <=? _); cbn [bind] in H; [eapply Fin; eassumption|].
  destruct (getitem _ _) as [line|]; cbn [bind] in H; [|injection H as <-; auto].
  destruct (blank U line); [eapply Fin; eassumption|].
  destruct (startswith line (lit "#")); [eapply IH; eassumption|].
  destruct (startswith line (lit "msgid")).
  { destruct (nonempty ids); [eapply Fin; eassumption|].
    destruct (re_match _ _); [eapply IH; eassumption|].
    unfold parse_error in H. injection H as <-. eauto. }
  destruct (startswith line (lit "msgstr")).
  { destruct (nonempty strs); [eapply Fin; eassumption|].
    destruct (re_match _ _); [eapply IH; eassumption|].
    unfold parse_error in H. injection H as <-. eauto. }
  destruct (re_match _ _).
  - destruct temp; eapply IH; eassumption.
  - unfold parse_error in H. injection H as <-. eauto.
Qed.

Lemma parse_loop_raises fuel : forall self ex,
  parse_loop U fuel self = Raise ex ->
  ex = Diverged \/ ex = IndexError \/ exists msg, ex = ParseError msg.
Proof.
  induction fuel as [|fuel IH]; intros self ex H; cbn [parse_loop] in H;
    [injection H as <-; auto|].
  unfold __next__ in H.
  destruct (_ <=? _); cbn [bind] in H; [discriminate|].
  destruct (getitem _ _) as [line|]; cbn [bind] in H; [|injection H as <-; auto].
  assert (Tail : forall s,
             (if blank U line || startswith line (lit "#") then parse_loop U fuel s
              else if startswith line (lit "msgid")
                   then r <- _parse_entry U (set_lineno s (lineno s - 1)) ;;
                        parse_loop U fuel (append_entry (fst r) (snd r))
                   else parse_error s (lit "Unexpected token")) = Raise ex ->
             ex = Diverged \/ ex = IndexError \/ exists msg, ex = ParseError msg).
  { intros s T.
    destruct (blank U line || startswith line (lit "#")); [eapply IH; eassumption|].
    destruct (startswith line (lit "msgid")).
    - destruct (_parse_entry U (set_lineno s (lineno s - 1))) as [r|ex'] eqn:E;
        cbn [bind] in T.
      + eapply IH; eassumption.
      + injection T as <-. unfold _parse_entry in E.
        eapply entry_loop_raises; eassumption.
    - unfold parse_error in T. injection T as <-. eauto. }
  destruct (fuzzy_marker U line); cbn [bind] in H.
  - destruct (_parse_entry U (set_lineno self (lineno self + 1))) as [r|ex'] eqn:E;
      cbn [bind] in H.
    + apply Tail in H. exact H.
    + injection H as <-. unfold _parse_entry in E.
      eapply entry_loop_raises; eassumption.
  - apply Tail in H. exact H.
Qed.
End Raises.

(** X13.  At a width above 2 [format] returns lines for every entry, or
    raises what a call of the patched [len] raised, an OverflowError or
    a ValueError of [int] (under the factor [1e308] two wide characters
    are enough), but for one case: with [no_msgid] an entry without any
    msgid fragment makes it raise IndexError.  In particular the
    wrapper always comes to an end. *)
Theorem format_wide_returns (U : unicode_db) (pangu : option (str -> str))
        (self : Entry) (width : Z) (factor : float) (no_msgid : bool) :
  2 < width ->
  (if no_msgid && negb (nonempty (msgid self))
   then format U pangu self width factor no_msgid = Raise IndexError
   else (exists out, format U pangu self width factor no_msgid = Ok out)
        \/ (exists s e,
               new_len U factor s = Raise e
               /\ (e = OverflowError \/ e = ValueError)
               /\ format U pangu self width factor no_msgid = Raise e))
  /\ format ucd None long_cjk_entry 76 float_1e308 false = Raise OverflowError.
Proof.
  intros Hw. split; [|vm_compute; reflexivity].
  assert (Hc : (no_msgid = true -> msgid self <> []) ->
               (exists out, format U pangu self width factor no_msgid = Ok out)
               \/ (exists s e,
                      new_len U factor s = Raise e
                      /\ (e = OverflowError \/ e = ValueError)
                      /\ format U pangu self width factor no_msgid = Raise e)).
  { intros Hm. destruct (format U pangu self width factor no_msgid) as [out|e] eqn:E;
      [left; eauto|].
    right. apply format_raises_cases in E.
    destruct E as [(E1 & E2 & _)|[(E & _)|(s & E)]]; [now apply Hm in E1 | lia |].
    exists s, e. split; [exact E|]. split; [|reflexivity].
    eapply new_len_raises. eassumption. }
  destruct no_msgid; cbn [andb].
  - destruct (msgid self) as [|first rest] eqn:M; cbn [nonempty negb].
    + unfold format. cbn [negb]. unfold _format_text at 1. cbn [negb].
      rewrite M. reflexivity.
    + apply Hc. intros _. discriminate.
  - apply Hc. discriminate.
Qed.

Lemma format_wide_returns_witness :
  ((exists out, format ucd None long_cjk_entry 3 float_1_8 false = Ok out)
   \/ (exists s e,
          new_len ucd float_1_8 s = Raise e
          /\ (e = OverflowError \/ e = ValueError)
          /\ format ucd None long_cjk_entry 3 float_1_8 false = Raise e))
  /\ format ucd None long_cjk_entry 76 float_1e308 false = Raise OverflowError.
Proof.
  apply (@format_wide_returns ucd None long_cjk_entry 3 float_1_8 false). lia.
Defined.

(** X14.  At a width above 2, [fix] on a new source returns, or passes
    on the ParseError that [parse] raised, or, [parse] having returned,
    passes on the OverflowError or ValueError that a call of the
    patched [len] raised while an entry was formatted: nothing else is
    raised. *)
Theorem fix_raises_parse_or_len_errors (U : unicode_db) (pangu : option (str -> str))
        (name : str) (ls : list str) (width : Z) (factor : float) (no_msgid : bool) :
  2 < width ->
  (exists src' changed,
      fix_ U pangu (Source_init name ls) width factor no_msgid = Ok (src', changed))
  \/ (exists msg,
         parse U (Source_init name ls) = Raise (ParseError msg)
         /\ fix_ U pangu (Source_init name ls) width factor no_msgid
            = Raise (ParseError msg))
  \/ (exists src s e,
         parse U (Source_init name ls) = Ok src
         /\ new_len U factor s = Raise e
         /\ (e = OverflowError \/ e = ValueError)
         /\ fix_ U pangu (Source_init name ls) width factor no_msgid = Raise e).
Proof.
  intros Hw. unfold fix_.
  pose proof (parse_returns U name ls) as R.
  destruct (parse U (Source_init name ls)) as [src|ex] eqn:P; cbn [bind].
  - unfold parse in P. cbn [Source_init lineno] in P.
    replace (0 <=? -1) with false in P by reflexivity.
    apply parse_loop_wf in P; cbn [Source_init lineno _entries lines]; [|lia|constructor].
    destruct P as (Pwf & _ & _).
    destruct (fix_loop U pangu (rev (_entries src)) src width factor no_msgid)
      as [s2|e] eqn:F; cbn [bind]; [left; eauto|].
    right. right. apply fix_loop_raises in F; [|exact Hw|].
    + destruct F as (s & F). exists src, s, e. split; [reflexivity|].
      split; [exact F|]. split; [|reflexivity]. eapply new_len_raises. eassumption.
    + apply Forall_rev. revert Pwf. apply Forall_impl. intros e0 We. apply We.
  - right. left. unfold parse in P. cbn [Source_init lineno] in P.
    replace (0 <=? -1) with false in P by reflexivity.
    apply parse_loop_raises in P. destruct P as [->|[->|[msg ->]]].
    + destruct R.
    + destruct R.
    + exists msg. split; reflexivity.
Qed.

Lemma fix_raises_parse_or_len_errors_witness :
  (exists src' changed,
      fix_ ucd None (Source_init [] file_missing_msgstr) 76 float_1_8 false
      = Ok (src', changed))
  \/ (exists msg,
         parse ucd (Source_init [] file_missing_msgstr) = Raise (ParseError msg)
         /\ fix_ ucd None (Source_init [] file_missing_msgstr) 76 float_1_8 false
            = Raise (ParseError msg))
  \/ (exists src s e,
         parse ucd (Source_init [] file_missing_msgstr) = Ok src
         /\ new_len ucd float_1_8 s = Raise e
         /\ (e = OverflowError \/ e = ValueError)
         /\ fix_ ucd None (Source_init [] file_missing_msgstr) 76 float_1_8 false = Raise e).
Proof.
  apply (@fix_raises_parse_or_len_errors ucd None [] file_missing_msgstr 76 float_1_8 false).
  lia.
Defined.

(** ** A settled file is left as it is *)

Lemma dropwhile_app_last {A} (p : A -> bool) (l : list A) (c : A) :
  p c = false -> dropwhile p (l ++ [c]) <> [].
Proof.
  intros H. induction l as [|x l IH]; cbn [app dropwhile].
  - rewrite H. discriminate.
  - destruct (p x); [exact IH | discriminate].
Qed.

Lemma slice_from_app_exact {A} (p s : list A) :
  slice_from (p ++ s) (Z.of_nat (length p)) = s.
Proof.
  unfold slice_from, slice_bound.
  replace (Z.of_nat (length p) <? 0) with false by (symmetry; apply Z.ltb_ge; lia).
  rewrite length_app.
  replace (Z.to_nat _) with (length p) by lia.
  rewrite skipn_app, Nat.sub_diag, skipn_all. reflexivity.
Qed.

Lemma set_lines_same (self : Source) : set_lines self (lines self) = self.
Proof. destruct self; reflexivity. Qed.

Section Settled.
Variable U : unicode_db.
Variable pangu : option (str -> str).
Variable factor : float.
Variable width : Z.
Variable no_msgid : bool.
Hypothesis m_not_space : isspace U (ord "m") = false.

Lemma blank_starts_visible (c : codepoint) (s : str) :
  isspace U c = false -> blank U (c :: s) = false.
Proof.
  intros H. unfold blank, strip. cbn [dropwhile]. rewrite H.
  cbn [rev].
  pose proof (@dropwhile_app_last _ (isspace U) (rev s) c H) as D.
  destruct (dropwhile (isspace U) (rev s ++ [c])) as [|y l]; [congruence|].
  cbn [rev]. destruct (rev l); reflexivity.
Qed.

Lemma titled_msgid a : titled (lit "msgid") a = msgid_line a.
Proof. reflexivity. Qed.

Lemma titled_msgstr b : titled (lit "msgstr") b = msgstr_line b.
Proof. reflexivity. Qed.

(** [_parse_entry] over the two lines of an entry of one line per
    field. *)
Lemma _parse_entry_padded self before_ a b n1 n2 rest :
  lines self = before_ ++ padded (msgid_line a) n1 :: padded (msgstr_line b) n2 :: rest ->
  lineno self = Z.of_nat (length before_) - 1 ->
  match rest with [] => True | x :: _ => blank U x = true end ->
  Forall (fun c => c <> 10%N) a -> Forall (fun c => c <> 10%N) b ->
  _parse_entry U self
  = Ok (set_lineno self (Z.of_nat (length before_) + 2),
        {| span := {| start := Z.of_nat (length before_);
                      end_ := Z.of_nat (length before_) + 2 |};
           msgid := [a]; msgstr := [b] |}).
Proof.
  intros Hl Hn Hrest Ha Hb. unfold _parse_entry, loop_fuel.
  assert (Hlen : length (lines self) = S (S (length before_ + length rest)))
    by (rewrite Hl, length_app; cbn [length]; lia).
  rewrite Hlen. clear Hlen.
  remember (S (length before_ + length rest)) as f2 eqn:Ef2.
  remember (length before_ + length rest)%nat as f1 eqn:Ef1.
  set (l1 := padded (msgid_line a) n1) in *.
  set (l2 := padded (msgstr_line b) n2) in *.
  (* the msgid line *)
  remember (S (S f2)) as f3 eqn:Ef3. rewrite Ef3 at 1. clear Ef3 f3.
  cbn [entry_loop].
  rewrite (__next___at self before_ _ _ Hl Hn). cbn [bind].
  assert (B1 : blank U l1 = false) by (apply blank_starts_visible, m_not_space).
  rewrite B1.
  replace (startswith l1 (lit "#")) with false by reflexivity.
  replace (startswith l1 (lit "msgid")) with true by reflexivity.
  cbn [nonempty].
  replace (slice_from l1 6) with (quoted a ++ repeat 32%N n1)
    by (symmetry; apply (@slice_from_app_exact _ (lit "msgid ") (quoted a ++ repeat 32%N n1))).
  rewrite (@re_match_quoted a n1 Ha). cbn [app].
  (* the msgstr line *)
  rewrite Ef2. cbn [entry_loop].
  set (s1 := set_lineno self (Z.of_nat (length before_))).
  assert (Hl1 : lines s1 = (before_ ++ [l1]) ++ l2 :: rest)
    by (subst s1; cbn [set_lineno lines]; rewrite Hl, <- app_assoc; reflexivity).
  assert (Hn1 : lineno s1 = Z.of_nat (length (before_ ++ [l1])) - 1)
    by (subst s1; cbn [set_lineno lineno]; rewrite length_app; cbn [length]; lia).
  rewrite (__next___at s1 _ _ _ Hl1 Hn1). cbn [bind].
  assert (B2 : blank U l2 = false) by (apply blank_starts_visible, m_not_space).
  rewrite B2.
  replace (startswith l2 (lit "#")) with false by reflexivity.
  replace (startswith l2 (lit "msgid")) with false by reflexivity.
  replace (startswith l2 (lit "msgstr")) with true by reflexivity.
  cbn [nonempty].
  replace (slice_from l2 7) with (quoted b ++ repeat 32%N n2)
    by (symmetry; apply (@slice_from_app_exact _ (lit "msgstr ") (quoted b ++ repeat 32%N n2))).
  rewrite (@re_match_quoted b n2 Hb). cbn [app].
  (* the line after, or the end *)
  set (s2 := set_lineno s1 (Z.of_nat (length (before_ ++ [l1])))).
  assert (Hl2 : lines s2 = (before_ ++ [l1; l2]) ++ rest)
    by (subst s2 s1; cbn [set_lineno lines]; rewrite Hl, <- app_assoc; reflexivity).
  assert (Hn2 : lineno s2 = Z.of_nat (length before_) + 1)
    by (subst s2 s1; cbn [set_lineno lineno]; rewrite length_app; cbn [length]; lia).
  assert (Efin : set_lineno s2 (Z.of_nat (length before_) + 2)
                 = set_lineno self (Z.of_nat (length before_) + 2)) by reflexivity.
  assert (Es1 : lineno s1 = Z.of_nat (length before_)) by reflexivity.
  rewrite Es1.
  destruct rest as [|x rest'].
  - rewrite Ef1. cbn [entry_loop].
    rewrite (__next___end s2);
      [|rewrite Hn2, Hl2, app_nil_r, length_app; cbn [length]; lia].
    cbn [bind]. unfold finish_entry. cbn [app set_lineno lineno].
    rewrite Hl2, app_nil_r, length_app. cbn [length].
    replace (Z.of_nat (length before_ + 2)) with (Z.of_nat (length before_) + 2) by lia.
    rewrite <- Efin. reflexivity.
  - rewrite Ef1. cbn [length]. rewrite Nat.add_succ_r. cbn [entry_loop].
    assert (Hn2' : lineno s2 = Z.of_nat (length (before_ ++ [l1; l2])) - 1)
      by (rewrite Hn2, length_app; cbn [length]; lia).
    rewrite (__next___at s2 _ _ _ Hl2 Hn2'). cbn [bind]. rewrite Hrest.
    unfold finish_entry. cbn [app set_lineno lineno].
    rewrite length_app. cbn [length].
    replace (Z.of_nat (length before_ + 2)) with (Z.of_nat (length before_) + 2) by lia.
    rewrite <- Efin. reflexivity.
Qed.

Lemma _parse_entry_settled self before_ a b rest :
  lines self = before_ ++ msgid_line a :: msgstr_line b :: rest ->
  lineno self = Z.of_nat (length before_) - 1 ->
  match rest with [] => True | x :: _ => blank U x = true end ->
  Forall (fun c => c <> 10%N) a -> Forall (fun c => c <> 10%N) b ->
  _parse_entry U self
  = Ok (set_lineno self (Z.of_nat (length before_) + 2),
        {| span := {| start := Z.of_nat (length before_);
                      end_ := Z.of_nat (length before_) + 2 |};
           msgid := [a]; msgstr := [b] |}).
Proof.
  intros Hl. apply (@_parse_entry_padded self before_ a b 0 0 rest).
  unfold padded. cbn [repeat]. rewrite !app_nil_r. exact Hl.
Qed.

Lemma settled_entry_stable ls before_ a b rest :
  ls = before_ ++ msgid_line a :: msgstr_line b :: rest ->
  field_settled U pangu factor width (lit "msgid") a ->
  field_settled U pangu factor width (lit "msgstr") b ->
  entry_stable U pangu width factor no_msgid ls
    {| span := {| start := Z.of_nat (length before_);
                  end_ := Z.of_nat (length before_) + 2 |};
       msgid := [a]; msgstr := [b] |}.
Proof.
  intros -> (_ & Pa & ta & xa & Ta & Xa & Fa) (_ & Pb & tb & xb & Tb & Xb & Fb).
  exists [msgid_line a; msgstr_line b]. split.
  - unfold format. cbn [msgid msgstr].
    assert (Ea : forall self,
               _format_text U pangu (new_len U factor) self (lit "msgid") [a] width
                 (negb no_msgid) = Ok [msgid_line a]).
    { intros self. destruct no_msgid; cbn [negb].
      - reflexivity.
      - rewrite (@_format_text_fits U pangu _ self _ _ width ta xa)
          by (rewrite ?Pa; assumption).
        rewrite Pa. reflexivity. }
    rewrite Ea. cbn [bind].
    rewrite (@_format_text_fits U pangu _ _ _ _ width tb xb) by (rewrite ?Pb; assumption).
    rewrite Pb. reflexivity.
  - unfold splice. cbn [fst snd span start end_].
    rewrite slice_assign_in_range; try lia;
      [|rewrite length_app; cbn [length]; lia].
    rewrite Nat2Z.id.
    replace (Z.to_nat (Z.of_nat (length before_) + 2)) with (length before_ + 2)%nat by lia.
    rewrite firstn_app, Nat.sub_diag, firstn_all. cbn [firstn]. rewrite app_nil_r.
    rewrite skipn_app, skipn_all2 by lia.
    replace (length before_ + 2 - length before_)%nat with 2%nat by lia.
    reflexivity.
Qed.

(** The loop of [parse] over a settled file: every entry it gathers is
    stable. *)
Lemma parse_loop_settled rest :
  settled_file U pangu factor width rest ->
  forall fuel self before_,
  lines self = before_ ++ rest ->
  lineno self = Z.of_nat (length before_) - 1 ->
  (length rest < fuel)%nat ->
  Forall (entry_stable U pangu width factor no_msgid (lines self)) (_entries self) ->
  exists self',
    parse_loop U fuel self = Ok self'
    /\ lines self' = lines self /\ _original self' = _original self
    /\ Forall (entry_stable U pangu width factor no_msgid (lines self)) (_entries self').
Proof.
  induction 1 as [|x rest Hx Hrest IH|a b Ha Hb|a b x rest Ha Hb Hx Hrest IH
                  |marker a b n1 n2 Hfz Ha Hb
                  |marker a b n1 n2 x rest Hfz Ha Hb Hx Hrest IH];
    intros fuel self before_ Hl Hn Hf F.
  - destruct fuel as [|fuel]; [cbn [length] in Hf; lia|]. cbn [parse_loop].
    rewrite __next___end by (rewrite Hl, app_nil_r; exact Hn).
    cbn [bind]. eexists. split; [reflexivity|].
    cbn [set_lineno lines _original _entries]. auto.
  - destruct fuel as [|fuel]; [lia|]. cbn [parse_loop].
    rewrite (__next___at self before_ _ _ Hl Hn). cbn [bind].
    destruct Hx as [Hfz Hx]. rewrite Hfz. cbn [bind].
    replace (blank U x || startswith x (lit "#")) with true
      by (destruct Hx as [-> | ->]; [reflexivity | symmetry; apply orb_true_r]).
    destruct (IH fuel (set_lineno self (Z.of_nat (length before_))) (before_ ++ [x]))
      as (self' & E & H1 & H2 & H3); cbn [set_lineno lines lineno _entries].
    + rewrite Hl, <- app_assoc. reflexivity.
    + rewrite length_app. cbn [length]. lia.
    + cbn [length] in Hf. lia.
    + exact F.
    + exists self'. split; [exact E|].
      cbn [set_lineno lines _original] in H1, H2, H3. auto.
  - destruct fuel as [|[|fuel]]; [cbn [length] in Hf; lia | cbn [length] in Hf; lia|].
    remember (S fuel) as f1 eqn:Ef1. cbn [parse_loop].
    rewrite (__next___at self before_ _ _ Hl Hn). cbn [bind].
    replace (fuzzy_marker U (msgid_line a)) with false by reflexivity. cbn [bind].
    assert (B1 : blank U (msgid_line a) = false)
      by (apply blank_starts_visible, m_not_space).
    rewrite B1.
    replace (startswith (msgid_line a) (lit "#")) with false by reflexivity.
    replace (startswith (msgid_line a) (lit "msgid")) with true by reflexivity.
    cbn [orb set_lineno lineno].
    match goal with
    | |- context [_parse_entry U ?s] =>
        rewrite (@_parse_entry_settled s before_ a b []);
          [|exact Hl | cbn [set_lineno lineno]; lia | exact I | apply Ha | apply Hb]
    end.
    cbn [bind fst snd]. rewrite Ef1. cbn [parse_loop].
    unfold __next__. cbn [append_entry set_lineno lines lineno].
    replace (_ <=? _) with true
      by (symmetry; apply Z.leb_le; unfold builtin_len; rewrite Hl, length_app;
          cbn [length]; lia).
    eexists. split; [reflexivity|].
    cbn [set_lineno append_entry lines _original _entries].
    repeat split; auto.
    apply Forall_app. split; [exact F|].
    constructor; [|constructor].
    apply (@settled_entry_stable (lines self) before_ a b []); assumption.
  - destruct fuel as [|fuel]; [lia|]. cbn [parse_loop].
    rewrite (__next___at self before_ _ _ Hl Hn). cbn [bind].
    replace (fuzzy_marker U (msgid_line a)) with false by reflexivity. cbn [bind].
    assert (B1 : blank U (msgid_line a) = false)
      by (apply blank_starts_visible, m_not_space).
    rewrite B1.
    replace (startswith (msgid_line a) (lit "#")) with false by reflexivity.
    replace (startswith (msgid_line a) (lit "msgid")) with true by reflexivity.
    cbn [orb set_lineno lineno].
    match goal with
    | |- context [_parse_entry U ?s] =>
        rewrite (@_parse_entry_settled s before_ a b (x :: rest));
          [|exact Hl | cbn [set_lineno lineno]; lia | exact Hx | apply Ha | apply Hb]
    end.
    cbn [bind fst snd].
    match goal with
    | |- exists s', parse_loop U fuel ?s = _ /\ _ =>
        destruct (IH fuel s (before_ ++ [msgid_line a; msgstr_line b; x]))
          as (self' & E & H1 & H2 & H3)
    end.
    + cbn [append_entry set_lineno lines]. rewrite Hl, <- app_assoc. reflexivity.
    + cbn [append_entry set_lineno lineno]. rewrite length_app. cbn [length]. lia.
    + cbn [length] in Hf. lia.
    + cbn [append_entry set_lineno lines _entries].
      apply Forall_app. split; [exact F|].
      constructor; [|constructor].
      apply (@settled_entry_stable (lines self) before_ a b (x :: rest)); assumption.
    + exists self'. split; [exact E|].
      cbn [append_entry set_lineno lines _original] in H1, H2, H3. auto.
  - destruct fuel as [|[|fuel]]; [cbn [length] in Hf; lia | cbn [length] in Hf; lia|].
    remember (S fuel) as f1 eqn:Ef1. cbn [parse_loop].
    rewrite (__next___at self before_ _ _ Hl Hn). cbn [bind]. rewrite Hfz.
    set (s1 := set_lineno self (Z.of_nat (length before_))).
    rewrite (@_parse_entry_padded s1 (before_ ++ [marker]) a b n1 n2 []);
      [|subst s1; cbn [set_lineno lines]; rewrite Hl, <- app_assoc; reflexivity
       |subst s1; cbn [set_lineno lineno]; rewrite length_app; cbn [length]; lia
       |exact I | exact Ha | exact Hb].
    cbn [bind fst]. rewrite (@startswith_fuzzy_comment U marker Hfz), orb_true_r.
    rewrite Ef1. cbn [parse_loop].
    unfold __next__. subst s1. cbn [set_lineno lines lineno].
    replace (_ <=? _) with true
      by (symmetry; apply Z.leb_le; unfold builtin_len; rewrite Hl, !length_app;
          cbn [length]; lia).
    cbn [bind]. eexists. split; [reflexivity|].
    cbn [set_lineno lines _original _entries]. auto.
  - destruct fuel as [|fuel]; [lia|]. cbn [parse_loop].
    rewrite (__next___at self before_ _ _ Hl Hn). cbn [bind]. rewrite Hfz.
    set (s1 := set_lineno self (Z.of_nat (length before_))).
    rewrite (@_parse_entry_padded s1 (before_ ++ [marker]) a b n1 n2 (x :: rest));
      [|subst s1; cbn [set_lineno lines]; rewrite Hl, <- app_assoc; reflexivity
       |subst s1; cbn [set_lineno lineno]; rewrite length_app; cbn [length]; lia
       |exact Hx | exact Ha | exact Hb].
    cbn [bind fst]. rewrite (@startswith_fuzzy_comment U marker Hfz), orb_true_r.
    match goal with
    | |- exists s', parse_loop U fuel ?s = _ /\ _ =>
        destruct (IH fuel s (before_ ++ [marker; padded (msgid_line a) n1;
                                         padded (msgstr_line b) n2; x]))
          as (self' & E & H1 & H2 & H3)
    end.
    + subst s1. cbn [set_lineno lines]. rewrite Hl, <- app_assoc. reflexivity.
    + subst s1. cbn [set_lineno lineno]. rewrite !length_app. cbn [length]. lia.
    + cbn [length] in Hf. lia.
    + subst s1. cbn [set_lineno lines _entries]. exact F.
    + exists self'. split; [exact E|].
      subst s1. cbn [set_lineno lines _original] in H1, H2, H3. auto.
Qed.

(** Stable entries make every splice of [fix] put back what was there. *)
Lemma fix_loop_stable r : forall self,
  Forall (entry_stable U pangu width factor no_msgid (lines self)) r ->
  fix_loop U pangu r self width factor no_msgid = Ok self.
Proof.
  induction r as [|e r IH]; intros self F; cbn [fix_loop]; [reflexivity|].
  apply Forall_cons_iff in F. destruct F as [(new & En & Es) F].
  rewrite En. cbn [bind]. unfold splice in Es. cbn [fst snd] in Es.
  rewrite Es, set_lines_same. apply IH, F.
Qed.
End Settled.

(** X15.  A settled file is left as it is: when every entry of a file
    has its msgid on one line and its msgstr on one line, each a text
    that fits and that processing does not change, and every entry is
    followed by a blank line or by the end of the file, then [fix]
    returns the same lines and reports no change, with or without
    [no_msgid].  An entry right after a fuzzy marker is left as it is
    even when its lines are too wide or end in spaces. *)
Theorem settled_file_unchanged (U : unicode_db) (pangu : option (str -> str))
        (ls : list str) (width : Z) (factor : float) (no_msgid : bool) :
  isspace U (ord "m") = false ->
  settled_file U pangu factor width ls ->
  fix_lines U pangu ls width factor no_msgid = Ok (ls, false).
Proof.
  intros Hm Hs. unfold fix_lines, fix_, parse. cbn [Source_init lineno].
  replace (0 <=? -1) with false by reflexivity.
  destruct (@parse_loop_settled U pangu factor width no_msgid Hm ls Hs
              (loop_fuel (Source_init [] ls)) (Source_init [] ls) [])
    as (src & -> & Hl & Ho & F).
  - reflexivity.
  - reflexivity.
  - unfold loop_fuel. cbn [Source_init lines]. lia.
  - constructor.
  - cbn [bind]. rewrite <- Hl in F.
    rewrite (@fix_loop_stable U pangu factor width no_msgid (rev (_entries src)) src)
      by (apply Forall_rev, F).
    cbn [bind fst snd]. unfold diff. rewrite Ho, Hl. cbn [Source_init _original lines].
    rewrite lines_eqb_refl. reflexivity.
Qed.

Lemma settled_file_unchanged_witness :
  fix_lines ucd None
    [lit "# a comment"; []; msgid_line (lit "a"); msgstr_line (lit "b"); [];
     lit "#, fuzzy"; padded (msgid_line (lit "c")) 0; padded (msgstr_line (lit "d")) 2]
    10 float_1_8 false
  = Ok ([lit "# a comment"; []; msgid_line (lit "a"); msgstr_line (lit "b"); [];
         lit "#, fuzzy"; padded (msgid_line (lit "c")) 0; padded (msgstr_line (lit "d")) 2],
        false).
Proof.
  apply (@settled_file_unchanged ucd None
           [lit "# a comment"; []; msgid_line (lit "a"); msgstr_line (lit "b"); [];
            lit "#, fuzzy"; padded (msgid_line (lit "c")) 0;
            padded (msgstr_line (lit "d")) 2]
           10 float_1_8 false).
  - reflexivity.
  - apply settled_skip; [split; [reflexivity | right; reflexivity]|].
    apply settled_skip; [split; [reflexivity | left; reflexivity]|].
    apply (@settled_entry ucd None float_1_8 10 (lit "a") (lit "b") []
             [lit "#, fuzzy"; padded (msgid_line (lit "c")) 0;
              padded (msgstr_line (lit "d")) 2]).
    + split; [repeat constructor; discriminate|].
      split; [reflexivity|]. exists 5, 1.
      split; [reflexivity|]. split; [reflexivity | lia].
    + split; [repeat constructor; discriminate|].
      split; [reflexivity|]. exists 6, 1.
      split; [reflexivity|]. split; [reflexivity | lia].
    + reflexivity.
    + apply (@settled_fuzzy_last ucd None float_1_8 10 (lit "#, fuzzy") (lit "c") (lit "d") 0 2).
      * reflexivity.
      * repeat constructor; discriminate.
      * repeat constructor; discriminate.
Defined.

(** ** Writing and reading back *)

Lemma linebreak_not_cr (c : codepoint) : is_linebreak c = false -> N.eqb c 13%N = false.
Proof.
  unfold is_linebreak. cbn [existsb]. intros H.
  destruct (N.eqb c 13%N); [|reflexivity].
  rewrite !orb_true_r in H. cbn in H. rewrite ?orb_true_r in H. discriminate.
Qed.

Lemma linebreak_not_nl (c : codepoint) : is_linebreak c = false -> N.eqb c 10%N = false.
Proof.
  unfold is_linebreak. cbn [existsb]. intros H.
  destruct (N.eqb c 10%N); [discriminate | reflexivity].
Qed.

Lemma translate_there_and_back (linesep : str) (s : str) :
  linesep = [10%N] \/ linesep = [13%N; 10%N] ->
  Forall (fun c => N.eqb c 13%N = false) s ->
  translate_on_read (translate_on_write linesep s) = s.
Proof.
  intros Hsep. induction s as [|c s IH]; intros F; [reflexivity|].
  apply Forall_cons_iff in F. destruct F as [Fc F].
  unfold translate_on_write. cbn [flat_map]. fold (translate_on_write linesep s).
  destruct (N.eqb c 10%N) eqn:E.
  - apply N.eqb_eq in E. subst c.
    destruct Hsep as [-> | ->]; cbn [app translate_on_read after_cr];
      replace (N.eqb 10%N 13%N) with false by reflexivity.
    + rewrite (IH F). reflexivity.
    + replace (N.eqb 13%N 13%N) with true by reflexivity.
      replace (N.eqb 10%N 10%N) with true by reflexivity.
      rewrite (IH F). reflexivity.
  - cbn [app translate_on_read]. rewrite Fc, (IH F). reflexivity.
Qed.

Lemma splitlines_acc_line (line rest : str) : forall cur_rev,
  one_line line ->
  splitlines_acc cur_rev (line ++ 10%N :: rest)
  = (rev cur_rev ++ line) :: splitlines_acc [] rest.
Proof.
  induction line as [|c line IH]; intros cur_rev F.
  - cbn [app splitlines_acc]. replace (N.eqb 10%N 13%N) with false by reflexivity.
    replace (is_linebreak 10%N) with true by reflexivity.
    rewrite app_nil_r. reflexivity.
  - apply Forall_cons_iff in F. destruct F as [Fc F].
    cbn [app splitlines_acc]. rewrite (linebreak_not_cr _ Fc), Fc.
    rewrite (IH (c :: cur_rev) F). cbn [rev]. rewrite <- app_assoc. reflexivity.
Qed.

Lemma splitlines_written (ls : list str) :
  ls <> [] -> Forall one_line ls ->
  splitlines (join_with [10%N] ls ++ [10%N]) = ls.
Proof.
  unfold splitlines. induction ls as [|p ls IH]; intros Hne F; [congruence|].
  apply Forall_cons_iff in F. destruct F as [Fp F].
  destruct ls as [|q ls].
  - exact (@splitlines_acc_line p [] [] Fp).
  - transitivity (splitlines_acc [] (p ++ 10%N :: (join_with [10%N] (q :: ls) ++ [10%N]))).
    + f_equal.
      change (join_with [10%N] (p :: q :: ls))
        with (p ++ [10%N] ++ join_with [10%N] (q :: ls)).
      rewrite <- !app_assoc. reflexivity.
    + etransitivity; [exact (@splitlines_acc_line p _ [] Fp)|].
      cbn [rev app]. f_equal. apply IH; [discriminate | exact F].
Qed.

Lemma written_without_cr (ls : list str) :
  Forall one_line ls ->
  Forall (fun c => N.eqb c 13%N = false) (join_with [10%N] ls ++ [10%N]).
Proof.
  intros F. apply Forall_app. split; [|repeat constructor].
  induction ls as [|p ls IH]; [constructor|].
  apply Forall_cons_iff in F. destruct F as [Fp F].
  assert (Hp : Forall (fun c => N.eqb c 13%N = false) p)
    by (eapply Forall_impl; [|exact Fp]; apply linebreak_not_cr).
  destruct ls as [|q ls]; [exact Hp|].
  change (join_with [10%N] (p :: q :: ls)) with (p ++ [10%N] ++ join_with [10%N] (q :: ls)).
  apply Forall_app. split; [exact Hp|].
  apply Forall_app. split; [repeat constructor | apply IH, F].
Qed.

Lemma utf8_encode_char_decoded (c : codepoint) :
  is_scalar c = true ->
  exists bs,
    utf8_encode_char c = Ok bs
    /\ forall rest, utf8_decode (bs ++ rest) = (s <- utf8_decode rest ;; Ok (c :: s)).
Proof.
  unfold is_scalar, utf8_encode_char. intros H.
  apply andb_prop in H. destruct H as [Hmax Hs]. apply N.leb_le in Hmax.
  assert (D1 : (c = 64 * (c / 64) + c mod 64)%N) by (apply N.div_mod; discriminate).
  assert (M1 : (c mod 64 < 64)%N) by (apply N.mod_lt; discriminate).
  assert (D2 : (c / 64 = 64 * (c / 64 / 64) + (c / 64) mod 64)%N)
    by (apply N.div_mod; discriminate).
  assert (M2 : ((c / 64) mod 64 < 64)%N) by (apply N.mod_lt; discriminate).
  assert (D3 : (c / 64 / 64 = 64 * (c / 64 / 64 / 64) + (c / 64 / 64) mod 64)%N)
    by (apply N.div_mod; discriminate).
  assert (M3 : ((c / 64 / 64) mod 64 < 64)%N) by (apply N.mod_lt; discriminate).
  replace (c / 4096)%N with (c / 64 / 64)%N by (rewrite N.Div0.div_div; reflexivity).
  replace (c / 262144)%N with (c / 64 / 64 / 64)%N
    by (rewrite !N.Div0.div_div; reflexivity).
  remember (c mod 64)%N as r0 eqn:E0. remember ((c / 64) mod 64)%N as r1 eqn:E1.
  remember ((c / 64 / 64) mod 64)%N as r2 eqn:E2.
  remember (c / 64 / 64 / 64)%N as q3 eqn:E3. remember (c / 64 / 64)%N as q2 eqn:E4.
  remember (c / 64)%N as q1 eqn:E5. clear E0 E1 E2 E3 E4 E5.
  assert (Cont : forall r, (r < 64)%N -> is_continuation (128 + r) = true).
  { intros r Hr. unfold is_continuation. apply andb_true_intro.
    split; [apply N.leb_le | apply N.ltb_lt]; lia. }
  destruct (c <? 128)%N eqn:C1.
  { eexists. split; [reflexivity|]. intros rest. cbn [app utf8_decode].
    rewrite C1. reflexivity. }
  apply N.ltb_ge in C1.
  destruct (c <? 2048)%N eqn:C2.
  { apply N.ltb_lt in C2. eexists. split; [reflexivity|]. intros rest.
    cbn [app utf8_decode].
    replace (192 + q1 <? 128)%N with false by (symmetry; apply N.ltb_ge; lia).
    replace (192 + q1 <? 194)%N with false by (symmetry; apply N.ltb_ge; lia).
    replace (192 + q1 <? 224)%N with true by (symmetry; apply N.ltb_lt; lia).
    rewrite (Cont r0 M1).
    replace ((192 + q1 - 192) * 64 + (128 + r0 - 128))%N with c by lia.
    reflexivity. }
  apply N.ltb_ge in C2.
  destruct (is_surrogate c) eqn:S; [discriminate|].
  destruct (c <? 65536)%N eqn:C3.
  { apply N.ltb_lt in C3. eexists. split; [reflexivity|]. intros rest.
    cbn [app utf8_decode].
    replace (224 + q2 <? 128)%N with false by (symmetry; apply N.ltb_ge; lia).
    replace (224 + q2 <? 194)%N with false by (symmetry; apply N.ltb_ge; lia).
    replace (224 + q2 <? 224)%N with false by (symmetry; apply N.ltb_ge; lia).
    replace (224 + q2 <? 240)%N with true by (symmetry; apply N.ltb_lt; lia).
    rewrite (Cont r1 M2), (Cont r0 M1). cbv zeta.
    replace ((224 + q2 - 224) * 4096 + (128 + r1 - 128) * 64 + (128 + r0 - 128))%N
      with c by lia.
    replace (2048 <=? c)%N with true by (symmetry; apply N.leb_le; lia).
    rewrite S. reflexivity. }
  apply N.ltb_ge in C3.
  eexists. split; [reflexivity|]. intros rest. cbn [app utf8_decode].
  replace (240 + q3 <? 128)%N with false by (symmetry; apply N.ltb_ge; lia).
  replace (240 + q3 <? 194)%N with false by (symmetry; apply N.ltb_ge; lia).
  replace (240 + q3 <? 224)%N with false by (symmetry; apply N.ltb_ge; lia).
  replace (240 + q3 <? 240)%N with false by (symmetry; apply N.ltb_ge; lia).
  replace (240 + q3 <? 245)%N with true by (symmetry; apply N.ltb_lt; lia).
  rewrite (Cont r2 M3), (Cont r1 M2), (Cont r0 M1). cbv zeta.
  replace ((240 + q3 - 240) * 262144 + (128 + r2 - 128) * 4096 + (128 + r1 - 128) * 64
           + (128 + r0 - 128))%N with c by lia.
  replace (65536 <=? c)%N with true by (symmetry; apply N.leb_le; lia).
  replace (c <=? 1114111)%N with true by (symmetry; apply N.leb_le; lia).
  reflexivity.
Qed.

(** What the encoder gives, the decoder gives back. *)
Lemma utf8_decode_encoded (s : str) :
  encodable s -> exists bs, utf8_encode s = Ok bs /\ utf8_decode bs = Ok s.
Proof.
  induction 1 as [|c s Hc Hs (bs & E & D)]; [exists []; split; reflexivity|].
  destruct (utf8_encode_char_decoded c Hc) as (b & Eb & Db).
  exists (b ++ bs). cbn [utf8_encode]. rewrite Eb, E. cbn [bind].
  split; [reflexivity|]. rewrite Db, D. reflexivity.
Qed.

(** The encoder raises on a surrogate, and on nothing else. *)
Lemma utf8_encode_surrogate (s : str) (c : codepoint) :
  In c s -> is_surrogate c = true -> utf8_encode s = Raise UnicodeEncodeError.
Proof.
  intros Hin Hc. induction s as [|x s IH]; [contradiction|].
  cbn [utf8_encode].
  assert (Hx : utf8_encode_char x = Raise UnicodeEncodeError \/ exists b, utf8_encode_char x = Ok b).
  { unfold utf8_encode_char. destruct (x <? 128)%N; [eauto|].
    destruct (x <? 2048)%N; [eauto|]. destruct (is_surrogate x); [auto|].
    destruct (x <? 65536)%N; eauto. }
  destruct Hin as [->|Hin].
  - unfold utf8_encode_char. unfold is_surrogate in Hc.
    apply andb_prop in Hc. destruct Hc as [H1 H2].
    apply N.leb_le in H1. apply N.leb_le in H2.
    replace (c <? 128)%N with false by (symmetry; apply N.ltb_ge; lia).
    replace (c <? 2048)%N with false by (symmetry; apply N.ltb_ge; lia).
    unfold is_surrogate.
    replace (55296 <=? c)%N with true by (symmetry; apply N.leb_le; lia).
    replace (c <=? 57343)%N with true by (symmetry; apply N.leb_le; lia).
    reflexivity.
  - destruct Hx as [-> | (b & ->)]; [reflexivity|]. cbn [bind].
    rewrite (IH Hin). reflexivity.
Qed.

Lemma written_encodable (linesep : str) (ls : list str) :
  linesep = [10%N] \/ linesep = [13%N; 10%N] ->
  Forall encodable ls ->
  encodable (translate_on_write linesep (join_with [10%N] ls ++ [10%N])).
Proof.
  intros Hsep F.
  assert (Hl : encodable linesep) by (destruct Hsep as [-> | ->]; repeat constructor).
  assert (Ht : forall s, encodable s -> encodable (translate_on_write linesep s)).
  { induction 1 as [|c s Hc Hs IH]; [constructor|].
    unfold translate_on_write. cbn [flat_map]. fold (translate_on_write linesep s).
    apply Forall_app. split; [|exact IH].
    destruct (N.eqb c 10); [exact Hl | repeat constructor; exact Hc]. }
  apply Ht. apply Forall_app. split; [|repeat constructor].
  induction F as [|p ls' Hp F IH]; [constructor|].
  destruct ls' as [|q ls']; [exact Hp|].
  change (join_with [10%N] (p :: q :: ls')) with (p ++ [10%N] ++ join_with [10%N] (q :: ls')).
  apply Forall_app. split; [exact Hp|].
  apply Forall_app. split; [repeat constructor | exact IH].
Qed.

(** What is written is read back. *)
Lemma write_read (name : str) (self : Source) (linesep : str) :
  linesep = [10%N] \/ linesep = [13%N; 10%N] ->
  Forall one_line (lines self) -> Forall encodable (lines self) ->
  exists bytes,
    write self linesep = Ok bytes
    /\ Source_read name bytes
       = Ok (Source_init name (splitlines (join_with [10%N] (lines self) ++ [10%N]))).
Proof.
  intros Hsep F Fe. unfold write, Source_read.
  destruct (utf8_decode_encoded (written_encodable Hsep Fe)) as (bytes & E & D).
  exists bytes. split; [exact E|]. rewrite D. cbn [bind].
  rewrite (@translate_there_and_back linesep _ Hsep (written_without_cr F)).
  reflexivity.
Qed.

(** X16.  What [write] puts into a file, a new [Source] reads back as
    the same lines, on a system whose line separator is a newline or a
    carriage return and a newline, as long as no line holds a line
    boundary or a character that UTF-8 cannot encode, and there is a
    line at all; a source without lines is read back with one empty
    line.  When a line holds a surrogate, [write] raises
    UnicodeEncodeError. *)
Theorem written_file_reads_back (name : str) (self : Source) (linesep : str) :
  linesep = [10%N] \/ linesep = [13%N; 10%N] ->
  (Forall one_line (lines self) -> Forall encodable (lines self) ->
   exists bytes src,
     write self linesep = Ok bytes
     /\ Source_read name bytes = Ok src
     /\ (lines self <> [] -> lines src = lines self)
     /\ (lines self = [] -> lines src = [[]]))
  /\ (forall line c,
         In line (lines self) -> In c line -> is_surrogate c = true ->
         write self linesep = Raise UnicodeEncodeError).
Proof.
  intros Hsep. split.
  - intros F Fe. destruct (write_read name self Hsep F Fe) as (bytes & E & R).
    exists bytes. eexists. split; [exact E|]. split; [exact R|].
    cbn [Source_init lines]. split.
    + intros Hne. apply splitlines_written; assumption.
    + intros ->. reflexivity.
  - intros line c Hl Hc Hs. unfold write.
    apply (@utf8_encode_surrogate _ c); [|exact Hs].
    assert (Hj : In c (join_with [10%N] (lines self) ++ [10%N])).
    { apply in_or_app. left. induction (lines self) as [|p ls IH]; [contradiction|].
      destruct ls as [|q ls].
      - destruct Hl as [->|[]]. exact Hc.
      - change (join_with [10%N] (p :: q :: ls))
          with (p ++ [10%N] ++ join_with [10%N] (q :: ls)).
        apply in_or_app. destruct Hl as [->|Hl]; [left; exact Hc|].
        right. apply in_or_app. right. apply IH, Hl. }
    unfold translate_on_write. apply in_flat_map. exists c. split; [exact Hj|].
    destruct (N.eqb c 10) eqn:E; [|left; reflexivity].
    apply N.eqb_eq in E. subst c. discriminate Hs.
Qed.

Lemma written_file_reads_back_witness :
  (exists bytes src,
      write (Source_init [] file_two_entries) [13%N; 10%N] = Ok bytes
      /\ Source_read [] bytes = Ok src
      /\ (lines (Source_init [] file_two_entries) <> [] ->
          lines src = lines (Source_init [] file_two_entries))
      /\ (lines (Source_init [] file_two_entries) = [] -> lines src = [[]]))
  /\ write (Source_init [] [[55357%N]]) [10%N] = Raise UnicodeEncodeError.
Proof.
  split.
  - apply (@written_file_reads_back [] (Source_init [] file_two_entries) [13%N; 10%N]).
    + right. reflexivity.
    + repeat constructor.
    + repeat constructor.
  - apply (@written_file_reads_back [] (Source_init [] [[55357%N]]) [10%N]
             (or_introl eq_refl)) with (line := [55357%N]) (c := 55357%N).
    + left. reflexivity.
    + left. reflexivity.
    + reflexivity.
Defined.

(** ** Formatted entries are read back *)

Lemma plain_not_newline (text : str) : plain text -> Forall (fun c => c <> 10%N) text.
Proof.
  apply Forall_impl. intros c H E. subst c. discriminate.
Qed.

Lemma expandtabs_plain (text : str) : forall col,
  plain text -> expandtabs_from 8 col text = text.
Proof.
  induction text as [|c text IH]; intros col F; [reflexivity|].
  apply Forall_cons_iff in F. destruct F as [Fc F].
  cbn [expandtabs_from].
  unfold control_space, one_of in Fc. cbn [existsb] in Fc.
  destruct (N.eqb c 9); [discriminate|].
  destruct (N.eqb c 10); [discriminate|].
  destruct (N.eqb c 11); [discriminate|].
  destruct (N.eqb c 12); [discriminate|].
  destruct (N.eqb c 13); [discriminate|].
  cbn [orb]. rewrite (IH _ F). reflexivity.
Qed.

Lemma munge_plain (text : str) : plain text -> _munge_whitespace text = text.
Proof.
  intros F. unfold _munge_whitespace, expandtabs. rewrite (expandtabs_plain 0 F).
  induction F as [|c text Fc F IH]; [reflexivity|].
  cbn [map]. rewrite IH. f_equal.
  unfold control_space, one_of in Fc. cbn [existsb] in Fc.
  unfold _whitespace, one_of. cbn [existsb].
  destruct (N.eqb c 9); [discriminate|].
  destruct (N.eqb c 10); [discriminate|].
  destruct (N.eqb c 11); [discriminate|].
  destruct (N.eqb c 12); [discriminate|].
  destruct (N.eqb c 13); [discriminate|].
  cbn [orb]. destruct (N.eqb c 32) eqn:E; [|reflexivity].
  apply N.eqb_eq in E. subst c. reflexivity.
Qed.

Lemma plain_concat (l : list str) : plain (concat l) <-> Forall plain l.
Proof.
  unfold plain. induction l as [|x l IH]; cbn [concat].
  - split; constructor.
  - rewrite Forall_app, IH, Forall_cons_iff. reflexivity.
Qed.

Lemma map_munge_plain (l : list str) : Forall plain l -> map _munge_whitespace l = l.
Proof.
  induction 1 as [|para paras Hpara Hparas IH]; [reflexivity|].
  cbn [map]. rewrite (munge_plain Hpara), IH. reflexivity.
Qed.

Section ReadBack.
Variable U : unicode_db.
Variable pangu : option (str -> str).

Lemma wrap_paras_ok_concat (len : str -> result Z) w paras : forall out,
  wrap_paras U len w paras = Ok out ->
  concat out = concat (map _munge_whitespace paras).
Proof.
  induction paras as [|para rest IH]; intros out H; cbn [wrap_paras] in H.
  - injection H as <-. reflexivity.
  - destruct (wrap U len w para) as [g|ex] eqn:G; cbn [bind] in H; [|discriminate].
    destruct (wrap_paras U len w rest) as [more|ex] eqn:M; cbn [bind] in H; [|discriminate].
    injection H as <-. cbn [map concat].
    rewrite concat_app, (@wrap_concat U len w para g G), (IH more eq_refl).
    reflexivity.
Qed.

(** A rendered field is a title line and quoted lines that, joined,
    are the text, when the text is plain. *)
Lemma _format_text_shape (len : str -> result Z) (self : Entry) (title : str)
      (lines : list str) (width : Z) (reformat : bool) (out : list str) :
  plain (if reformat then process_text pangu lines else join lines) ->
  _format_text U pangu len self title lines width reformat = Ok out ->
  exists x la,
    out = titled title x :: map quoted la
    /\ x ++ concat la = (if reformat then process_text pangu lines else join lines).
Proof.
  intros Hp H. unfold _format_text in H. destruct reformat; cbn [negb] in H.
  - destruct (len title) as [a|ex]; cbn [bind] in H; [|discriminate].
    destruct (len (process_text pangu lines)) as [b|ex]; cbn [bind] in H; [|discriminate].
    destruct (_ <=? width).
    + injection H as <-. exists (process_text pangu lines), []. split; [reflexivity|].
      apply app_nil_r.
    + destruct (is_header (msgid self)).
      * destruct (wrap_paras U len (width - 2) _) as [la|ex] eqn:W; cbn [bind] in H;
          [|discriminate].
        injection H as <-. exists [], la. split; [reflexivity|]. cbn [app].
        rewrite (@wrap_paras_ok_concat len (width - 2) _ la W).
        destruct (header_paras_spec (process_text pangu lines)) as (ps & la' & _ & _ & C).
        rewrite <- C in Hp. apply plain_concat in Hp.
        rewrite <- C at 2. f_equal. apply map_munge_plain, Hp.
      * destruct (wrap U len (width - 2) _) as [la|ex] eqn:W; cbn [bind] in H;
          [|discriminate].
        injection H as <-. exists [], la. split; [reflexivity|]. cbn [app].
        rewrite (@wrap_concat U len (width - 2) _ la W). apply munge_plain, Hp.
  - destruct lines as [|first rest]; [discriminate|].
    injection H as <-. exists first, rest. split; reflexivity.
Qed.

Hypothesis m_not_space : isspace U (ord "m") = false.
Hypothesis quote_not_space : isspace U quote = false.

(** The loop of [_parse_entry] over quoted lines: each is added to the
    list that [temp] names. *)
Lemma entry_loop_continuations out : forall fuel self before_ rest ids strs own temp start_line,
  lines self = before_ ++ map quoted out ++ rest ->
  lineno self = Z.of_nat (length before_) - 1 ->
  Forall plain out ->
  entry_loop U (length out + fuel) self ids strs own temp start_line
  = entry_loop U fuel (set_lineno self (Z.of_nat (length before_ + length out) - 1))
      (match temp with temp_msgid => ids ++ out | _ => ids end)
      (match temp with temp_msgstr => strs ++ out | _ => strs end)
      (match temp with temp_own => own ++ out | _ => own end) temp start_line.
Proof.
  induction out as [|l out IH]; intros fuel self before_ rest ids strs own temp start_line
    Hl Hn F.
  - cbn [length Nat.add]. rewrite Nat.add_0_r, <- Hn, set_lineno_same.
    destruct temp; rewrite app_nil_r; reflexivity.
  - apply Forall_cons_iff in F. destruct F as [Fl F].
    cbn [length Nat.add entry_loop]. cbn [map app] in Hl.
    rewrite (__next___at self before_ _ _ Hl Hn). cbn [bind].
    assert (B : blank U (quoted l) = false)
      by (apply blank_starts_visible, quote_not_space).
    rewrite B.
    replace (startswith (quoted l) (lit "#")) with false by reflexivity.
    replace (startswith (quoted l) (lit "msgid")) with false by reflexivity.
    replace (startswith (quoted l) (lit "msgstr")) with false by reflexivity.
    assert (R : re_match MESSAGE_RE (quoted l) = Some l)
      by (rewrite <- (app_nil_r (quoted l)) at 1;
          exact (@re_match_quoted l 0 (plain_not_newline Fl))).
    rewrite R.
    set (s1 := set_lineno self (Z.of_nat (length before_))).
    assert (Hl1 : lines s1 = (before_ ++ [quoted l]) ++ map quoted out ++ rest)
      by (subst s1; cbn [set_lineno lines]; rewrite Hl, <- app_assoc; reflexivity).
    assert (Hn1 : lineno s1 = Z.of_nat (length (before_ ++ [quoted l])) - 1)
      by (subst s1; cbn [set_lineno lineno]; rewrite length_app; cbn [length]; lia).
    assert (E : set_lineno s1 (Z.of_nat (length (before_ ++ [quoted l]) + length out) - 1)
                = set_lineno self (Z.of_nat (length before_ + S (length out)) - 1)).
    { subst s1. unfold set_lineno. cbn [filename lines _original _entries].
      f_equal. rewrite length_app. cbn [length]. lia. }
    destruct temp.
    + rewrite (IH fuel s1 _ rest ids strs (own ++ [l]) temp_own start_line Hl1 Hn1 F).
      rewrite E, <- app_assoc. reflexivity.
    + rewrite (IH fuel s1 _ rest (ids ++ [l]) strs own temp_msgid start_line Hl1 Hn1 F).
      rewrite E, <- app_assoc. reflexivity.
    + rewrite (IH fuel s1 _ rest ids (strs ++ [l]) own temp_msgstr start_line Hl1 Hn1 F).
      rewrite E, <- app_assoc. reflexivity.
Qed.

(** [_parse_entry] over the lines of one rendered entry. *)
Lemma _parse_entry_formatted self x la y lb :
  lines self = titled (lit "msgid") x :: map quoted la
               ++ titled (lit "msgstr") y :: map quoted lb ->
  lineno self = -1 ->
  plain x -> Forall plain la -> plain y -> Forall plain lb ->
  _parse_entry U self
  = Ok (set_lineno self (builtin_len (lines self)),
        {| span := {| start := 0; end_ := builtin_len (lines self) |};
           msgid := x :: la; msgstr := y :: lb |}).
Proof.
  intros Hl Hn Px Pla Py Plb. unfold _parse_entry, loop_fuel.
  assert (Hlen : length (lines self) = S (length la + S (length lb)))
    by (rewrite Hl; cbn [length]; rewrite length_app; cbn [length];
        rewrite !length_map; reflexivity).
  unfold builtin_len. rewrite Hlen.
  replace (S (S (S (length la + S (length lb)))))
    with (S (length la + S (length lb + 2))) by lia.
  (* the msgid line *)
  cbn [entry_loop].
  rewrite (__next___at self [] _ _ Hl) by (cbn [length]; lia). cbn [bind length].
  assert (B1 : blank U (titled (lit "msgid") x) = false)
    by (apply blank_starts_visible, m_not_space).
  rewrite B1.
  replace (startswith (titled (lit "msgid") x) (lit "#")) with false by reflexivity.
  replace (startswith (titled (lit "msgid") x) (lit "msgid")) with true by reflexivity.
  cbn [nonempty].
  replace (slice_from (titled (lit "msgid") x) 6) with (quoted x)
    by (symmetry; apply (@slice_from_app_exact _ (lit "msgid ") (quoted x))).
  assert (Rx : re_match MESSAGE_RE (quoted x) = Some x)
    by (rewrite <- (app_nil_r (quoted x)) at 1;
        exact (@re_match_quoted x 0 (plain_not_newline Px))).
  rewrite Rx. cbn [app set_lineno lineno].
  (* its continuation lines *)
  set (s1 := set_lineno self (Z.of_nat 0)).
  rewrite (@entry_loop_continuations la _ s1 [titled (lit "msgid") x]
             (titled (lit "msgstr") y :: map quoted lb) [x] [] [] temp_msgid _);
    [|subst s1; cbn [set_lineno lines app]; exact Hl
     |subst s1; cbn [set_lineno lineno length]; lia
     |exact Pla].
  (* the msgstr line *)
  cbn [entry_loop].
  set (s2 := set_lineno s1 _).
  assert (Hl2 : lines s2 = (titled (lit "msgid") x :: map quoted la)
                           ++ titled (lit "msgstr") y :: map quoted lb)
    by (subst s2 s1; cbn [set_lineno lines]; exact Hl).
  rewrite (__next___at s2 _ _ _ Hl2)
    by (subst s2; cbn [set_lineno lineno length]; rewrite length_map; lia).
  cbn [bind].
  assert (B2 : blank U (titled (lit "msgstr") y) = false)
    by (apply blank_starts_visible, m_not_space).
  rewrite B2.
  replace (startswith (titled (lit "msgstr") y) (lit "#")) with false by reflexivity.
  replace (startswith (titled (lit "msgstr") y) (lit "msgid")) with false by reflexivity.
  replace (startswith (titled (lit "msgstr") y) (lit "msgstr")) with true by reflexivity.
  cbn [nonempty].
  replace (slice_from (titled (lit "msgstr") y) 7) with (quoted y)
    by (symmetry; apply (@slice_from_app_exact _ (lit "msgstr ") (quoted y))).
  assert (Ry : re_match MESSAGE_RE (quoted y) = Some y)
    by (rewrite <- (app_nil_r (quoted y)) at 1;
        exact (@re_match_quoted y 0 (plain_not_newline Py))).
  rewrite Ry. cbn [app].
  (* its continuation lines, and the end *)
  set (s3 := set_lineno s2 _).
  rewrite (@entry_loop_continuations lb 2 s3
             ((titled (lit "msgid") x :: map quoted la) ++ [titled (lit "msgstr") y])
             [] ([x] ++ la) [y] [] temp_msgstr _);
    [|subst s3 s2 s1; cbn [set_lineno lines]; rewrite Hl, app_nil_r, <- app_assoc;
      reflexivity
     |subst s3; cbn [set_lineno lineno]; rewrite !length_app; cbn [length]; lia
     |exact Plb].
  cbn [entry_loop].
  set (s4 := set_lineno s3 _).
  rewrite (__next___end s4).
  - cbn [bind]. unfold finish_entry. cbn [app set_lineno lineno].
    subst s4 s3 s2 s1. unfold set_lineno. cbn [filename lines _original _entries lineno].
    rewrite Hlen. reflexivity.
  - subst s4 s3 s2 s1. cbn [set_lineno lineno lines]. rewrite Hlen.
    rewrite !length_app. cbn [length]. rewrite !length_map. lia.
Qed.
End ReadBack.

(** X17.  What [format] writes for an entry, [parse] reads back as one
    entry that spans all the lines and holds the same texts: the
    fragments of its msgid joined are the text that was rendered (the
    processed text, or with [no_msgid] the fragments as they were), and
    the fragments of its msgstr joined are the processed msgstr.  The
    texts are plain: tabs, newlines and the like the wrapper would turn
    into spaces. *)
Theorem formatted_entry_reads_back (U : unicode_db) (pangu : option (str -> str))
        (name : str) (e : Entry) (width : Z) (factor : float) (no_msgid : bool)
        (ls : list str) :
  isspace U (ord "m") = false -> isspace U quote = false ->
  plain (msgid_text pangu no_msgid e) ->
  plain (process_text pangu (msgstr e)) ->
  format U pangu e width factor no_msgid = Ok ls ->
  exists src e',
    parse U (Source_init name ls) = Ok src
    /\ _entries src = [e']
    /\ span e' = {| start := 0; end_ := builtin_len ls |}
    /\ join (msgid e') = msgid_text pangu no_msgid e
    /\ join (msgstr e') = process_text pangu (msgstr e).
Proof.
  intros Hm Hq Pa Pb H. unfold format in H.
  destruct (_format_text U pangu (new_len U factor) e (lit "msgid") (msgid e) width
              (negb no_msgid)) as [A|ex] eqn:EA; cbn [bind] in H; [|discriminate].
  destruct (_format_text U pangu (new_len U factor) e (lit "msgstr") (msgstr e) width
              true) as [B|ex] eqn:EB; cbn [bind] in H; [|discriminate].
  injection H as <-.
  assert (Pa' : plain (if negb no_msgid then process_text pangu (msgid e)
                       else join (msgid e)))
    by (unfold msgid_text in Pa; destruct no_msgid; exact Pa).
  destruct (@_format_text_shape U pangu (new_len U factor) e (lit "msgid") (msgid e) width
              (negb no_msgid) A Pa' EA) as (x & la & -> & Ca).
  destruct (@_format_text_shape U pangu (new_len U factor) e (lit "msgstr") (msgstr e) width
              true B Pb EB) as (y & lb & -> & Cb).
  assert (Ca' : x ++ concat la = msgid_text pangu no_msgid e)
    by (unfold msgid_text; destruct no_msgid; exact Ca).
  clear Ca Pa' EA EB.
  assert (Px : plain x /\ Forall plain la).
  { rewrite <- Ca' in Pa. apply Forall_app in Pa. destruct Pa as [P1 P2].
    split; [exact P1 | apply plain_concat, P2]. }
  assert (Py : plain y /\ Forall plain lb).
  { rewrite <- Cb in Pb. apply Forall_app in Pb. destruct Pb as [P1 P2].
    split; [exact P1 | apply plain_concat, P2]. }
  destruct Px as [Px Pla]. destruct Py as [Py Plb].
  set (ls := (titled (lit "msgid") x :: map quoted la)
             ++ titled (lit "msgstr") y :: map quoted lb).
  assert (Els : ls = titled (lit "msgid") x :: map quoted la
                     ++ titled (lit "msgstr") y :: map quoted lb) by reflexivity.
  clearbody ls.
  exists (append_entry (set_lineno (Source_init name ls) (builtin_len ls + 1))
            {| span := {| start := 0; end_ := builtin_len ls |};
               msgid := x :: la; msgstr := y :: lb |}).
  eexists. split; [|split; [reflexivity|]].
  - unfold parse. cbn [Source_init lineno]. replace (0 <=? -1) with false by reflexivity.
    unfold loop_fuel. cbn [Source_init lines].
    remember (S (length ls)) as f1 eqn:Ef1. cbn [parse_loop].
    rewrite (__next___at (Source_init name ls) [] (titled (lit "msgid") x)
               (map quoted la ++ titled (lit "msgstr") y :: map quoted lb));
      [|cbn [Source_init lines app]; exact Els | reflexivity].
    cbn [bind length].
    replace (fuzzy_marker U (titled (lit "msgid") x)) with false by reflexivity.
    cbn [bind].
    assert (B1 : blank U (titled (lit "msgid") x) = false)
      by (apply blank_starts_visible, Hm).
    rewrite B1.
    replace (startswith (titled (lit "msgid") x) (lit "#")) with false by reflexivity.
    replace (startswith (titled (lit "msgid") x) (lit "msgid")) with true by reflexivity.
    cbn [orb set_lineno lineno].
    match goal with
    | |- context [_parse_entry U ?s] =>
        rewrite (@_parse_entry_formatted U Hm Hq s x la y lb);
          [|exact Els | reflexivity | exact Px | exact Pla | exact Py | exact Plb]
    end.
    cbn [bind fst snd set_lineno lines Source_init]. rewrite Ef1. cbn [parse_loop].
    unfold __next__. cbn [append_entry set_lineno lines lineno].
    cbn [Source_init lines].
    replace (_ <=? _) with true by (symmetry; apply Z.leb_le; lia).
    reflexivity.
  - cbn [span msgid msgstr join concat]. split; [reflexivity|].
    split; [exact Ca' | exact Cb].
Qed.

Lemma formatted_entry_reads_back_witness :
  exists ls src e',
    format ucd None long_cjk_entry 20 float_1_8 false = Ok ls
    /\ parse ucd (Source_init [] ls) = Ok src
    /\ _entries src = [e']
    /\ span e' = {| start := 0; end_ := builtin_len ls |}
    /\ join (msgid e') = msgid_text None false long_cjk_entry
    /\ join (msgstr e') = process_text None (msgstr long_cjk_entry).
Proof.
  assert (E : exists ls, format ucd None long_cjk_entry 20 float_1_8 false = Ok ls)
    by (vm_compute; eexists; reflexivity).
  destruct E as [ls E].
  assert (Pa : plain (msgid_text None false long_cjk_entry))
    by (vm_compute; repeat constructor).
  assert (Pb : plain (process_text None (msgstr long_cjk_entry)))
    by (vm_compute; repeat constructor).
  destruct (@formatted_entry_reads_back ucd None [] long_cjk_entry 20 float_1_8 false ls
              eq_refl eq_refl Pa Pb E) as (src & e' & H).
  exists ls, src, e'. split; [exact E | exact H].
Defined.

(** ** No line boundary is written *)

Section GroupFacts.
Variable R : Type.

Lemma star_greedy_group p aft : forall bef g (k : cursor -> option R) res,
  star_greedy p bef aft g k = Some res ->
  exists c', group1 c' = g /\ k c' = Some res.
Proof.
  induction aft as [|x rest IH]; intros bef g k res H; cbn [star_greedy] in H.
  - eexists. split; [|exact H]. reflexivity.
  - destruct (p x); [|eexists; split; [|exact H]; reflexivity].
    destruct (star_greedy p (x :: bef) rest g k) as [r|] eqn:E.
    + injection H as <-. apply IH in E. exact E.
    + eexists. split; [|exact H]. reflexivity.
Qed.

Lemma star_lazy_group p aft : forall bef g (k : cursor -> option R) res,
  star_lazy p bef aft g k = Some res ->
  exists c', group1 c' = g /\ k c' = Some res.
Proof.
  induction aft as [|x rest IH]; intros bef g k res H; cbn [star_lazy] in H.
  - destruct (k {| before := bef; after := []; group1 := g |}) as [r|] eqn:E;
      [|discriminate].
    injection H as <-. eexists. split; [|exact E]. reflexivity.
  - destruct (k {| before := bef; after := x :: rest; group1 := g |}) as [r|] eqn:E.
    + injection H as <-. eexists. split; [|exact E]. reflexivity.
    + destruct (p x); [|discriminate]. apply IH in H. exact H.
Qed.

(** A pattern without the group hands on the capture it was given. *)
Lemma rmatch_groupless r : forall c (k : cursor -> option R) res,
  groupless r = true ->
  rmatch r c k = Some res ->
  exists c', group1 c' = group1 c /\ k c' = Some res.
Proof.
  induction r; intros c k res G H; cbn [rmatch] in H; cbn [groupless] in G;
    try discriminate.
  - eauto.
  - destruct (after c) as [|x rest]; [discriminate|].
    destruct (p x); [|discriminate]. eexists. split; [|exact H]. reflexivity.
  - apply andb_prop in G. destruct G as [G1 G2].
    apply (IHr1 _ _ _ G1) in H. destruct H as (c1 & E1 & H).
    apply (IHr2 _ _ _ G2) in H. destruct H as (c2 & E2 & H).
    exists c2. split; [congruence | exact H].
  - apply andb_prop in G. destruct G as [G1 G2].
    destruct (rmatch r1 c k) as [r|] eqn:E.
    + injection H as <-. apply (IHr1 _ _ _ G1) in E. exact E.
    + apply (IHr2 _ _ _ G2) in H. exact H.
  - apply star_greedy_group in H. exact H.
  - apply star_lazy_group in H. exact H.
  - destruct (rmatch r c (fun _ => k c)) as [r'|] eqn:E; [|discriminate].
    injection H as <-. apply (IHr _ _ _ G) in E. destruct E as (_ & _ & E). eauto.
  - destruct (ends_with_classes (rev ps) (before c)); [eauto | discriminate].
  - destruct (ends_with_classes (rev ps) (before c)); [discriminate | eauto].
  - destruct (after c); [eauto | discriminate].
  - destruct (after c) as [|x [|y l]]; try discriminate; eauto.
    destruct (N.eqb x 10); [eauto | discriminate].
Qed.
End GroupFacts.

(** What [MESSAGE_RE] captures is a part of the line. *)
Lemma re_match_message_part (s g : str) :
  re_match MESSAGE_RE s = Some g -> exists a b, s = a ++ g ++ b.
Proof.
  unfold re_match, MESSAGE_RE.
  set (tail := Seq (Chr (N.eqb quote)) (Seq (Star (is_char " ")) EndDollar)).
  set (grp := Group (Star dot)).
  destruct (rmatch _ (cursor_at_start s) (fun c' => Some c')) as [res|] eqn:E;
    [|discriminate].
  intros [= <-]. cbn [rmatch] in E. cbn [cursor_at_start after] in E.
  destruct s as [|x s']; [discriminate|].
  destruct (N.eqb quote x); [|discriminate].
  subst grp. apply rmatch_group_inv in E. destruct E as (d & c' & Rc & K).
  apply rmatch_groupless in K; [|reflexivity].
  destruct K as (c3 & G3 & K). injection K as <-.
  cbn [group1] in G3. rewrite G3.
  destruct Rc as [_ A]. cbn [advance after] in A.
  exists [x], (after c'). cbn [app]. rewrite A. reflexivity.
Qed.

Lemma made_of_app good (a b : str) :
  made_of good (a ++ b) <-> made_of good a /\ made_of good b.
Proof. apply Forall_app. Qed.

Lemma made_of_concat good (l : list str) :
  made_of good (concat l) <-> Forall (made_of good) l.
Proof.
  induction l as [|x l IH]; cbn [concat].
  - split; constructor.
  - rewrite made_of_app, IH, Forall_cons_iff. reflexivity.
Qed.

Lemma Forall_firstn {A} (P : A -> Prop) (n : nat) (l : list A) :
  Forall P l -> Forall P (firstn n l).
Proof.
  intros H. rewrite <- (firstn_skipn n l) in H. apply Forall_app in H. apply H.
Qed.

Lemma Forall_skipn {A} (P : A -> Prop) (n : nat) (l : list A) :
  Forall P l -> Forall P (skipn n l).
Proof.
  intros H. rewrite <- (firstn_skipn n l) in H. apply Forall_app in H. apply H.
Qed.

Lemma made_of_capture good (s g : str) :
  made_of good s -> re_match MESSAGE_RE s = Some g -> made_of good g.
Proof.
  intros H E. apply re_match_message_part in E. destruct E as (a & b & ->).
  apply made_of_app in H. destruct H as [_ H].
  apply made_of_app in H. apply H.
Qed.

Lemma getitem_In {A} (l : list A) (i : Z) (x : A) : getitem l i = Some x -> In x l.
Proof.
  unfold getitem. destruct (i <? 0).
  - destruct (_ <? 0); [discriminate|]. apply nth_error_In.
  - apply nth_error_In.
Qed.

Lemma slice_assign_Forall {A} (P : A -> Prop) (l : list A) (i j : Z) (r : list A) :
  Forall P l -> Forall P r -> Forall P (slice_assign l i j r).
Proof.
  intros Hl Hr. unfold slice_assign.
  apply Forall_app. split; [apply Forall_firstn, Hl|].
  apply Forall_app. split; [exact Hr | apply Forall_skipn, Hl].
Qed.

Lemma one_line_made_of (s : str) : one_line s <-> made_of not_linebreak s.
Proof.
  unfold one_line, made_of, not_linebreak.
  split; apply Forall_impl; intros c H; [rewrite H; reflexivity|].
  apply negb_true_iff, H.
Qed.

Lemma keeps_one_line_keeps pangu : keeps_one_line pangu -> keeps not_linebreak pangu.
Proof.
  unfold keeps_one_line, keeps. destruct pangu as [f|]; [|auto].
  intros H s Hs. apply one_line_made_of, H, one_line_made_of, Hs.
Qed.

(** Apart from what [pangu] does, the characters of the lines that
    [fix] leaves are characters of the lines it found, the letters of
    the two titles, the space, the quote and the backslash. *)
Section KeptCharacters.
Variable U : unicode_db.
Variable pangu : option (str -> str).
Variable good : class.
Hypothesis good_space : good 32%N = true.
Hypothesis good_quote : good quote = true.
Hypothesis good_backslash : good backslash = true.
Hypothesis good_msgid : made_of good (lit "msgid").
Hypothesis good_msgstr : made_of good (lit "msgstr").
Hypothesis pangu_keeps : keeps good pangu.

Lemma escape_from_made_of (s : str) : forall pb,
  made_of good s -> made_of good (escape_from pb s).
Proof.
  induction s as [|x s IH]; intros pb H; cbn [escape_from]; [constructor|].
  apply Forall_cons_iff in H. destruct H as [Hx H].
  apply made_of_app. split; [|apply IH, H].
  destruct (N.eqb x quote && negb pb); repeat constructor; assumption.
Qed.

Lemma munge_made_of (s : str) : made_of good s -> made_of good (_munge_whitespace s).
Proof.
  intros H. unfold _munge_whitespace, expandtabs.
  assert (He : forall col, made_of good (expandtabs_from 8 col s)).
  { induction H as [|x l Hx Hl IH]; intros col; cbn [expandtabs_from]; [constructor|].
    destruct (N.eqb x 9).
    - apply made_of_app. split; [|apply IH].
      apply Forall_forall. intros y Hy. apply repeat_spec in Hy. subst y. exact good_space.
    - destruct (N.eqb x 10 || N.eqb x 13); constructor; auto; apply IH. }
  specialize (He 0%nat).
  induction He as [|x l Hx Hl IH]; cbn [map]; constructor; auto.
  destruct (_whitespace x); assumption.
Qed.

(** The fragments that the loop of [_parse_entry] gathers are parts of
    the lines. *)
Lemma entry_loop_made_of fuel : forall self ids strs own temp start_line self' e,
  Forall (made_of good) (lines self) ->
  Forall (made_of good) ids -> Forall (made_of good) strs ->
  entry_loop U fuel self ids strs own temp start_line = Ok (self', e) ->
  entry_made_of good e.
Proof.
  induction fuel as [|fuel IH]; intros self ids strs own temp start_line self' e
    Hl Hi Hs H; [discriminate|].
  cbn [entry_loop] in H.
  destruct (__next__ self) as [[s1 item]|ex] eqn:N; cbn [bind] in H; [|discriminate].
  apply __next___inv in N. destruct N as [-> N].
  assert (Fin : forall s, finish_entry s ids strs start_line = Ok (self', e) ->
                          entry_made_of good e).
  { intros s F. apply finish_entry_inv in F. destruct F as (_ & -> & _).
    split; assumption. }
  destruct item as [line|]; [|eapply Fin; eassumption].
  destruct N as [_ Ng]. apply getitem_In in Ng.
  assert (Hline : made_of good line) by (rewrite Forall_forall in Hl; apply Hl, Ng).
  assert (Snoc : forall l m, Forall (made_of good) l -> made_of good m ->
                             Forall (made_of good) (l ++ [m]))
    by (intros l m H1 H2; apply Forall_app; split; [exact H1 | repeat constructor; exact H2]).
  destruct (blank U line); [eapply Fin; eassumption|].
  destruct (startswith line (lit "#")); [eapply IH; [| | |exact H]; assumption|].
  destruct (startswith line (lit "msgid")).
  { destruct (nonempty ids); [eapply Fin; eassumption|].
    destruct (re_match MESSAGE_RE (slice_from line 6)) as [m|] eqn:E; [|discriminate].
    apply (@made_of_capture good) in E; [|apply Forall_skipn, Hline].
    eapply IH; [| | |exact H]; auto. }
  destruct (startswith line (lit "msgstr")).
  { destruct (nonempty strs); [eapply Fin; eassumption|].
    destruct (re_match MESSAGE_RE (slice_from line 7)) as [m|] eqn:E; [|discriminate].
    apply (@made_of_capture good) in E; [|apply Forall_skipn, Hline].
    eapply IH; [| | |exact H]; auto. }
  destruct (re_match MESSAGE_RE line) as [m|] eqn:E; [|discriminate].
  apply (@made_of_capture good) in E; [|exact Hline].
  destruct temp; (eapply IH; [| | |exact H]; auto).
Qed.

Lemma parse_loop_made_of fuel : forall self self',
  Forall (made_of good) (lines self) -> Forall (entry_made_of good) (_entries self) ->
  parse_loop U fuel self = Ok self' ->
  Forall (entry_made_of good) (_entries self') /\ lines self' = lines self.
Proof.
  induction fuel as [|fuel IH]; intros self self' Hl F H; [discriminate|].
  cbn [parse_loop] in H.
  destruct (__next__ self) as [[s1 item]|ex] eqn:N; cbn [bind] in H; [|discriminate].
  apply __next___inv in N. destruct N as [-> N].
  destruct item as [line|]; [|injection H as <-; cbn [set_lineno _entries lines]; auto].
  assert (Tail : forall s,
             lines s = lines self -> _entries s = _entries self ->
             (if blank U line || startswith line (lit "#") then parse_loop U fuel s
              else if startswith line (lit "msgid")
                   then r <- _parse_entry U (set_lineno s (lineno s - 1)) ;;
                        parse_loop U fuel (append_entry (fst r) (snd r))
                   else parse_error s (lit "Unexpected token")) = Ok self' ->
             Forall (entry_made_of good) (_entries self') /\ lines self' = lines self).
  { intros s Ls Es T.
    destruct (blank U line || startswith line (lit "#")).
    - apply IH in T; [|rewrite Ls; exact Hl | rewrite Es; exact F].
      rewrite Ls in T. exact T.
    - destruct (startswith line (lit "msgid")); [|discriminate].
      destruct (_parse_entry U (set_lineno s (lineno s - 1))) as [[s3 e]|ex] eqn:P;
        cbn [bind fst snd] in T; [|discriminate].
      unfold _parse_entry in P. pose proof P as P'.
      apply entry_loop_inv in P. unfold entry_post in P.
      cbn [set_lineno lines _entries] in P. destruct P as (P1 & P2 & _).
      apply entry_loop_made_of in P';
        [|cbn [set_lineno lines]; rewrite Ls; exact Hl | constructor | constructor].
      apply IH in T; cbn [append_entry lines _entries].
      + cbn [append_entry lines] in T. rewrite P1, Ls in T. exact T.
      + rewrite P1, Ls. exact Hl.
      + rewrite P2, Es. apply Forall_app. split; [exact F|]. constructor; auto. }
  destruct (fuzzy_marker U line); cbn [bind] in H.
  - destruct (_parse_entry U (set_lineno self (lineno self + 1))) as [[s2 e2]|ex] eqn:P;
      cbn [bind fst] in H; [|discriminate].
    unfold _parse_entry in P. apply entry_loop_inv in P. unfold entry_post in P.
    cbn [set_lineno lines _entries] in P. destruct P as (P1 & P2 & _).
    apply (Tail s2); assumption.
  - apply (Tail (set_lineno self (lineno self + 1))); auto.
Qed.

Lemma process_text_made_of (fragments : list str) :
  Forall (made_of good) fragments -> made_of good (process_text pangu fragments).
Proof.
  intros H. unfold process_text.
  assert (E : made_of good (escape_quotes (join fragments))).
  { rewrite escape_quotes_from. apply escape_from_made_of.
    unfold join. apply made_of_concat, H. }
  unfold keeps in pangu_keeps. destruct pangu as [f|]; auto.
Qed.

Lemma quoted_made_of (l : str) : made_of good l -> made_of good (quoted l).
Proof.
  intros H. unfold quoted. apply made_of_app. split; [repeat constructor; assumption|].
  apply made_of_app. split; [exact H | repeat constructor; assumption].
Qed.

Lemma titled_made_of (title x : str) :
  made_of good title -> made_of good x -> made_of good (titled title x).
Proof.
  intros Ht Hx. unfold titled. apply made_of_app. split; [exact Ht|].
  apply made_of_app. split; [repeat constructor; assumption | apply quoted_made_of, Hx].
Qed.

Lemma _format_text_made_of (len : str -> result Z) (self : Entry) (title : str)
      (fragments : list str) (width : Z) (reformat : bool) (out : list str) :
  made_of good title -> Forall (made_of good) fragments ->
  _format_text U pangu len self title fragments width reformat = Ok out ->
  Forall (made_of good) out.
Proof.
  intros Ht Hf H. unfold _format_text in H. destruct reformat; cbn [negb] in H.
  - pose proof (process_text_made_of Hf) as Hp.
    assert (Hw : forall la, made_of good (concat la) ->
                            Forall (made_of good) (titled title [] :: map quoted la)).
    { intros la Hc. constructor; [apply titled_made_of; [exact Ht | constructor]|].
      apply made_of_concat in Hc. apply Forall_map.
      eapply Forall_impl; [|exact Hc]. apply quoted_made_of. }
    destruct (len title) as [a|ex]; cbn [bind] in H; [|discriminate].
    destruct (len (process_text pangu fragments)) as [b|ex]; cbn [bind] in H;
      [|discriminate].
    destruct (_ <=? width).
    + injection H as <-. constructor; [|constructor].
      apply titled_made_of; assumption.
    + destruct (is_header (msgid self)).
      * destruct (wrap_paras U len (width - 2) _) as [la|ex] eqn:W; cbn [bind] in H;
          [|discriminate].
        injection H as <-. apply Hw.
        rewrite (@wrap_paras_ok_concat U len (width - 2) _ la W).
        destruct (header_paras_spec (process_text pangu fragments)) as (ps & l' & _ & _ & C).
        rewrite <- C in Hp. apply made_of_concat in Hp.
        apply made_of_concat, Forall_map.
        eapply Forall_impl; [|exact Hp]. apply munge_made_of.
      * destruct (wrap U len (width - 2) _) as [la|ex] eqn:W; cbn [bind] in H;
          [|discriminate].
        injection H as <-. apply Hw.
        rewrite (@wrap_concat U len (width - 2) _ la W).
        apply munge_made_of, Hp.
  - destruct fragments as [|first rest]; [discriminate|].
    injection H as <-. apply Forall_cons_iff in Hf. destruct Hf as [H1 H2].
    constructor; [apply titled_made_of; assumption|].
    apply Forall_map. eapply Forall_impl; [|exact H2]. apply quoted_made_of.
Qed.

Lemma format_made_of (e : Entry) (width : Z) (factor : float) (no_msgid : bool)
      (out : list str) :
  entry_made_of good e ->
  format U pangu e width factor no_msgid = Ok out -> Forall (made_of good) out.
Proof.
  intros [Hi Hs] H. unfold format in H.
  destruct (_format_text U pangu (new_len U factor) e (lit "msgid") (msgid e) width
              (negb no_msgid)) as [A|ex] eqn:EA; cbn [bind] in H; [|discriminate].
  destruct (_format_text U pangu (new_len U factor) e (lit "msgstr") (msgstr e) width
              true) as [B|ex] eqn:EB; cbn [bind] in H; [|discriminate].
  injection H as <-. apply Forall_app. split.
  - eapply _format_text_made_of; [exact good_msgid | exact Hi | exact EA].
  - eapply _format_text_made_of; [exact good_msgstr | exact Hs | exact EB].
Qed.

Lemma fix_loop_made_of (width : Z) (factor : float) (no_msgid : bool) r : forall self self',
  Forall (entry_made_of good) r -> Forall (made_of good) (lines self) ->
  fix_loop U pangu r self width factor no_msgid = Ok self' ->
  Forall (made_of good) (lines self').
Proof.
  induction r as [|e r IH]; intros self self' F Hl H; cbn [fix_loop] in H.
  - injection H as <-. auto.
  - apply Forall_cons_iff in F. destruct F as [Fe F].
    destruct (format U pangu e width factor no_msgid) as [new|ex] eqn:E; cbn [bind] in H;
      [|discriminate].
    apply IH in H; [exact H | exact F|].
    cbn [set_lines lines]. apply slice_assign_Forall; [exact Hl|].
    eapply format_made_of; eassumption.
Qed.

Lemma fix_made_of (name : str) (ls : list str) (width : Z) (factor : float)
      (no_msgid : bool) (src' : Source) (changed : bool) :
  Forall (made_of good) ls ->
  fix_ U pangu (Source_init name ls) width factor no_msgid = Ok (src', changed) ->
  Forall (made_of good) (lines src').
Proof.
  intros Hl H. unfold fix_ in H.
  destruct (parse U (Source_init name ls)) as [src|ex] eqn:P; cbn [bind] in H;
    [|discriminate].
  destruct (fix_loop U pangu (rev (_entries src)) src width factor no_msgid)
    as [s2|ex] eqn:F; cbn [bind] in H; [|discriminate].
  injection H as <- <-.
  unfold parse in P. cbn [Source_init lineno] in P.
  replace (0 <=? -1) with false in P by reflexivity.
  apply parse_loop_made_of in P; cbn [Source_init lines _entries];
    [|exact Hl | constructor].
  destruct P as [Pe Pl]. cbn [Source_init lines] in Pl.
  apply fix_loop_made_of in F; [exact F | apply Forall_rev, Pe | rewrite Pl; exact Hl].
Qed.
End KeptCharacters.

Lemma format_nonempty (U : unicode_db) (pangu : option (str -> str)) (e : Entry)
      (width : Z) (factor : float) (no_msgid : bool) (out : list str) :
  format U pangu e width factor no_msgid = Ok out -> out <> [].
Proof.
  unfold format. intros H.
  destruct (_format_text U pangu (new_len U factor) e (lit "msgid") (msgid e) width
              (negb no_msgid)) as [A|ex] eqn:EA; cbn [bind] in H; [|discriminate].
  destruct (_format_text U pangu (new_len U factor) e (lit "msgstr") (msgstr e) width
              true) as [B|ex] eqn:EB; cbn [bind] in H; [|discriminate].
  injection H as <-. unfold _format_text in EB. cbn [negb] in EB.
  assert (HB : B <> []).
  { destruct (new_len U factor (lit "msgstr")); cbn [bind] in EB; [|discriminate].
    destruct (new_len U factor (process_text pangu (msgstr e))); cbn [bind] in EB;
      [|discriminate].
    destruct (_ <=? width); [injection EB as <-; discriminate|].
    destruct (is_header (msgid e)).
    - destruct (wrap_paras U _ _ _); cbn [bind] in EB; [|discriminate].
      injection EB as <-. discriminate.
    - destruct (wrap U _ _ _); cbn [bind] in EB; [|discriminate].
      injection EB as <-. discriminate. }
  intros E. apply app_eq_nil in E. destruct E as [_ E]. contradiction.
Qed.

Lemma fix_loop_nonempty (U : unicode_db) (pangu : option (str -> str)) (width : Z)
      (factor : float) (no_msgid : bool) r : forall self self',
  fix_loop U pangu r self width factor no_msgid = Ok self' ->
  (r = [] /\ self' = self) \/ lines self' <> [].
Proof.
  induction r as [|e r IH]; intros self self' H; cbn [fix_loop] in H.
  - injection H as <-. auto.
  - right.
    destruct (format U pangu e width factor no_msgid) as [new|ex] eqn:E; cbn [bind] in H;
      [|discriminate].
    apply format_nonempty in E.
    apply IH in H. destruct H as [[_ ->] | H]; [|exact H].
    cbn [set_lines lines]. unfold slice_assign. intros N.
    apply app_eq_nil in N. destruct N as [_ N].
    apply app_eq_nil in N. destruct N as [N _]. contradiction.
Qed.

(** When [fix] reports a change, it has left a line. *)
Lemma fix_changed_nonempty (U : unicode_db) (pangu : option (str -> str)) (name : str)
      (ls : list str) (width : Z) (factor : float) (no_msgid : bool) (src' : Source) :
  fix_ U pangu (Source_init name ls) width factor no_msgid = Ok (src', true) ->
  lines src' <> [].
Proof.
  intros H. unfold fix_ in H.
  destruct (parse U (Source_init name ls)) as [src|ex] eqn:P; cbn [bind] in H;
    [|discriminate].
  destruct (fix_loop U pangu (rev (_entries src)) src width factor no_msgid)
    as [s2|ex] eqn:F; cbn [bind] in H; [|discriminate].
  injection H as <- Hc.
  unfold parse in P. cbn [Source_init lineno] in P.
  replace (0 <=? -1) with false in P by reflexivity.
  apply parse_loop_inv in P; cbn [Source_init lineno _entries]; auto; [|lia|exact I].
  cbn [Source_init lines _original] in P. destruct P as (_ & Pl & Porig).
  apply fix_loop_nonempty in F. destruct F as [[_ ->] | F]; [|exact F].
  unfold diff in Hc. rewrite Porig, Pl, lines_eqb_refl in Hc. discriminate.
Qed.

(** X18.  [fix] writes no line boundary: when the lines of a file hold
    none, as the lines that [splitlines] gives, and [pangu] if there
    adds none, the lines that [fix] leaves hold none either.  The same
    goes for the characters that UTF-8 cannot encode: when the lines
    hold none, as the lines that were decoded from a file, and [pangu]
    adds none, the lines that [fix] leaves hold none; so when [fix]
    reports a change and the lines are written, [write] returns and a
    new [Source] reads the very same lines back from the file. *)
Theorem fixed_file_reads_back (U : unicode_db) (pangu : option (str -> str))
        (name : str) (ls : list str) (width : Z) (factor : float) (no_msgid : bool)
        (src' : Source) (changed : bool) (linesep : str) :
  keeps_one_line pangu -> Forall one_line ls ->
  linesep = [10%N] \/ linesep = [13%N; 10%N] ->
  fix_ U pangu (Source_init name ls) width factor no_msgid = Ok (src', changed) ->
  Forall one_line (lines src')
  /\ (keeps is_scalar pangu -> Forall encodable ls ->
      Forall encodable (lines src')
      /\ (changed = true ->
          exists bytes src,
            write src' linesep = Ok bytes
            /\ Source_read name bytes = Ok src
            /\ lines src = lines src')).
Proof.
  intros Hk Hl Hsep H.
  assert (F : Forall one_line (lines src')).
  { assert (G : Forall (made_of not_linebreak) (lines src')).
    { refine (@fix_made_of U pangu not_linebreak eq_refl eq_refl eq_refl _ _ _
                name ls width factor no_msgid src' changed _ H).
      - repeat constructor.
      - repeat constructor.
      - apply keeps_one_line_keeps, Hk.
      - eapply Forall_impl; [|exact Hl]. intros l. apply one_line_made_of. }
    eapply Forall_impl; [|exact G]. intros l. apply one_line_made_of. }
  split; [exact F|]. intros He Hle.
  assert (Fe : Forall encodable (lines src')).
  { refine (@fix_made_of U pangu is_scalar eq_refl eq_refl eq_refl _ _ He
              name ls width factor no_msgid src' changed Hle H); repeat constructor. }
  split; [exact Fe|]. intros ->.
  destruct (write_read name src' Hsep F Fe) as (bytes & E & R).
  exists bytes. eexists. split; [exact E|]. split; [exact R|].
  cbn [Source_init lines]. apply splitlines_written; [|exact F].
  eapply fix_changed_nonempty. eassumption.
Qed.

Lemma fixed_file_reads_back_witness :
  exists src',
    fix_ ucd None (Source_init [] file_adjacent_entries) 76 float_1_8 false = Ok (src', true)
    /\ Forall one_line (lines src')
    /\ Forall encodable (lines src')
    /\ exists bytes src,
         write src' [10%N] = Ok bytes
         /\ Source_read [] bytes = Ok src
         /\ lines src = lines src'.
Proof.
  assert (E : exists src',
             fix_ ucd None (Source_init [] file_adjacent_entries) 76 float_1_8 false
             = Ok (src', true))
    by (vm_compute; eexists; reflexivity).
  destruct E as [src' E]. exists src'. split; [exact E|].
  destruct (@fixed_file_reads_back ucd None [] file_adjacent_entries 76 float_1_8 false
              src' true [10%N] I) as [H1 H2].
  - repeat constructor.
  - left. reflexivity.
  - exact E.
  - split; [exact H1|]. destruct (H2 I) as [H3 H4]; [repeat constructor|].
    split; [exact H3 | apply H4; reflexivity].
Defined.
